(** * A growable contiguous sequence over manually managed storage

    Shallow embedding of [vector.h]: the class templates [RawMemory<T>]
    (raw storage for a fixed number of slots) and [Vector<T>] (the typed
    sequence built on it), followed by the properties of their operations.

    Modelling choices.
    - Memory is a heap of blocks; a block is a list of slots, a slot is
      either raw ([None]) or holds a live object ([Some x]).
    - A [T*] is [nullptr] or a block together with a slot offset.
    - Objects of class type ([RawMemory], [Vector]) live in stores indexed
      by their address, so that two references may name the same object.
    - The element type is a parameter; each of its special member functions
      may have an effect on an outside world, may throw, and (for moves and
      assignments) leaves its operands in a state of its own choosing.
    - A computation ends normally, by a thrown exception, or in undefined
      behaviour (a failed [assert], an access outside a live object).
    - [size_t] is modelled by [nat], without an upper bound: a block of [n]
      slots is a list of length [n], and [operator new (n * sizeof(T))]
      yields room for [n] slots.  Where the source would wrap below zero the
      model is undefined. *)

From stdpp Require Import gmap list.
From Stdlib Require Import ZArith.

(** ** Pointers and the two classes' data members *)

Definition loc := positive.
Definition obj := positive.
Bind Scope positive_scope with loc obj.

Inductive pointer : Type :=
  | nullptr
  | Ptr (l : loc) (off : nat).

#[global] Instance pointer_eq_dec : EqDecision pointer.
Proof. solve_decision. Defined.

(** [a > b] on [size_t] is decided as [b < a]. *)
#[global] Instance nat_gt_dec : RelDecision gt := λ a b, decide (b < a).

(** [p + n] on a [T*]. *)
Definition ptr_add (p : pointer) (n : nat) : pointer :=
  match p with
  | nullptr => nullptr
  | Ptr l off => Ptr l (off + n)
  end.

Infix "+ₚ" := ptr_add (at level 50, left associativity).

(** [RawMemory<T>]: [T* buffer_ = nullptr; size_t capacity_ = 0;] *)
Record RawMemory : Type := mkRawMemory {
  buffer_ : pointer;
  capacity_ : nat
}.

(** [Vector<T>]: [RawMemory<T> data_; size_t size_ = 0;] *)
Record Vector : Type := mkVector {
  data_ : RawMemory;
  size_ : nat
}.

#[global] Instance RawMemory_eq_dec : EqDecision RawMemory.
Proof. solve_decision. Defined.

#[global] Instance Vector_eq_dec : EqDecision Vector.
Proof. solve_decision. Defined.

(** ** The element type

    What the templates require of [T]: the two traits tested by
    [if constexpr], and the special member functions.  [Args] stands for the
    argument pack forwarded to [T]'s constructor, [E] for the exceptions and
    [W] for the world outside the container (counters, logs, the allocator).
    A move constructor returns the state left in its source next to its
    result; an assignment returns the new state of its left operand (and of
    its right operand, for a move), also when it throws. *)
Class Element (T Args E W : Type) : Type := {
  is_nothrow_move_constructible : bool;
  is_copy_constructible : bool;
  construct : Args → W → W * (E + T);
  value_construct : W → W * (E + T);
  copy_construct : T → W → W * (E + T);
  move_construct : T → W → W * (T * (E + T));
  copy_assign : T → T → W → W * (T * option E);
  move_assign : T → T → W → W * (T * T * option E);
  destroy : T → W → W;
  allocate : nat → W → W * option E
}.

(** ** Machine state and computations *)

Record State (T W : Type) : Type := mkState {
  heap : gmap loc (list (option T));
  raws : gmap obj RawMemory;
  vectors : gmap obj Vector;
  world : W
}.
Arguments mkState {T W} _ _ _ _.
Arguments heap {T W} _.
Arguments raws {T W} _.
Arguments vectors {T W} _.
Arguments world {T W} _.

Inductive outcome (E A : Type) : Type :=
  | Normal (a : A)
  | Throw (e : E)
  | Undefined.
Arguments Normal {E A} _.
Arguments Throw {E A} _.
Arguments Undefined {E A}.

Definition M (T E W A : Type) : Type := State T W → State T W * outcome E A.

(** A reference to an object of type [X]: how to read it and how to
    overwrite it in a state. *)
Record ref (T W X : Type) : Type := Ref {
  deref : State T W → option X;
  assign : X → State T W → State T W
}.
Arguments Ref {T W X} _ _.
Arguments deref {T W X} _ _.
Arguments assign {T W X} _ _ _.

Section Machine.
Context {T Args E W : Type} `{!Element T Args E W}.

#[local] Abbreviation State := (State T W).
#[local] Abbreviation M := (M T E W).
#[local] Abbreviation ref := (ref T W).

Definition set_heap (f : gmap loc (list (option T)) → gmap loc (list (option T)))
    (s : State) : State :=
  mkState (f (heap s)) (raws s) (vectors s) (world s).
Definition set_raws (f : gmap obj RawMemory → gmap obj RawMemory) (s : State) : State :=
  mkState (heap s) (f (raws s)) (vectors s) (world s).
Definition set_vectors (f : gmap obj Vector → gmap obj Vector) (s : State) : State :=
  mkState (heap s) (raws s) (f (vectors s)) (world s).
Definition set_world (w : W) (s : State) : State :=
  mkState (heap s) (raws s) (vectors s) w.

Definition ret {A} (a : A) : M A := λ s, (s, Normal a).

Definition bind {A B} (m : M A) (f : A → M B) : M B := λ s,
  match m s with
  | (s', Normal a) => f a s'
  | (s', Throw e) => (s', Throw e)
  | (s', Undefined) => (s', Undefined)
  end.

#[global] Instance M_ret : MRet M := @ret.
#[global] Instance M_bind : MBind M := λ A B f m, bind m f.

Definition throw {A} (e : E) : M A := λ s, (s, Throw e).
Definition undefined {A} : M A := λ s, (s, Undefined).

(** [assert(b)] *)
Definition assert (b : bool) : M unit := if b then ret tt else undefined.

(** [try { m } catch (...) { handler }]: the handler does not rethrow. *)
Definition try_catch (m : M unit) (handler : M unit) : M unit := λ s,
  match m s with
  | (s', Throw _) => handler s'
  | r => r
  end.

(** [try { m } catch (...) { handler; throw; }] *)
Definition on_exception {A} (m : M A) (handler : M unit) : M A := λ s,
  match m s with
  | (s', Throw e) =>
      match handler s' with
      | (s'', Normal _) => (s'', Throw e)
      | (s'', Throw e') => (s'', Throw e')
      | (s'', Undefined) => (s'', Undefined)
      end
  | r => r
  end.

(** A scope with a local object: [cleanup] is the object's destructor,
    run when the scope is left, normally or by an exception. *)
Definition finally {A} (m : M A) (cleanup : M unit) : M A := λ s,
  match m s with
  | (s', Undefined) => (s', Undefined)
  | (s', r) =>
      match cleanup s' with
      | (s'', Normal _) => (s'', r)
      | (s'', Throw e') => (s'', Throw e')
      | (s'', Undefined) => (s'', Undefined)
      end
  end.

(** An effect on the outside world. *)
Definition effect {A} (f : W → W * A) : M A := λ s,
  let '(w, a) := f (world s) in (set_world w s, Normal a).

Definition raise_if (r : option E) : M unit :=
  match r with
  | Some e => throw e
  | None => ret tt
  end.

Definition value_or_raise {A} (r : E + A) : M A :=
  match r with
  | inl e => throw e
  | inr a => ret a
  end.

(** *** References *)

Definition load {X} (r : ref X) : M X := λ s,
  match deref r s with
  | Some x => (s, Normal x)
  | None => (s, Undefined)
  end.

Definition store {X} (r : ref X) (x : X) : M unit := λ s,
  match deref r s with
  | Some _ => (assign r x s, Normal tt)
  | None => (s, Undefined)
  end.

Definition raw_at (k : obj) : ref RawMemory :=
  Ref (λ s, raws s !! k) (λ x, set_raws <[k := x]>).

Definition vector_at (o : obj) : ref Vector :=
  Ref (λ s, vectors s !! o) (λ x, set_vectors <[o := x]>).

Definition field {X Y} (get : X → Y) (put : Y → X → X) (r : ref X) : ref Y :=
  Ref (λ s, get <$> deref r s)
      (λ y s, match deref r s with
              | Some x => assign r (put y x) s
              | None => s
              end).

Definition buffer_of : ref RawMemory → ref pointer :=
  field buffer_ (λ p m, mkRawMemory p (capacity_ m)).
Definition capacity_of : ref RawMemory → ref nat :=
  field capacity_ (λ c m, mkRawMemory (buffer_ m) c).
Definition data_of (this : obj) : ref RawMemory :=
  field data_ (λ d v, mkVector d (size_ v)) (vector_at this).
Definition size_of (this : obj) : ref nat :=
  field size_ (λ n v, mkVector (data_ v) n) (vector_at this).

(** [std::swap(a, b)] on scalars: [tmp = a; a = b; b = tmp;] *)
Definition std_swap {X} (a b : ref X) : M unit :=
  tmp ← load a;
  y ← load b;
  store a y;;
  store b tmp.

(** *** Slots *)

Definition slot (s : State) (p : pointer) : option (option T) :=
  match p with
  | nullptr => None
  | Ptr l off => heap s !! l ≫= (.!! off)
  end.

Definition set_slot (p : pointer) (v : option T) (s : State) : State :=
  match p with
  | nullptr => s
  | Ptr l off => set_heap (alter <[off := v]> l) s
  end.

(** Reading the value of the live object at [p]. *)
Definition read (p : pointer) : M T := λ s,
  match slot s p with
  | Some (Some x) => (s, Normal x)
  | _ => (s, Undefined)
  end.

(** Changing the value of the live object at [p]. *)
Definition write (p : pointer) (x : T) : M unit := λ s,
  match slot s p with
  | Some (Some _) => (set_slot p (Some x) s, Normal tt)
  | _ => (s, Undefined)
  end.

(** The slot at [p] starts to hold a live object of value [x]. *)
Definition begin_lifetime (p : pointer) (x : T) : M unit := λ s,
  match slot s p with
  | Some _ => (set_slot p (Some x) s, Normal tt)
  | None => (s, Undefined)
  end.

(** [std::destroy_at(p)]: runs [~T()], the slot is raw again. *)
Definition destroy_at (p : pointer) : M unit := λ s,
  match slot s p with
  | Some (Some x) => (set_world (destroy x (world s)) (set_slot p None s), Normal tt)
  | _ => (s, Undefined)
  end.

(** [p - n] on a [T*] *)
Definition ptr_sub (p : pointer) (n : nat) : M pointer :=
  match p with
  | nullptr => if bool_decide (n = 0) then ret nullptr else undefined
  | Ptr l off => if bool_decide (n ≤ off) then ret (Ptr l (off - n)) else undefined
  end.

(** [p - q] on two [T*] converted to [size_t] *)
Definition ptr_diff (p q : pointer) : M nat :=
  match p, q with
  | nullptr, nullptr => ret 0
  | Ptr l a, Ptr l' b =>
      if bool_decide (l = l' ∧ b ≤ a) then ret (a - b) else undefined
  | _, _ => undefined
  end.

(** [a - b] on [size_t], where the source relies on [b <= a]. *)
Definition minus (a b : nat) : M nat :=
  if bool_decide (b ≤ a) then ret (a - b) else undefined.

(** [++r] and [--r] on a [size_t] *)
Definition increment (r : ref nat) : M unit :=
  n ← load r; store r (n + 1).
Definition decrement (r : ref nat) : M unit :=
  n ← load r; n' ← minus n 1; store r n'.

(** *** Storage allocation *)

(** [operator new]: asks the allocator of the outside world, which may
    refuse with an exception, and yields a block of [n] raw slots. *)
Definition operator_new (n : nat) : M pointer := λ s,
  let '(w, r) := allocate n (world s) in
  match r with
  | Some e => (set_world w s, Throw e)
  | None =>
      let l := fresh (dom (heap s)) in
      (set_world w (set_heap <[l := replicate n None]> s), Normal (Ptr l 0))
  end.

(** [operator delete]: a null pointer is ignored; anything else must be
    the start of an allocated block. *)
Definition operator_delete (p : pointer) : M unit := λ s,
  match p with
  | nullptr => (s, Normal tt)
  | Ptr l off =>
      if bool_decide (off = 0 ∧ is_Some (heap s !! l))
      then (set_heap (delete l) s, Normal tt)
      else (s, Undefined)
  end.

(** Storage of automatic duration for one object (a local of type [T]). *)
Definition stack_push (x : T) : M pointer := λ s,
  let l := fresh (dom (heap s)) in
  (set_heap <[l := [Some x]]> s, Normal (Ptr l 0)).
Definition stack_pop (p : pointer) : M unit := λ s,
  match p with
  | Ptr l _ => (set_heap (delete l) s, Normal tt)
  | nullptr => (s, Undefined)
  end.

(** Storage for a local object of class type, and its release. *)
Definition declare_raw (m : RawMemory) : M obj := λ s,
  let k := fresh (dom (raws s)) in (set_raws <[k := m]> s, Normal k).
Definition forget_raw (k : obj) : M unit := λ s,
  (set_raws (delete k) s, Normal tt).
Definition declare_vector (v : Vector) : M obj := λ s,
  let k := fresh (dom (vectors s)) in (set_vectors <[k := v]> s, Normal k).
Definition forget_vector (k : obj) : M unit := λ s,
  (set_vectors (delete k) s, Normal tt).

(** *** Expressions on elements *)

(** [new (p) T(std::forward<Args>(args)...)] *)
Definition placement_new (p : pointer) (args : Args) : M unit :=
  x ← effect (construct args) ≫= value_or_raise;
  begin_lifetime p x.

(** [new (p) T()] *)
Definition value_construct_at (p : pointer) : M unit :=
  x ← effect value_construct ≫= value_or_raise;
  begin_lifetime p x.

(** [new (d) T( *s )] *)
Definition copy_construct_at (d s : pointer) : M unit :=
  x ← read s;
  y ← effect (copy_construct x) ≫= value_or_raise;
  begin_lifetime d y.

(** [new (d) T(std::move( *s ))] *)
Definition move_construct_at (d s : pointer) : M unit :=
  x ← read s;
  '(x', r) ← effect (move_construct x);
  write s x';;
  y ← value_or_raise r;
  begin_lifetime d y.

(** [*d = *s] *)
Definition copy_assign_at (d s : pointer) : M unit :=
  a ← read d;
  b ← read s;
  '(a', r) ← effect (copy_assign a b);
  write d a';;
  raise_if r.

(** [*d = std::move( *s )] *)
Definition move_assign_at (d s : pointer) : M unit :=
  a ← read d;
  b ← read s;
  '(a', b', r) ← effect (move_assign a b);
  write s b';;
  write d a';;
  raise_if r.

(** *** The algorithms of <memory> and <algorithm> that the source calls *)

(** [std::destroy_n(first, n)] *)
Fixpoint destroy_n (first : pointer) (n : nat) : M unit :=
  match n with
  | 0 => ret tt
  | S n' => destroy_at first;; destroy_n (first +ₚ 1) n'
  end.

(** [std::uninitialized_copy_n(first, n, d_first)], with [i] objects
    constructed so far: when a construction throws, the objects constructed
    before it are destroyed and the exception is thrown again. *)
Fixpoint uninitialized_copy_from (first d_first : pointer) (i n : nat) : M unit :=
  match n with
  | 0 => ret tt
  | S n' =>
      on_exception (copy_construct_at (d_first +ₚ i) (first +ₚ i))
                   (destroy_n d_first i);;
      uninitialized_copy_from first d_first (S i) n'
  end.
Definition uninitialized_copy_n (first : pointer) (n : nat) (d_first : pointer) : M unit :=
  uninitialized_copy_from first d_first 0 n.

(** [std::uninitialized_move_n(first, n, d_first)] *)
Fixpoint uninitialized_move_from (first d_first : pointer) (i n : nat) : M unit :=
  match n with
  | 0 => ret tt
  | S n' =>
      on_exception (move_construct_at (d_first +ₚ i) (first +ₚ i))
                   (destroy_n d_first i);;
      uninitialized_move_from first d_first (S i) n'
  end.
Definition uninitialized_move_n (first : pointer) (n : nat) (d_first : pointer) : M unit :=
  uninitialized_move_from first d_first 0 n.

(** [std::uninitialized_value_construct_n(first, n)] *)
Fixpoint uninitialized_value_construct_from (first : pointer) (i n : nat) : M unit :=
  match n with
  | 0 => ret tt
  | S n' =>
      on_exception (value_construct_at (first +ₚ i)) (destroy_n first i);;
      uninitialized_value_construct_from first (S i) n'
  end.
Definition uninitialized_value_construct_n (first : pointer) (n : nat) : M unit :=
  uninitialized_value_construct_from first 0 n.

(** [std::move(first, last, d_first)]:
    [while (first != last) *d_first++ = std::move( *first++ );] *)
Fixpoint move_loop (first d_first : pointer) (n : nat) : M unit :=
  match n with
  | 0 => ret tt
  | S n' => move_assign_at d_first first;; move_loop (first +ₚ 1) (d_first +ₚ 1) n'
  end.
Definition std_move (first last d_first : pointer) : M unit :=
  n ← ptr_diff last first;
  move_loop first d_first n.

(** [std::move_backward(first, last, d_last)]:
    [while (first != last) *(--d_last) = std::move( *(--last) );] *)
Fixpoint move_backward_loop (last d_last : pointer) (n : nat) : M unit :=
  match n with
  | 0 => ret tt
  | S n' =>
      last' ← ptr_sub last 1;
      d_last' ← ptr_sub d_last 1;
      move_assign_at d_last' last';;
      move_backward_loop last' d_last' n'
  end.
Definition std_move_backward (first last d_last : pointer) : M unit :=
  n ← ptr_diff last first;
  move_backward_loop last d_last n.
End Machine.

(** ** [RawMemory<T>] *)

Section RawMemoryMethods.
Context {T Args E W : Type} `{!Element T Args E W}.

#[local] Abbreviation M := (M T E W).
#[local] Abbreviation ref := (ref T W).

(** [static T* Allocate(size_t n)] *)
Definition Allocate (n : nat) : M pointer :=
  if bool_decide (n ≠ 0) then operator_new n else ret nullptr.

(** [static void Deallocate(T* buf) noexcept] *)
Definition Deallocate (buf : pointer) : M unit :=
  operator_delete buf.

(** [RawMemory() = default] *)
Definition RawMemory_default : RawMemory := mkRawMemory nullptr 0.

(** [explicit RawMemory(size_t capacity)]: the members of the new object *)
Definition RawMemory_ctor (capacity : nat) : M RawMemory :=
  buffer ← Allocate capacity;
  mret (mkRawMemory buffer capacity).

(** [~RawMemory()] *)
Definition RawMemory_dtor (this : ref RawMemory) : M unit :=
  buffer ← load (buffer_of this);
  Deallocate buffer.

(** [void Swap(RawMemory& other) noexcept] *)
Definition RawMemory_Swap (this other : ref RawMemory) : M unit :=
  std_swap (buffer_of this) (buffer_of other);;
  std_swap (capacity_of this) (capacity_of other).

(** [RawMemory(RawMemory&& other) noexcept]: constructs a new object *)
Definition RawMemory_move_ctor (other : ref RawMemory) : M obj :=
  this ← declare_raw RawMemory_default;
  RawMemory_Swap (raw_at this) other;;
  mret this.

(** [RawMemory& operator=(RawMemory&& rhs) noexcept] *)
Definition RawMemory_move_assign (this rhs : ref RawMemory) : M unit :=
  RawMemory_Swap this rhs.

(** [T* operator+(size_t offset) noexcept] *)
Definition RawMemory_plus (this : ref RawMemory) (offset : nat) : M pointer :=
  m ← load this;
  assert (bool_decide (offset ≤ capacity_ m));;
  mret (buffer_ m +ₚ offset).

(** [T& operator[](size_t index) noexcept]: the address of the element *)
Definition RawMemory_index (this : ref RawMemory) (index : nat) : M pointer :=
  m ← load this;
  assert (bool_decide (index < capacity_ m));;
  mret (buffer_ m +ₚ index).

(** [T* GetAddress() noexcept] *)
Definition GetAddress (this : ref RawMemory) : M pointer :=
  load (buffer_of this).

(** [size_t Capacity() const] *)
Definition RawMemory_Capacity (this : ref RawMemory) : M nat :=
  load (capacity_of this).

(** [{ RawMemory<T> x(capacity); body }]: a block with a local [RawMemory] *)
Definition local_RawMemory {A} (capacity : nat) (body : ref RawMemory → M A) : M A :=
  m ← RawMemory_ctor capacity;
  k ← declare_raw m;
  finally (body (raw_at k)) (RawMemory_dtor (raw_at k);; forget_raw k).

(** [{ T x(std::forward<Args>(args)...); body }]: a block with a local [T] *)
Definition local_T {A} (args : Args) (body : pointer → M A) : M A :=
  x ← effect (construct args) ≫= value_or_raise;
  p ← stack_push x;
  finally (body p) (destroy_at p;; stack_pop p).
End RawMemoryMethods.

(** ** [Vector<T>] *)

Section VectorMethods.
Context {T Args E W : Type} `{!Element T Args E W}.

#[local] Abbreviation M := (M T E W).

(** [Vector() = default] *)
Definition Vector_default : Vector := mkVector RawMemory_default 0.

(** [iterator begin() noexcept], and [cbegin] *)
Definition Vector_begin (this : obj) : M pointer :=
  GetAddress (data_of this).

(** [iterator end() noexcept], and [cend] *)
Definition Vector_end (this : obj) : M pointer :=
  size ← load (size_of this);
  RawMemory_plus (data_of this) size.

(** [size_t Size() const noexcept] *)
Definition Size (this : obj) : M nat :=
  load (size_of this).

(** [size_t Capacity() const noexcept] *)
Definition Capacity (this : obj) : M nat :=
  RawMemory_Capacity (data_of this).

(** [T& operator[](size_t index) noexcept]: the address of the element *)
Definition Vector_index (this : obj) (index : nat) : M pointer :=
  size ← load (size_of this);
  assert (bool_decide (index < size));;
  RawMemory_index (data_of this) index.

(** [void CopyN(const T* from, T* to, const size_t n)]:
    [for (size_t i = 0; i < n; ++i) *(to + i) = *(from + i);]
    with [k] iterations left. *)
Fixpoint CopyN_from (from to : pointer) (i k : nat) : M unit :=
  match k with
  | 0 => mret tt
  | S k' => copy_assign_at (to +ₚ i) (from +ₚ i);; CopyN_from from to (S i) k'
  end.
Definition CopyN (from to : pointer) (n : nat) : M unit :=
  CopyN_from from to 0 n.

(** [void Swap(Vector& other) noexcept] *)
Definition Vector_Swap (this other : obj) : M unit :=
  RawMemory_Swap (data_of this) (data_of other);;
  std_swap (size_of this) (size_of other).

(** [~Vector()], followed by the destructor of the member [data_] *)
Definition Vector_dtor (this : obj) : M unit :=
  first ← GetAddress (data_of this);
  size ← load (size_of this);
  destroy_n first size;;
  RawMemory_dtor (data_of this).


(** [Vector(const Vector& other)]: constructs a new object *)
Definition Vector_copy_ctor (other : obj) : M obj :=
  other_size ← load (size_of other);
  data ← RawMemory_ctor other_size;
  this ← declare_vector (mkVector data other_size);
  on_exception
    (from ← GetAddress (data_of other);
     to ← GetAddress (data_of this);
     uninitialized_copy_n from other_size to)
    (RawMemory_dtor (data_of this);; forget_vector this);;
  mret this.

(** [Vector(Vector&& other) noexcept]: constructs a new object *)
Definition Vector_move_ctor (other : obj) : M obj :=
  this ← declare_vector Vector_default;
  Vector_Swap this other;;
  mret this.

(** [{ Vector x(...); body }]: a block with a local [Vector] *)
Definition local_Vector {A} (ctor : M obj) (body : obj → M A) : M A :=
  x ← ctor;
  finally (body x) (Vector_dtor x;; forget_vector x).

(** [Vector& operator=(const Vector& rhs)] *)
Definition Vector_copy_assign (this rhs : obj) : M unit :=
  if bool_decide (this ≠ rhs) then
    rhs_size ← load (size_of rhs);
    capacity ← RawMemory_Capacity (data_of this);
    if bool_decide (rhs_size > capacity) then
      local_Vector (Vector_copy_ctor rhs) (λ rhs_copy,
        Vector_Swap this rhs_copy)
    else
      size ← load (size_of this);
      from ← GetAddress (data_of rhs);
      to ← GetAddress (data_of this);
      (if bool_decide (size > rhs_size) then
         CopyN from to rhs_size;;
         destroy_n (to +ₚ rhs_size) (size - rhs_size)
       else
         CopyN from to size;;
         uninitialized_copy_n (from +ₚ size) (rhs_size - size) (to +ₚ size));;
      store (size_of this) rhs_size
  else mret tt.

(** [Vector& operator=(Vector&& rhs) noexcept] *)
Definition Vector_move_assign (this rhs : obj) : M unit :=
  Vector_Swap this rhs.

(** [void Reserve(const size_t new_capacity)] *)
Definition Reserve (this : obj) (new_capacity : nat) : M unit :=
  capacity ← RawMemory_Capacity (data_of this);
  if bool_decide (new_capacity ≤ capacity) then mret tt
  else
    local_RawMemory new_capacity (λ new_data,
      size ← load (size_of this);
      from ← GetAddress (data_of this);
      to ← GetAddress new_data;
      (if is_nothrow_move_constructible || negb is_copy_constructible
       then uninitialized_move_n from size to
       else uninitialized_copy_n from size to);;
      destroy_n from size;;
      RawMemory_Swap (data_of this) new_data).

(** [void Resize(size_t new_size)] *)
Definition Resize (this : obj) (new_size : nat) : M unit :=
  size ← load (size_of this);
  (if bool_decide (size > new_size) then
     first ← GetAddress (data_of this);
     destroy_n (first +ₚ new_size) (size - new_size)
   else if bool_decide (size < new_size) then
     Reserve this new_size;;
     first ← GetAddress (data_of this);
     uninitialized_value_construct_n (first +ₚ size) (new_size - size)
   else mret tt);;
  store (size_of this) new_size.

(** [template <typename... Args> T& EmplaceBack(Args&&... args)]:
    the address of the new element *)
Definition EmplaceBack (this : obj) (args : Args) : M pointer :=
  size ← load (size_of this);
  capacity ← Capacity this;
  (if bool_decide (size = capacity) then
     local_RawMemory (if bool_decide (size = 0) then 1 else size * 2) (λ new_data,
       p ← RawMemory_plus new_data size;
       placement_new p args;;
       from ← GetAddress (data_of this);
       to ← GetAddress new_data;
       (if is_nothrow_move_constructible || negb is_copy_constructible
        then uninitialized_move_n from size to
        else uninitialized_copy_n from size to);;
       destroy_n from size;;
       RawMemory_Swap (data_of this) new_data)
   else
     p ← RawMemory_plus (data_of this) size;
     placement_new p args);;
  increment (size_of this);;
  size ← load (size_of this);
  last ← minus size 1;
  RawMemory_index (data_of this) last.

(** [template <typename Type> void PushBack(Type&& value)] *)
Definition PushBack (this : obj) (value : Args) : M unit :=
  EmplaceBack this value;; mret tt.

(** [void PopBack()] *)
Definition PopBack (this : obj) : M unit :=
  size ← load (size_of this);
  p ← RawMemory_plus (data_of this) size;
  last ← ptr_sub p 1;
  destroy_n last 1;;
  decrement (size_of this).

(** [template <typename... Args> iterator Emplace(const_iterator pos, Args&&... args)] *)
Definition Emplace (this : obj) (pos : pointer) (args : Args) : M pointer :=
  end_ ← Vector_end this;
  size ← load (size_of this);
  capacity ← RawMemory_Capacity (data_of this);
  if bool_decide (pos = end_) then
    EmplaceBack this args
  else if bool_decide (size = capacity) then
    local_RawMemory (if bool_decide (size = 0) then 1 else size * 2) (λ new_data,
      begin_ ← Vector_begin this;
      dis_pos ← ptr_diff pos begin_;
      p ← RawMemory_plus new_data dis_pos;
      placement_new p args;;
      from ← GetAddress (data_of this);
      to ← GetAddress new_data;
      (if is_nothrow_move_constructible || negb is_copy_constructible
       then uninitialized_move_n from dis_pos to
       else try_catch (uninitialized_copy_n from dis_pos to)
                      (p ← RawMemory_plus new_data dis_pos; destroy_n p 1));;
      rest ← minus size dis_pos;
      (if is_nothrow_move_constructible || negb is_copy_constructible
       then uninitialized_move_n (from +ₚ dis_pos) rest (to +ₚ dis_pos +ₚ 1)
       else try_catch (uninitialized_copy_n (from +ₚ dis_pos) rest (to +ₚ dis_pos +ₚ 1))
                      (destroy_n to (dis_pos + 1)));;
      destroy_n from size;;
      RawMemory_Swap (data_of this) new_data;;
      begin_ ← Vector_begin this;
      let res_pos := begin_ +ₚ dis_pos in
      increment (size_of this);;
      mret res_pos)
  else
    local_T args (λ new_t,
      p ← RawMemory_plus (data_of this) size;
      last ← minus size 1;
      q ← RawMemory_index (data_of this) last;
      move_construct_at p q;;
      first ← Vector_begin this;
      begin_ ← Vector_begin this;
      dis_pos ← ptr_diff pos begin_;
      let res_pos := first +ₚ dis_pos in
      end_ ← Vector_end this;
      last ← ptr_sub end_ 1;
      d_last ← Vector_end this;
      std_move_backward res_pos last d_last;;
      move_assign_at res_pos new_t;;
      increment (size_of this);;
      mret res_pos).

(** [template <typename Type> iterator Insert(const_iterator pos, Type&& value)] *)
Definition Insert (this : obj) (pos : pointer) (value : Args) : M pointer :=
  Emplace this pos value.

(** [iterator Erase(const_iterator pos)] *)
Definition Erase (this : obj) (pos : pointer) : M pointer :=
  first ← Vector_begin this;
  begin_ ← Vector_begin this;
  dis_pos ← ptr_diff pos begin_;
  let res_pos := first +ₚ dis_pos in
  end_ ← Vector_end this;
  std_move (res_pos +ₚ 1) end_ res_pos;;
  end_ ← Vector_end this;
  last ← ptr_sub end_ 1;
  destroy_n last 1;;
  decrement (size_of this);;
  mret res_pos.
End VectorMethods.

(** ** What a sequence is, seen from outside *)

Section Representation.
Context {T W : Type}.

(** The slots of a block of capacity [c] whose sequence holds [xs]: the live
    elements in order, then raw slots only. *)
Definition block_of (xs : list T) (c : nat) : list (option T) :=
  (Some <$> xs) ++ replicate (c - length xs) None.

(** The sequence object [v] is well formed in [s] and holds the elements
    [xs]: [size_] counts them, does not exceed the capacity, and the owned
    block has exactly them live, in order, in its first slots. *)
Definition holds (s : State T W) (v : Vector) (xs : list T) : Prop :=
  size_ v = length xs ∧
  size_ v ≤ capacity_ (data_ v) ∧
  match buffer_ (data_ v) with
  | nullptr => capacity_ (data_ v) = 0
  | Ptr l off => off = 0 ∧ heap s !! l = Some (block_of xs (capacity_ (data_ v)))
  end.

(** The invariant of the sequence at address [this]. *)
Definition well_formed (s : State T W) (this : obj) : Prop :=
  ∃ v xs, vectors s !! this = Some v ∧ holds s v xs.

(** The empty state of the two classes. *)
Definition empty_storage (m : RawMemory) : Prop :=
  buffer_ m = nullptr ∧ capacity_ m = 0.
Definition empty_sequence (v : Vector) : Prop :=
  capacity_ (data_ v) = 0 ∧ size_ v = 0.
End Representation.

(** An element type whose copies and moves produce the value they are given:
    what a successful copy or move construction builds, and what a
    successful assignment leaves in its left operand, is the source value. *)
Class Faithful (T Args E W : Type) `{!Element T Args E W} : Prop := {
  copy_construct_value x w w' y :
    copy_construct x w = (w', inr y) → y = x;
  move_construct_value x w w' x' y :
    move_construct x w = (w', (x', inr y)) → y = x;
  copy_assign_value a b w w' a' :
    copy_assign a b w = (w', (a', None)) → a' = b;
  move_assign_value a b w w' a' b' :
    move_assign a b w = (w', (a', b', None)) → a' = b
}.

(** ** Two element types to run the code on *)

Inductive exception : Type :=
  | bad_alloc
  | construction_failed
  | copy_failed (x : Z).

(** [int]: nothing throws, nothing touches the outside world. *)
#[global] Instance int_element : Element Z Z exception unit := {|
  is_nothrow_move_constructible := true;
  is_copy_constructible := true;
  construct a w := (w, inr a);
  value_construct w := (w, inr 0%Z);
  copy_construct x w := (w, inr x);
  move_construct x w := (w, (x, inr x));
  copy_assign a b w := (w, (b, None));
  move_assign a b w := (w, (b, b, None));
  destroy x w := w;
  allocate n w := (w, None)
|}.

(** A class wrapping an [int] whose constructor from [int] throws on [0],
    whose copy constructor throws on negative values, and whose move
    constructor is not declared [noexcept].  The outside world is the log of
    the exceptions thrown so far, latest first. *)
#[global] Instance fragile_element : Element Z Z exception (list exception) := {|
  is_nothrow_move_constructible := false;
  is_copy_constructible := true;
  construct a w :=
    if (a =? 0)%Z then (construction_failed :: w, inl construction_failed)
    else (w, inr a);
  value_construct w := (w, inr 0%Z);
  copy_construct x w :=
    if (x <? 0)%Z then (copy_failed x :: w, inl (copy_failed x))
    else (w, inr x);
  move_construct x w := (w, (x, inr x));
  copy_assign a b w := (w, (b, None));
  move_assign a b w := (w, (b, b, None));
  destroy x w := w;
  allocate n w := (w, None)
|}.

Section SpecDefs.
Context {T Args E W : Type} `{!Element T Args E W}.
#[local] Abbreviation M := (M T E W).

(** Copy assignment as the specification words it, to be compared with
    [Vector_copy_assign]: three cases chosen by comparing [rhs.size] with the
    capacity and the size of the target. *)
Definition copy_assign_by_cases (this rhs : obj) : M unit :=
  rhs_size ← load (size_of rhs);
  capacity ← RawMemory_Capacity (data_of this);
  if bool_decide (rhs_size > capacity) then
    (* 1: a full temporary copy of [rhs], exchanged with the target *)
    local_Vector (Vector_copy_ctor rhs) (λ temporary, Vector_Swap this temporary)
  else
    size ← load (size_of this);
    from ← GetAddress (data_of rhs);
    to ← GetAddress (data_of this);
    (if bool_decide (rhs_size ≤ size) then
       (* 2: overwrite the first [rhs.size] positions, destroy the excess *)
       CopyN from to rhs_size;;
       destroy_n (to +ₚ rhs_size) (size - rhs_size)
     else
       (* 3: overwrite the first [size] positions, construct the remainder *)
       CopyN from to size;;
       uninitialized_copy_n (from +ₚ size) (rhs_size - size) (to +ₚ size));;
    store (size_of this) rhs_size.
End SpecDefs.

(** ** Assertions on states and computations *)

Section Assertions.
Context {T Args E W : Type} `{!Element T Args E W}.

#[local] Abbreviation State := (State T W).
#[local] Abbreviation M := (M T E W).

(** [wp m Q X s]: run from [s], the computation [m] has no undefined
    behaviour; if it ends normally with [a] in [s'] then [Q a s'], and if it
    throws [e] in [s'] then [X e s']. *)
Definition wp {A} (m : M A) (Q : A → State → Prop) (X : E → State → Prop)
    (s : State) : Prop :=
  match m s with
  | (s', Normal a) => Q a s'
  | (s', Throw e) => X e s'
  | (_, Undefined) => False
  end.

(** What one successful element operation relates. *)
Definition copied (x y : T) : Prop :=
  ∃ w w', copy_construct x w = (w', inr y).
Definition moved (x y : T) : Prop :=
  ∃ w w' x', move_construct x w = (w', (x', inr y)).
Definition copy_assigned (x y : T) : Prop :=
  ∃ a w w', copy_assign a x w = (w', (y, None)).
Definition move_assigned (x y : T) : Prop :=
  ∃ a w w' x', move_assign a x w = (w', (y, x', None)).

(** [x] is a value that [T(args...)] can construct. *)
Definition constructed (args : Args) (x : T) : Prop :=
  ∃ w w', construct args w = (w', inr x).

(** The heap once the block at [buf], if there is one, is given back. *)
Definition released (buf : pointer) (h : gmap loc (list (option T))) : gmap loc (list (option T)) :=
  match buf with
  | nullptr => h
  | Ptr l _ => delete l h
  end.

(** Two sequences own different blocks. *)
Definition separate (va vb : Vector) : Prop :=
  ∀ l off l' off',
    buffer_ (data_ va) = Ptr l off → buffer_ (data_ vb) = Ptr l' off' → l ≠ l'.
End Assertions.

(** ** Callers and further assertions *)

Section Callers.
Context {T Args E W : Type} `{!Element T Args E W}.

#[local] Abbreviation M := (M T E W).

(** A caller's loop [for (auto& a : values) v.PushBack(a);]. *)
Fixpoint PushBack_each (this : obj) (values : list Args) : M unit :=
  match values with
  | [] => mret tt
  | a :: rest => PushBack this a;; PushBack_each this rest
  end.

(** What appends from an empty sequence keep true of a size and a capacity:
    both are zero, or the capacity is a power of two that is less than twice
    the size. *)
Definition doubled (n c : nat) : Prop :=
  (n = 0 ∧ c = 0) ∨ ∃ k, c = 2 ^ k ∧ n ≤ c ∧ c < 2 * n.


(** Copying [x] does not throw, whatever the state of the outside world. *)
Definition copyable (x : T) : Prop :=
  ∀ w w' e, copy_construct x w ≠ (w', inl e).

(** [T(args...)] throws whatever the state of the outside world. *)
Definition never_constructs (args : Args) : Prop :=
  ∀ w, ∃ w' e, construct args w = (w', inl e).

End Callers.

(** ** Concrete states *)

(** Two storages, owning a block of two and a block of four slots. *)
Definition two_storages : State Z unit :=
  mkState {[ 2%positive := [None; None]; 5%positive := [None; None; None; None] ]}
          {[ 1%positive := mkRawMemory (Ptr 2 0) 2; 2%positive := mkRawMemory (Ptr 5 0) 4 ]}
          ∅ tt.

(** [A = [1,2]] of capacity 2 at address 1, [B = [9,9,9]] of capacity 4 at
    address 2. *)
Definition two_sequences : State Z unit :=
  mkState {[ 2%positive := [Some 1; Some 2];
             5%positive := [Some 9; Some 9; Some 9; None] ]}%Z
          ∅
          {[ 1%positive := mkVector (mkRawMemory (Ptr 2 0) 2) 2;
             2%positive := mkVector (mkRawMemory (Ptr 5 0) 4) 3 ]}
          tt.

(** [[1,2,3,4,5]] of capacity 8 at address 1, as five appends leave it. *)
Definition one_to_five : State Z unit :=
  mkState {[ 4%positive := [Some 1; Some 2; Some 3; Some 4; Some 5; None; None; None] ]}%Z
          ∅ {[ 1%positive := mkVector (mkRawMemory (Ptr 4 0) 8) 5 ]} tt.

(** The same after [99] was inserted at position 2. *)
Definition with_99 : State Z unit :=
  mkState {[ 4%positive := [Some 1; Some 2; Some 99; Some 3; Some 4; Some 5; None; None] ]}%Z
          ∅ {[ 1%positive := mkVector (mkRawMemory (Ptr 4 0) 8) 6 ]} tt.

(** An empty sequence of fragile elements at address 1, and the full
    sequence [[1,-2]] that two appends make of it. *)
Definition fragile_empty : State Z (list exception) :=
  mkState ∅ ∅ {[ 1%positive := Vector_default ]} [].
Definition fragile_full : State Z (list exception) :=
  mkState {[ 2%positive := [Some 1; Some (-2)] ]}%Z
          ∅ {[ 1%positive := mkVector (mkRawMemory (Ptr 2 0) 2) 2 ]} [].

Definition exchange_state : State Z unit :=
  mkState {[ 2%positive := [Some 1; Some 2];
             5%positive := [Some 9; Some 9; Some 9; None];
             7%positive := [None; None];
             8%positive := [None; None; None; None] ]}%Z
          {[ 1%positive := mkRawMemory (Ptr 7 0) 2;
             2%positive := mkRawMemory nullptr 0;
             3%positive := mkRawMemory (Ptr 8 0) 4 ]}
          {[ 1%positive := mkVector (mkRawMemory (Ptr 2 0) 2) 2;
             2%positive := mkVector (mkRawMemory (Ptr 5 0) 4) 3;
             3%positive := Vector_default ]}
          tt.

(** [two_sequences] after [3] was appended to [A]. *)
Definition three_appended : State Z unit :=
  mkState {[ 6%positive := [Some 1; Some 2; Some 3; None];
             5%positive := [Some 9; Some 9; Some 9; None] ]}%Z
          ∅
          {[ 1%positive := mkVector (mkRawMemory (Ptr 6 0) 4) 3;
             2%positive := mkVector (mkRawMemory (Ptr 5 0) 4) 3 ]}
          tt.

(** [two_sequences] after [A = B]. *)
Definition copied_into : State Z unit :=
  mkState {[ 6%positive := [Some 9; Some 9; Some 9];
             5%positive := [Some 9; Some 9; Some 9; None] ]}%Z
          ∅
          {[ 1%positive := mkVector (mkRawMemory (Ptr 6 0) 3) 3;
             2%positive := mkVector (mkRawMemory (Ptr 5 0) 4) 3 ]}
          tt.


(** [fragile_full] after [99] was inserted at position 1. *)
Definition fragile_broken : State Z (list exception) :=
  mkState {[ 3%positive := [None; None; None; None] ]}
          ∅ {[ 1%positive := mkVector (mkRawMemory (Ptr 3 0) 4) 3 ]}
          [copy_failed (-2)].

(** The full sequence [[1,2]] of fragile elements at address 1, whose
    copies do not throw. *)
Definition fragile_fine : State Z (list exception) :=
  mkState {[ 2%positive := [Some 1; Some 2] ]}%Z
          ∅ {[ 1%positive := mkVector (mkRawMemory (Ptr 2 0) 2) 2 ]} [].

(** The full sequence [[1,-2]] of fragile elements at address 1 and an empty
    one at address 2. *)
Definition fragile_pair : State Z (list exception) :=
  mkState {[ 2%positive := [Some 1; Some (-2)] ]}%Z
          ∅
          {[ 1%positive := mkVector (mkRawMemory (Ptr 2 0) 2) 2;
             2%positive := Vector_default ]}
          [].

(** ** Tactics *)

(** Equality of two maps built by insertions and deletions, and transport of
    a property to a state whose components are equal. *)
Ltac map_solve :=
  apply map_eq; intros ?;
  repeat (rewrite lookup_insert || rewrite lookup_delete);
  repeat case_decide; simplify_eq; try done.

Ltac same_state H :=
  eapply eq_ind; [apply H|]; f_equal; try done.

Ltac concrete :=
  unfold holds; cbn [buffer_ data_ capacity_ size_];
  repeat match goal with
         | |- _ ∧ _ => split
         | |- _ ≤ _ => cbn; lia
         | |- _ < _ => cbn; lia
         | |- _ = _ => vm_compute; reflexivity
         end.

(** * Properties *)

(** ** Reasoning about computations *)

Section Reasoning.
Context {T Args E W : Type} `{!Element T Args E W}.

#[local] Abbreviation State := (State T W).
#[local] Abbreviation M := (M T E W).
#[local] Abbreviation ref := (ref T W).

Implicit Types (h : gmap loc (list (option T))) (r : gmap obj RawMemory).
Implicit Types (v : gmap obj Vector) (w : W) (s : State) (b : list (option T)).
Implicit Types (X : E → State → Prop).


Lemma wp_run {A} (m : M A) Q X s :
  wp m Q X s ↔
  ∃ s' o, m s = (s', o) ∧
    match o with Normal a => Q a s' | Throw e => X e s' | Undefined => False end.
Proof.
  unfold wp. split.
  - destruct (m s) as [s' o]. eauto.
  - intros (s' & o & -> & Ho). done.
Qed.

Lemma wp_ret {A} (a : A) Q X s : Q a s → wp (mret a) Q X s.
Proof. done. Qed.

Lemma wp_bind {A B} (m : M A) (f : A → M B) Q X s :
  wp m (λ a, wp (f a) Q X) X s → wp (m ≫= f) Q X s.
Proof.
  unfold wp, mbind, M_bind, bind. by destruct (m s) as [s' [a|e|]].
Qed.

Lemma wp_mono {A} (m : M A) (Q Q' : A → State → Prop) (X X' : E → State → Prop) s :
  wp m Q X s →
  (∀ a s', Q a s' → Q' a s') →
  (∀ e s', X e s' → X' e s') →
  wp m Q' X' s.
Proof.
  unfold wp. destruct (m s) as [s' [a|e|]]; eauto.
Qed.

Lemma wp_undefined_absurd {A} Q X s : ¬ wp (undefined : M A) Q X s.
Proof. unfold wp, undefined. tauto. Qed.

Lemma wp_throw {A} e Q X s : X e s → wp (throw e : M A) Q X s.
Proof. done. Qed.

Lemma wp_assert (c : bool) Q X s : c = true → Q tt s → wp (assert c) Q X s.
Proof. by intros ->. Qed.

Lemma wp_on_exception {A} (m : M A) handler Q X s :
  wp m Q (λ e, wp handler (λ _, X e) X) s → wp (on_exception m handler) Q X s.
Proof.
  unfold wp, on_exception. destruct (m s) as [s' [a|e|]]; [done| |done].
  by destruct (handler s') as [s'' [[]|e'|]].
Qed.

Lemma wp_try_catch (m handler : M unit) Q X s :
  wp m Q (λ _, wp handler Q X) s → wp (try_catch m handler) Q X s.
Proof.
  unfold wp, try_catch. by destruct (m s) as [s' [a|e|]].
Qed.

Lemma wp_finally {A} (m : M A) cleanup Q X s :
  wp m (λ a, wp cleanup (λ _, Q a) X) (λ e, wp cleanup (λ _, X e) X) s →
  wp (finally m cleanup) Q X s.
Proof.
  unfold wp, finally. destruct (m s) as [s' [a|e|]]; [| |done].
  - by destruct (cleanup s') as [s'' [[]|e'|]].
  - by destruct (cleanup s') as [s'' [[]|e'|]].
Qed.

Lemma wp_effect {A} (f : W → W * A) Q X h r v w :
  (∀ w' a, f w = (w', a) → Q a (mkState h r v w')) →
  wp (effect f) Q X (mkState h r v w).
Proof.
  intros HQ. unfold wp, effect. cbn. destruct (f w) as [w' a] eqn:Hf. by apply HQ.
Qed.

Lemma wp_value_or_raise {A} (x : E + A) Q X s :
  match x with inl e => X e s | inr a => Q a s end →
  wp (value_or_raise x) Q X s.
Proof. by destruct x. Qed.

Lemma wp_raise_if (x : option E) Q X s :
  match x with Some e => X e s | None => Q tt s end →
  wp (raise_if x) Q X s.
Proof. by destruct x. Qed.

Lemma wp_load {Y} (p : ref Y) x Q X s :
  deref p s = Some x → Q x s → wp (load p) Q X s.
Proof. intros Hp HQ. unfold wp, load. by rewrite Hp. Qed.

Lemma wp_store {Y} (p : ref Y) x0 x Q X s :
  deref p s = Some x0 → Q tt (assign p x s) → wp (store p x) Q X s.
Proof. intros Hp HQ. unfold wp, store. by rewrite Hp. Qed.

Lemma wp_minus a c Q X s : c ≤ a → Q (a - c) s → wp (minus a c) Q X s.
Proof. intros Hle HQ. unfold minus. by rewrite bool_decide_true. Qed.

(** *** Slots of a block *)

Lemma alter_lookup_insert (f : list (option T) → list (option T)) h l b :
  h !! l = Some b → alter f l h = <[l := f b]> h.
Proof.
  intros Hl. apply map_eq. intros l'. destruct (decide (l = l')) as [<-|].
  - by rewrite lookup_alter_eq, lookup_insert_eq, Hl.
  - by rewrite lookup_alter_ne, lookup_insert_ne.
Qed.

Lemma wp_read l i x Q X h r v w b :
  h !! l = Some b → b !! i = Some (Some x) →
  Q x (mkState h r v w) →
  wp (read (Ptr l i)) Q X (mkState h r v w).
Proof.
  intros Hl Hi HQ. unfold wp, read, slot. cbn. rewrite Hl. cbn. by rewrite Hi.
Qed.

Lemma wp_write l i x y Q X h r v w b :
  h !! l = Some b → b !! i = Some (Some x) →
  Q tt (mkState (<[l := <[i := Some y]> b]> h) r v w) →
  wp (write (Ptr l i) y) Q X (mkState h r v w).
Proof.
  intros Hl Hi HQ. unfold wp, write, slot, set_slot, set_heap. cbn.
  rewrite Hl. cbn. rewrite Hi. by rewrite (alter_lookup_insert _ _ _ _ Hl).
Qed.

Lemma wp_begin_lifetime l i o y Q X h r v w b :
  h !! l = Some b → b !! i = Some o →
  Q tt (mkState (<[l := <[i := Some y]> b]> h) r v w) →
  wp (begin_lifetime (Ptr l i) y) Q X (mkState h r v w).
Proof.
  intros Hl Hi HQ. unfold wp, begin_lifetime, slot, set_slot, set_heap. cbn.
  rewrite Hl. cbn. rewrite Hi. by rewrite (alter_lookup_insert _ _ _ _ Hl).
Qed.

Lemma wp_destroy_at l i x Q X h r v w b :
  h !! l = Some b → b !! i = Some (Some x) →
  Q tt (mkState (<[l := <[i := None]> b]> h) r v (destroy x w)) →
  wp (destroy_at (Ptr l i)) Q X (mkState h r v w).
Proof.
  intros Hl Hi HQ. unfold wp, destroy_at, slot, set_slot, set_heap, set_world. cbn.
  rewrite Hl. cbn. rewrite Hi. by rewrite (alter_lookup_insert _ _ _ _ Hl).
Qed.
End Reasoning.

Section ElementRules.
Context {T Args E W : Type} `{!Element T Args E W}.

#[local] Abbreviation State := (State T W).
#[local] Abbreviation M := (M T E W).

Implicit Types (h : gmap loc (list (option T))) (r : gmap obj RawMemory).
Implicit Types (v : gmap obj Vector) (w : W) (s : State) (b : list (option T)).
Implicit Types (X : E → State → Prop).

Lemma wp_placement_new l i o args Q X h r v w b :
  h !! l = Some b → b !! i = Some o →
  (∀ w' e, construct args w = (w', inl e) → X e (mkState h r v w')) →
  (∀ w' x, construct args w = (w', inr x) →
     Q tt (mkState (<[l := <[i := Some x]> b]> h) r v w')) →
  wp (placement_new (Ptr l i) args) Q X (mkState h r v w).
Proof.
  intros Hl Hi HX HQ. unfold placement_new.
  do 2 apply wp_bind. apply wp_effect. intros w' [e|x] Hc.
  - apply wp_value_or_raise. eauto.
  - apply wp_value_or_raise. eapply wp_begin_lifetime; eauto.
Qed.


Lemma wp_copy_construct_at ld i o ls j x Q X h r v w bd bs :
  h !! ls = Some bs → bs !! j = Some (Some x) →
  h !! ld = Some bd → bd !! i = Some o →
  (∀ w' e, copy_construct x w = (w', inl e) → X e (mkState h r v w')) →
  (∀ w' y, copy_construct x w = (w', inr y) →
     Q tt (mkState (<[ld := <[i := Some y]> bd]> h) r v w')) →
  wp (copy_construct_at (Ptr ld i) (Ptr ls j)) Q X (mkState h r v w).
Proof.
  intros Hls Hj Hld Hi HX HQ. unfold copy_construct_at.
  apply wp_bind. eapply wp_read; [done..|].
  do 2 apply wp_bind. apply wp_effect. intros w' [e|y] Hc.
  - apply wp_value_or_raise. eauto.
  - apply wp_value_or_raise. eapply wp_begin_lifetime; eauto.
Qed.

(** Move construction between two blocks. *)
Lemma wp_move_construct_at ld i o ls j x Q X h r v w bd bs :
  ls ≠ ld →
  h !! ls = Some bs → bs !! j = Some (Some x) →
  h !! ld = Some bd → bd !! i = Some o →
  (∀ w' x' e, move_construct x w = (w', (x', inl e)) →
     X e (mkState (<[ls := <[j := Some x']> bs]> h) r v w')) →
  (∀ w' x' y, move_construct x w = (w', (x', inr y)) →
     Q tt (mkState (<[ld := <[i := Some y]> bd]> (<[ls := <[j := Some x']> bs]> h)) r v w')) →
  wp (move_construct_at (Ptr ld i) (Ptr ls j)) Q X (mkState h r v w).
Proof.
  intros Hne Hls Hj Hld Hi HX HQ. unfold move_construct_at.
  apply wp_bind. eapply wp_read; [done..|].
  apply wp_bind. apply wp_effect. intros w' [x' [e|y]] Hc.
  - apply wp_bind. eapply wp_write; [done..|].
    apply wp_bind. apply wp_value_or_raise. eauto.
  - apply wp_bind. eapply wp_write; [done..|].
    apply wp_bind. apply wp_value_or_raise.
    eapply wp_begin_lifetime; [by rewrite lookup_insert_ne|done|]. eauto.
Qed.

(** Move construction inside one block. *)
Lemma wp_move_construct_within l i o j x Q X h r v w b :
  i ≠ j →
  h !! l = Some b → b !! j = Some (Some x) → b !! i = Some o →
  (∀ w' x' e, move_construct x w = (w', (x', inl e)) →
     X e (mkState (<[l := <[j := Some x']> b]> h) r v w')) →
  (∀ w' x' y, move_construct x w = (w', (x', inr y)) →
     Q tt (mkState (<[l := <[i := Some y]> (<[j := Some x']> b)]> h) r v w')) →
  wp (move_construct_at (Ptr l i) (Ptr l j)) Q X (mkState h r v w).
Proof.
  intros Hne Hl Hj Hi HX HQ. unfold move_construct_at.
  apply wp_bind. eapply wp_read; [done..|].
  apply wp_bind. apply wp_effect. intros w' [x' [e|y]] Hc.
  - apply wp_bind. eapply wp_write; [done..|].
    apply wp_bind. apply wp_value_or_raise. eauto.
  - apply wp_bind. eapply wp_write; [done..|].
    apply wp_bind. apply wp_value_or_raise.
    eapply wp_begin_lifetime; [by rewrite lookup_insert_eq| |].
    + rewrite list_lookup_insert_ne by done. done.
    + rewrite insert_insert_eq. eauto.
Qed.

(** Copy assignment between two blocks. *)
Lemma wp_copy_assign_at ld i a ls j x Q X h r v w bd bs :
  h !! ls = Some bs → bs !! j = Some (Some x) →
  h !! ld = Some bd → bd !! i = Some (Some a) →
  (∀ w' a' e, copy_assign a x w = (w', (a', Some e)) →
     X e (mkState (<[ld := <[i := Some a']> bd]> h) r v w')) →
  (∀ w' a', copy_assign a x w = (w', (a', None)) →
     Q tt (mkState (<[ld := <[i := Some a']> bd]> h) r v w')) →
  wp (copy_assign_at (Ptr ld i) (Ptr ls j)) Q X (mkState h r v w).
Proof.
  intros Hls Hj Hld Hi HX HQ. unfold copy_assign_at.
  apply wp_bind. eapply wp_read; [done..|].
  apply wp_bind. eapply wp_read; [done..|].
  apply wp_bind. apply wp_effect. intros w' [a' [e|]] Hc.
  - apply wp_bind. eapply wp_write; [done..|]. apply wp_raise_if. eauto.
  - apply wp_bind. eapply wp_write; [done..|]. apply wp_raise_if. eauto.
Qed.

(** Move assignment between two blocks. *)
Lemma wp_move_assign_at ld i a ls j x Q X h r v w bd bs :
  ls ≠ ld →
  h !! ls = Some bs → bs !! j = Some (Some x) →
  h !! ld = Some bd → bd !! i = Some (Some a) →
  (∀ w' a' x' e, move_assign a x w = (w', (a', x', Some e)) →
     X e (mkState (<[ld := <[i := Some a']> bd]> (<[ls := <[j := Some x']> bs]> h)) r v w')) →
  (∀ w' a' x', move_assign a x w = (w', (a', x', None)) →
     Q tt (mkState (<[ld := <[i := Some a']> bd]> (<[ls := <[j := Some x']> bs]> h)) r v w')) →
  wp (move_assign_at (Ptr ld i) (Ptr ls j)) Q X (mkState h r v w).
Proof.
  intros Hne Hls Hj Hld Hi HX HQ. unfold move_assign_at.
  apply wp_bind. eapply wp_read; [done..|].
  apply wp_bind. eapply wp_read; [done..|].
  apply wp_bind. apply wp_effect. intros w' [[a' x'] [e|]] Hc.
  - apply wp_bind. eapply wp_write; [done..|].
    apply wp_bind. eapply wp_write; [by rewrite lookup_insert_ne|done|].
    apply wp_raise_if. eauto.
  - apply wp_bind. eapply wp_write; [done..|].
    apply wp_bind. eapply wp_write; [by rewrite lookup_insert_ne|done|].
    apply wp_raise_if. eauto.
Qed.

(** Move assignment inside one block. *)
Lemma wp_move_assign_within l i a j x Q X h r v w b :
  i ≠ j →
  h !! l = Some b → b !! j = Some (Some x) → b !! i = Some (Some a) →
  (∀ w' a' x' e, move_assign a x w = (w', (a', x', Some e)) →
     X e (mkState (<[l := <[i := Some a']> (<[j := Some x']> b)]> h) r v w')) →
  (∀ w' a' x', move_assign a x w = (w', (a', x', None)) →
     Q tt (mkState (<[l := <[i := Some a']> (<[j := Some x']> b)]> h) r v w')) →
  wp (move_assign_at (Ptr l i) (Ptr l j)) Q X (mkState h r v w).
Proof.
  intros Hne Hl Hj Hi HX HQ. unfold move_assign_at.
  apply wp_bind. eapply wp_read; [done..|].
  apply wp_bind. eapply wp_read; [done..|].
  apply wp_bind. apply wp_effect. intros w' [[a' x'] [e|]] Hc.
  - apply wp_bind. eapply wp_write; [done..|].
    apply wp_bind. eapply wp_write; [by rewrite lookup_insert_eq| |].
    { by rewrite list_lookup_insert_ne. }
    rewrite insert_insert_eq. apply wp_raise_if. eauto.
  - apply wp_bind. eapply wp_write; [done..|].
    apply wp_bind. eapply wp_write; [by rewrite lookup_insert_eq| |].
    { by rewrite list_lookup_insert_ne. }
    rewrite insert_insert_eq. apply wp_raise_if. eauto.
Qed.
End ElementRules.

(** ** The loops *)

Section Loops.
Context {T Args E W : Type} `{!Element T Args E W}.

#[local] Abbreviation State := (State T W).
#[local] Abbreviation M := (M T E W).

Implicit Types (h : gmap loc (list (option T))) (r : gmap obj RawMemory).
Implicit Types (v : gmap obj Vector) (w : W) (s : State) (b : list (option T)).
Implicit Types (X : E → State → Prop).
Implicit Types (xs ys zs : list T) (pre post : list (option T)).


Lemma seg_lookup {A} (l1 l2 : list A) x k :
  k = length l1 → (l1 ++ x :: l2) !! k = Some x.
Proof. intros ->. by apply list_lookup_middle. Qed.

Lemma seg_insert {A} (l1 l2 : list A) x y k :
  k = length l1 → <[k := y]> (l1 ++ x :: l2) = l1 ++ y :: l2.
Proof. intros ->. by rewrite insert_app_r_alt, Nat.sub_diag. Qed.

Lemma seg_lookup_next {A} (l1 l2 : list A) a x k :
  k = S (length l1) → (l1 ++ a :: x :: l2) !! k = Some x.
Proof.
  intros ->. rewrite (cons_middle a), app_assoc. apply seg_lookup.
  rewrite length_app. cbn. lia.
Qed.

Lemma seg_insert_next {A} (l1 l2 : list A) a x y k :
  k = S (length l1) → <[k := y]> (l1 ++ a :: x :: l2) = l1 ++ a :: y :: l2.
Proof.
  intros ->. rewrite (cons_middle a), app_assoc, seg_insert
    by (rewrite length_app; cbn; lia).
  by rewrite <- app_assoc.
Qed.

Lemma insert_insert_2 h (l1 l2 : loc) (b1 b1' b2 b2' : list (option T)) :
  l1 ≠ l2 →
  <[l2 := b2']> (<[l1 := b1']> (<[l2 := b2]> (<[l1 := b1]> h))) =
  <[l2 := b2']> (<[l1 := b1']> h).
Proof.
  intros Hne. apply map_eq. intros l.
  destruct (decide (l2 = l)) as [->|]; [by rewrite !lookup_insert_eq|].
  rewrite !(lookup_insert_ne _ l2) by done.
  destruct (decide (l1 = l)) as [->|]; [by rewrite !lookup_insert_eq|].
  rewrite !lookup_insert_ne by done. done.
Qed.

Lemma wp_destroy_n l off n xs pre post Q X h r v w :
  h !! l = Some (pre ++ (Some <$> xs) ++ post) →
  off = length pre → n = length xs →
  (∀ w', Q tt (mkState (<[l := pre ++ replicate n None ++ post]> h) r v w')) →
  wp (destroy_n (Ptr l off) n) Q X (mkState h r v w).
Proof.
  revert off n pre h w.
  induction xs as [|x xs IH]; intros off n pre h w Hl -> -> HQ.
  - apply wp_ret. specialize (HQ w). by rewrite insert_id in HQ.
  - cbn [length destroy_n]. apply wp_bind.
    eapply wp_destroy_at; [exact Hl|by apply seg_lookup|].
    rewrite fmap_cons. cbn [app]. rewrite seg_insert by done.
    eapply (IH _ _ (pre ++ [None])).
    + rewrite lookup_insert_eq. by rewrite <- app_assoc.
    + rewrite length_app. cbn. lia.
    + done.
    + intros w'. rewrite insert_insert_eq, <- app_assoc. apply HQ.
Qed.

Lemma wp_uninitialized_copy_from ls so ld do i n xs done spre spost dpre dpost
    Q X h r v w :
  ls ≠ ld →
  h !! ls = Some (spre ++ (Some <$> xs) ++ spost) → length spre = so + i →
  h !! ld = Some (dpre ++ (Some <$> done) ++ replicate n None ++ dpost) →
  length dpre = do → length done = i → length xs = n →
  (∀ w' ys, Forall2 copied xs ys →
     Q tt (mkState (<[ld := dpre ++ (Some <$> done ++ ys) ++ dpost]> h) r v w')) →
  (∀ w' e,
     X e (mkState (<[ld := dpre ++ replicate (i + n) None ++ dpost]> h) r v w')) →
  wp (uninitialized_copy_from (Ptr ls so) (Ptr ld do) i n) Q X (mkState h r v w).
Proof.
  intros Hne. revert i n done spre h w.
  induction xs as [|x xs IH]; intros i n done spre h w Hs Hspre Hd Hdpre Hdone Hn HQ HX.
  - subst n. cbn [length uninitialized_copy_from]. apply wp_ret. cbn in Hd.
    specialize (HQ w [] ltac:(constructor)). rewrite app_nil_r in HQ.
    by rewrite insert_id in HQ.
  - cbn in Hn. subst n. cbn [uninitialized_copy_from]. apply wp_bind, wp_on_exception.
    cbn [ptr_add].
    eapply wp_copy_construct_at; [exact Hs|by apply seg_lookup|exact Hd| | |].
    + rewrite app_assoc. apply seg_lookup. rewrite length_app, length_fmap. lia.
    + intros w' e Hc.
      eapply wp_destroy_n; [exact Hd|done..|]. intros w''.
      specialize (HX w'' e). rewrite replicate_add, <- app_assoc in HX. apply HX.
    + intros w' y Hc. cbn [replicate app]. rewrite (app_assoc dpre), seg_insert
        by (rewrite length_app, length_fmap; lia).
      eapply (IH (S i) _ (done ++ [y]) (spre ++ [Some x])).
      * rewrite lookup_insert_ne by done. rewrite Hs. by rewrite <- app_assoc.
      * rewrite length_app. cbn. lia.
      * rewrite lookup_insert_eq. by rewrite fmap_app, <- !app_assoc.
      * done.
      * rewrite length_app. cbn. lia.
      * done.
      * intros w'' ys Hys. rewrite insert_insert_eq, <- app_assoc.
        apply HQ. constructor; [by eexists _, _|done].
      * intros w'' e. rewrite insert_insert_eq.
        replace (S i + length xs) with (i + S (length xs)) by lia. apply HX.
Qed.

Lemma wp_uninitialized_move_from ls so ld do i n xs done spre spost dpre dpost
    Q X h r v w :
  ls ≠ ld →
  h !! ls = Some (spre ++ (Some <$> xs) ++ spost) → length spre = so + i →
  h !! ld = Some (dpre ++ (Some <$> done) ++ replicate n None ++ dpost) →
  length dpre = do → length done = i → length xs = n →
  (∀ w' zs ys, length zs = n → Forall2 moved xs ys →
     Q tt (mkState (<[ld := dpre ++ (Some <$> done ++ ys) ++ dpost]>
                     (<[ls := spre ++ (Some <$> zs) ++ spost]> h)) r v w')) →
  (∀ w' zs e, length zs = n →
     X e (mkState (<[ld := dpre ++ replicate (i + n) None ++ dpost]>
                    (<[ls := spre ++ (Some <$> zs) ++ spost]> h)) r v w')) →
  wp (uninitialized_move_from (Ptr ls so) (Ptr ld do) i n) Q X (mkState h r v w).
Proof.
  intros Hne. revert i n done spre h w.
  induction xs as [|x xs IH]; intros i n done spre h w Hs Hspre Hd Hdpre Hdone Hn HQ HX.
  - subst n. cbn [length uninitialized_move_from]. apply wp_ret. cbn in Hd.
    specialize (HQ w [] [] eq_refl ltac:(constructor)). rewrite app_nil_r in HQ.
    cbn in Hs. by rewrite (insert_id h ls), (insert_id h ld) in HQ.
  - cbn in Hn. subst n. cbn [uninitialized_move_from]. apply wp_bind, wp_on_exception.
    cbn [ptr_add].
    eapply wp_move_construct_at; [exact Hne|exact Hs|by apply seg_lookup|exact Hd| | |].
    + rewrite app_assoc. apply seg_lookup. rewrite length_app, length_fmap. lia.
    + intros w' x' e Hc. rewrite fmap_cons. cbn [app]. rewrite seg_insert by done.
      eapply wp_destroy_n; [by rewrite lookup_insert_ne|done..|]. intros w''.
      specialize (HX w'' (x' :: xs) e eq_refl).
      rewrite replicate_add, <- app_assoc in HX. apply HX.
    + intros w' x' y Hc. rewrite fmap_cons. cbn [replicate app].
      rewrite (app_assoc dpre), !seg_insert
        by (rewrite ?length_app, ?length_fmap; lia).
      eapply (IH (S i) _ (done ++ [y]) (spre ++ [Some x'])).
      * rewrite lookup_insert_ne, lookup_insert_eq by done. by rewrite <- app_assoc.
      * rewrite length_app. cbn. lia.
      * rewrite lookup_insert_eq. by rewrite fmap_app, <- !app_assoc.
      * done.
      * rewrite length_app. cbn. lia.
      * done.
      * intros w'' zs ys Hzs Hys. rewrite insert_insert_2 by done.
        rewrite <- !app_assoc. cbn [app].
        apply (HQ w'' (x' :: zs) (y :: ys)); [cbn; by f_equal|].
        constructor; [by eexists _, _, _|done].
      * intros w'' zs e Hzs. rewrite insert_insert_2 by done.
        replace (S i + length xs) with (i + S (length xs)) by lia.
        rewrite <- !app_assoc.
        apply (HX w'' (x' :: zs) e). cbn. by f_equal.
Qed.

Lemma wp_CopyN_from ls so ld do i k xs ys0 spre spost dpre dpost Q X h r v w :
  ls ≠ ld →
  h !! ls = Some (spre ++ (Some <$> xs) ++ spost) → length spre = so + i →
  h !! ld = Some (dpre ++ (Some <$> ys0) ++ dpost) → length dpre = do + i →
  length xs = k → length ys0 = k →
  (∀ w' ys, Forall2 copy_assigned xs ys →
     Q tt (mkState (<[ld := dpre ++ (Some <$> ys) ++ dpost]> h) r v w')) →
  (∀ w' zs e, length zs = k →
     X e (mkState (<[ld := dpre ++ (Some <$> zs) ++ dpost]> h) r v w')) →
  wp (CopyN_from (Ptr ls so) (Ptr ld do) i k) Q X (mkState h r v w).
Proof.
  intros Hne. revert i k ys0 spre dpre h w.
  induction xs as [|x xs IH];
    intros i k ys0 spre dpre h w Hs Hspre Hd Hdpre Hk Hys0 HQ HX.
  - subst k. destruct ys0; [|done]. cbn [length CopyN_from]. apply wp_ret.
    specialize (HQ w [] ltac:(constructor)). by rewrite insert_id in HQ.
  - cbn in Hk. subst k. destruct ys0 as [|a ys0]; [done|].
    cbn [CopyN_from]. apply wp_bind. cbn [ptr_add].
    eapply wp_copy_assign_at;
      [exact Hs|by apply seg_lookup|exact Hd|by apply seg_lookup| |].
    + intros w' a' e Hc. rewrite fmap_cons. cbn [app]. rewrite seg_insert by done.
      apply (HX w' (a' :: ys0) e). cbn in *. lia.
    + intros w' a' Hc. rewrite fmap_cons. cbn [app]. rewrite seg_insert by done.
      eapply (IH (S i) _ ys0 (spre ++ [Some x]) (dpre ++ [Some a'])).
      * rewrite lookup_insert_ne by done. rewrite Hs. by rewrite <- app_assoc.
      * rewrite length_app. cbn. lia.
      * rewrite lookup_insert_eq. by rewrite <- app_assoc.
      * rewrite length_app. cbn. lia.
      * done.
      * cbn in Hys0. lia.
      * intros w'' ys Hys. rewrite insert_insert_eq, <- app_assoc.
        apply (HQ w'' (a' :: ys)). constructor; [by eexists _, _, _|done].
      * intros w'' zs e Hzs. rewrite insert_insert_eq, <- app_assoc.
        apply (HX w'' (a' :: zs) e). cbn. lia.
Qed.

(** The loop of [std::move]: every element of [xs] moves one slot down,
    onto the slot that held [a]. *)
Lemma wp_move_loop l off n a xs pre post Q X h r v w :
  h !! l = Some (pre ++ Some a :: (Some <$> xs) ++ post) →
  off = length pre → n = length xs →
  (∀ w' ys z, Forall2 move_assigned xs ys →
     Q tt (mkState (<[l := pre ++ (Some <$> ys) ++ Some z :: post]> h) r v w')) →
  (∀ w' zs e, length zs = S n →
     X e (mkState (<[l := pre ++ (Some <$> zs) ++ post]> h) r v w')) →
  wp (move_loop (Ptr l (S off)) (Ptr l off) n) Q X (mkState h r v w).
Proof.
  revert off n a pre h w.
  induction xs as [|x xs IH]; intros off n a pre h w Hl -> -> HQ HX.
  - cbn [length move_loop]. apply wp_ret.
    specialize (HQ w [] a ltac:(constructor)). by rewrite insert_id in HQ.
  - cbn [length move_loop]. apply wp_bind.
    eapply (wp_move_assign_within _ _ a _ x);
      [lia|exact Hl|by apply seg_lookup_next|by apply seg_lookup| |].
    + intros w' a' x' e Hc. rewrite fmap_cons. cbn [app].
      rewrite seg_insert_next, seg_insert by done.
      apply (HX w' (a' :: x' :: xs) e). cbn. lia.
    + intros w' a' x' Hc. rewrite fmap_cons. cbn [app].
      rewrite seg_insert_next, seg_insert by done.
      cbn [ptr_add].
      replace (S (length pre) + 1) with (S (length (pre ++ [Some a'])))
        by (rewrite length_app; cbn; lia).
      replace (length pre + 1) with (length (pre ++ [Some a']))
        by (rewrite length_app; cbn; lia).
      eapply (IH _ _ x' (pre ++ [Some a'])); [|done..| |].
      * rewrite lookup_insert_eq. by rewrite <- app_assoc.
      * intros w'' ys z Hys. rewrite insert_insert_eq, <- app_assoc.
        apply (HQ w'' (a' :: ys) z). constructor; [by eexists _, _, _, _|done].
      * intros w'' zs e Hzs. rewrite insert_insert_eq, <- app_assoc.
        apply (HX w'' (a' :: zs) e). cbn. lia.
Qed.

(** The loop of [std::move_backward]: every element of [xs] moves one slot
    up, the last one onto the slot that held [a]. *)
Lemma wp_move_backward_loop l off n a xs pre post Q X h r v w :
  h !! l = Some (pre ++ (Some <$> xs) ++ Some a :: post) →
  off = length pre + length xs → n = length xs →
  (∀ w' ys z, Forall2 move_assigned xs ys →
     Q tt (mkState (<[l := pre ++ Some z :: (Some <$> ys) ++ post]> h) r v w')) →
  (∀ w' zs e, length zs = S n →
     X e (mkState (<[l := pre ++ (Some <$> zs) ++ post]> h) r v w')) →
  wp (move_backward_loop (Ptr l off) (Ptr l (S off)) n) Q X (mkState h r v w).
Proof.
  revert off n a post h w.
  induction xs as [|x xs IH] using rev_ind; intros off n a post h w Hl -> -> HQ HX.
  - cbn [length move_backward_loop]. apply wp_ret.
    specialize (HQ w [] a ltac:(constructor)). by rewrite insert_id in HQ.
  - rewrite length_app. cbn [length]. rewrite Nat.add_1_r.
    cbn [move_backward_loop]. unfold ptr_sub.
    rewrite !bool_decide_true by lia.
    apply wp_bind, wp_ret, wp_bind, wp_ret, wp_bind.
    rewrite fmap_app, <- app_assoc in Hl. cbn [fmap list_fmap app] in Hl.
    replace (length pre + S (length xs) - 1) with (length pre + length xs) by lia.
    replace (S (length pre + S (length xs)) - 1) with (S (length pre + length xs)) by lia.
    eapply (wp_move_assign_within _ _ a _ x); [lia|exact Hl| | | |].
    + rewrite app_assoc. apply seg_lookup. rewrite length_app, length_fmap. lia.
    + rewrite app_assoc. apply seg_lookup_next. rewrite length_app, length_fmap. lia.
    + intros w' a' x' e Hc.
      rewrite (app_assoc pre), seg_insert by (rewrite length_app, length_fmap; lia).
      rewrite seg_insert_next by (rewrite length_app, length_fmap; lia).
      rewrite <- !app_assoc.
      specialize (HX w' (xs ++ [x'; a']) e).
      rewrite fmap_app, <- app_assoc in HX. apply HX.
      rewrite !length_app. cbn. lia.
    + intros w' a' x' Hc.
      rewrite (app_assoc pre), seg_insert by (rewrite length_app, length_fmap; lia).
      rewrite seg_insert_next by (rewrite length_app, length_fmap; lia).
      rewrite <- !app_assoc.
      eapply (IH _ _ x' (Some a' :: post)); [|done..| |].
      * by rewrite lookup_insert_eq.
      * intros w'' ys z Hys. rewrite insert_insert_eq.
        specialize (HQ w'' (ys ++ [a']) z).
        rewrite fmap_app, <- app_assoc in HQ. apply HQ.
        apply Forall2_app; [done|]. constructor; [by eexists _, _, _, _|done].
      * intros w'' zs e Hzs. rewrite insert_insert_eq.
        specialize (HX w'' (zs ++ [a']) e).
        rewrite fmap_app, <- app_assoc in HX. apply HX.
        rewrite !length_app. cbn. lia.
Qed.

(** With a faithful element type, what an operation produces is its source. *)
Lemma Forall2_copied `{!Faithful T Args E W} xs ys : Forall2 copied xs ys → ys = xs.
Proof.
  induction 1 as [|x y xs ys (w & w' & Hc) _ IH]; [done|].
  by rewrite (copy_construct_value _ _ _ _ Hc), IH.
Qed.

Lemma Forall2_moved `{!Faithful T Args E W} xs ys : Forall2 moved xs ys → ys = xs.
Proof.
  induction 1 as [|x y xs ys (w & w' & x' & Hc) _ IH]; [done|].
  by rewrite (move_construct_value _ _ _ _ _ Hc), IH.
Qed.

Lemma Forall2_copy_assigned `{!Faithful T Args E W} xs ys :
  Forall2 copy_assigned xs ys → ys = xs.
Proof.
  induction 1 as [|x y xs ys (a & w & w' & Hc) _ IH]; [done|].
  by rewrite (copy_assign_value _ _ _ _ _ Hc), IH.
Qed.

Lemma Forall2_move_assigned `{!Faithful T Args E W} xs ys :
  Forall2 move_assigned xs ys → ys = xs.
Proof.
  induction 1 as [|x y xs ys (a & w & w' & x' & Hc) _ IH]; [done|].
  by rewrite (move_assign_value _ _ _ _ _ _ Hc), IH.
Qed.
End Loops.

(** ** Members, locals and storage *)


Section Objects.
Context {T Args E W : Type} `{!Element T Args E W}.

#[local] Abbreviation State := (State T W).
#[local] Abbreviation M := (M T E W).
#[local] Abbreviation ref := (ref T W).

Implicit Types (h : gmap loc (list (option T))) (r : gmap obj RawMemory).
Implicit Types (v : gmap obj Vector) (w : W) (s : State) (b : list (option T)).
Implicit Types (m : RawMemory) (vec : Vector) (X : E → State → Prop).

Lemma deref_raw_at k m h r v w :
  r !! k = Some m → deref (raw_at k) (mkState h r v w : State) = Some m.
Proof. done. Qed.

Lemma deref_data_of this vec h r v w :
  v !! this = Some vec →
  deref (data_of this) (mkState h r v w : State) = Some (data_ vec).
Proof. intros Hv. cbn. by rewrite Hv. Qed.

Lemma deref_size_of this vec h r v w :
  v !! this = Some vec →
  deref (size_of this) (mkState h r v w : State) = Some (size_ vec).
Proof. intros Hv. cbn. by rewrite Hv. Qed.

Lemma deref_buffer_of (p : ref RawMemory) m s :
  deref p s = Some m → deref (buffer_of p) s = Some (buffer_ m).
Proof. intros Hp. cbn. by rewrite Hp. Qed.

Lemma deref_capacity_of (p : ref RawMemory) m s :
  deref p s = Some m → deref (capacity_of p) s = Some (capacity_ m).
Proof. intros Hp. cbn. by rewrite Hp. Qed.

Lemma wp_load_size this vec Q X h r v w :
  v !! this = Some vec →
  Q (size_ vec) (mkState h r v w) →
  wp (load (size_of this)) Q X (mkState h r v w).
Proof. intros Hv. apply wp_load. by apply deref_size_of. Qed.

Lemma wp_store_size this vec n Q X h r v w :
  v !! this = Some vec →
  Q tt (mkState h r (<[this := mkVector (data_ vec) n]> v) w) →
  wp (store (size_of this) n) Q X (mkState h r v w).
Proof.
  intros Hv HQ. eapply wp_store; [by apply deref_size_of|].
  cbn. by rewrite Hv.
Qed.

Lemma wp_increment_size this vec Q X h r v w :
  v !! this = Some vec →
  Q tt (mkState h r (<[this := mkVector (data_ vec) (size_ vec + 1)]> v) w) →
  wp (increment (size_of this)) Q X (mkState h r v w).
Proof.
  intros Hv HQ. unfold increment. apply wp_bind.
  eapply wp_load_size; [done|]. by eapply wp_store_size.
Qed.

Lemma wp_decrement_size this vec Q X h r v w :
  v !! this = Some vec → 1 ≤ size_ vec →
  Q tt (mkState h r (<[this := mkVector (data_ vec) (size_ vec - 1)]> v) w) →
  wp (decrement (size_of this)) Q X (mkState h r v w).
Proof.
  intros Hv Hsz HQ. unfold decrement. apply wp_bind.
  eapply wp_load_size; [done|]. apply wp_bind, wp_minus; [done|].
  by eapply wp_store_size.
Qed.

Lemma wp_GetAddress (p : ref RawMemory) m Q X s :
  deref p s = Some m → Q (buffer_ m) s → wp (GetAddress p) Q X s.
Proof. intros Hp. apply wp_load. by apply deref_buffer_of. Qed.

Lemma wp_RawMemory_Capacity (p : ref RawMemory) m Q X s :
  deref p s = Some m → Q (capacity_ m) s → wp (RawMemory_Capacity p) Q X s.
Proof. intros Hp. apply wp_load. by apply deref_capacity_of. Qed.

Lemma wp_RawMemory_plus (p : ref RawMemory) m offset Q X s :
  deref p s = Some m → offset ≤ capacity_ m →
  Q (buffer_ m +ₚ offset) s →
  wp (RawMemory_plus p offset) Q X s.
Proof.
  intros Hp Hle HQ. unfold RawMemory_plus. apply wp_bind.
  eapply wp_load; [done|]. apply wp_bind, wp_assert; [by apply bool_decide_eq_true|].
  by apply wp_ret.
Qed.

Lemma wp_RawMemory_index (p : ref RawMemory) m index Q X s :
  deref p s = Some m → index < capacity_ m →
  Q (buffer_ m +ₚ index) s →
  wp (RawMemory_index p index) Q X s.
Proof.
  intros Hp Hle HQ. unfold RawMemory_index. apply wp_bind.
  eapply wp_load; [done|]. apply wp_bind, wp_assert; [by apply bool_decide_eq_true|].
  by apply wp_ret.
Qed.

(** [data_.Swap(new_data)] between the member of a sequence and a local. *)
Lemma wp_RawMemory_Swap_member_local this k vec m Q X h r v w :
  v !! this = Some vec → r !! k = Some m →
  Q tt (mkState h (<[k := data_ vec]> r) (<[this := mkVector m (size_ vec)]> v) w) →
  wp (RawMemory_Swap (data_of this) (raw_at k)) Q X (mkState h r v w).
Proof.
  intros Hv Hr HQ. unfold RawMemory_Swap, std_swap.
  apply wp_bind, wp_bind. eapply wp_load; [cbn; by rewrite Hv|].
  apply wp_bind. eapply wp_load; [cbn; by rewrite Hr|].
  apply wp_bind. eapply wp_store; [cbn; by rewrite Hv|]. cbn. rewrite Hv. cbn.
  eapply wp_store; [cbn; by rewrite Hr|]. cbn. rewrite Hr. cbn.
  apply wp_bind. eapply wp_load; [cbn; by rewrite lookup_insert_eq|].
  apply wp_bind. eapply wp_load; [cbn; by rewrite lookup_insert_eq|].
  apply wp_bind. eapply wp_store; [cbn; by rewrite lookup_insert_eq|].
  cbn. rewrite lookup_insert_eq. cbn.
  eapply wp_store; [cbn; by rewrite lookup_insert_eq|].
  cbn. rewrite lookup_insert_eq. cbn. unfold set_raws, set_vectors. cbn.
  rewrite !insert_insert_eq. destruct vec as [[]], m. exact HQ.
Qed.

Lemma wp_operator_new n Q X h r v w :
  (∀ w' e, allocate n w = (w', Some e) → X e (mkState h r v w')) →
  (∀ w' l, allocate n w = (w', None) → h !! l = None →
     Q (Ptr l 0) (mkState (<[l := replicate n None]> h) r v w')) →
  wp (operator_new n) Q X (mkState h r v w).
Proof.
  intros HX HQ. unfold wp, operator_new. cbn.
  destruct (allocate n w) as [w' [e|]] eqn:Ha; cbn; [by apply HX|].
  apply HQ; [done|]. apply not_elem_of_dom, is_fresh.
Qed.

Lemma wp_Deallocate_null Q X s : Q tt s → wp (Deallocate nullptr) Q X s.
Proof. done. Qed.

Lemma wp_Deallocate_block l b Q X h r v w :
  h !! l = Some b →
  Q tt (mkState (delete l h) r v w) →
  wp (Deallocate (Ptr l 0)) Q X (mkState h r v w).
Proof.
  intros Hl HQ. unfold wp, Deallocate, operator_delete. cbn.
  by rewrite bool_decide_true by (rewrite Hl; eauto).
Qed.

Lemma wp_declare_raw m Q X h r v w :
  (∀ k, r !! k = None → Q k (mkState h (<[k := m]> r) v w)) →
  wp (declare_raw m) Q X (mkState h r v w).
Proof. intros HQ. apply HQ. apply not_elem_of_dom, is_fresh. Qed.

Lemma wp_forget_raw k Q X h r v w :
  Q tt (mkState h (delete k r) v w) → wp (forget_raw k) Q X (mkState h r v w).
Proof. done. Qed.

Lemma wp_declare_vector vec Q X h r v w :
  (∀ k, v !! k = None → Q k (mkState h r (<[k := vec]> v) w)) →
  wp (declare_vector vec) Q X (mkState h r v w).
Proof. intros HQ. apply HQ. apply not_elem_of_dom, is_fresh. Qed.

Lemma wp_forget_vector k Q X h r v w :
  Q tt (mkState h r (delete k v) w) → wp (forget_vector k) Q X (mkState h r v w).
Proof. done. Qed.

Lemma wp_stack_push x Q X h r v w :
  (∀ l, h !! l = None → Q (Ptr l 0) (mkState (<[l := [Some x]]> h) r v w)) →
  wp (stack_push x) Q X (mkState h r v w).
Proof. intros HQ. apply HQ. apply not_elem_of_dom, is_fresh. Qed.

Lemma wp_stack_pop l off Q X h r v w :
  Q tt (mkState (delete l h) r v w) → wp (stack_pop (Ptr l off)) Q X (mkState h r v w).
Proof. done. Qed.

(** A block with a local [RawMemory] of a capacity that is not zero: the body
    runs with a fresh block of raw slots owned by a fresh object, and the
    destructor of the object runs on the way out. *)
Lemma wp_local_RawMemory {A} capacity (body : ref RawMemory → M A) Q X h r v w :
  capacity ≠ 0 →
  (∀ w' e, allocate capacity w = (w', Some e) → X e (mkState h r v w')) →
  (∀ w' l k, allocate capacity w = (w', None) → h !! l = None → r !! k = None →
     wp (body (raw_at k))
        (λ a, wp (RawMemory_dtor (raw_at k);; forget_raw k) (λ _, Q a) X)
        (λ e, wp (RawMemory_dtor (raw_at k);; forget_raw k) (λ _, X e) X)
        (mkState (<[l := replicate capacity None]> h)
                 (<[k := mkRawMemory (Ptr l 0) capacity]> r) v w')) →
  wp (local_RawMemory capacity body) Q X (mkState h r v w).
Proof.
  intros Hc HX Hbody. unfold local_RawMemory, RawMemory_ctor, Allocate.
  rewrite bool_decide_true by done.
  do 2 apply wp_bind. apply wp_operator_new; [done|]. intros w' l Ha Hl.
  apply wp_ret, wp_bind, wp_declare_raw. intros k Hk.
  apply wp_finally. by apply Hbody.
Qed.

(** The way out of such a block, once the local owns the block at [l]. *)
Lemma wp_leave_RawMemory k l c b Q X h r v w :
  r !! k = Some (mkRawMemory (Ptr l 0) c) → h !! l = Some b →
  Q tt (mkState (delete l h) (delete k r) v w) →
  wp (RawMemory_dtor (raw_at k);; forget_raw k) Q X (mkState h r v w).
Proof.
  intros Hk Hl HQ. unfold RawMemory_dtor. do 2 apply wp_bind.
  eapply wp_load; [by eapply deref_buffer_of, deref_raw_at|]. cbn [buffer_].
  eapply wp_Deallocate_block; [done|]. by apply wp_forget_raw.
Qed.

(** The same once the local owns nothing. *)
Lemma wp_leave_RawMemory_null k c Q X h r v w :
  r !! k = Some (mkRawMemory nullptr c) →
  Q tt (mkState h (delete k r) v w) →
  wp (RawMemory_dtor (raw_at k);; forget_raw k) Q X (mkState h r v w).
Proof.
  intros Hk HQ. unfold RawMemory_dtor. do 2 apply wp_bind.
  eapply wp_load; [by eapply deref_buffer_of, deref_raw_at|]. cbn [buffer_].
  by apply wp_Deallocate_null, wp_forget_raw.
Qed.

Lemma block_of_length (xs : list T) c : length xs ≤ c → length (block_of xs c) = c.
Proof.
  intros Hle. unfold block_of. rewrite length_app, length_fmap, length_replicate. lia.
Qed.
End Objects.

(** ** Growing: moving a sequence into new storage *)

Section Growth.
Context {T Args E W : Type} `{!Element T Args E W}.

#[local] Abbreviation State := (State T W).
#[local] Abbreviation M := (M T E W).

Implicit Types (h : gmap loc (list (option T))) (r : gmap obj RawMemory).
Implicit Types (v : gmap obj Vector) (w : W) (s : State) (b : list (option T)).
Implicit Types (m : RawMemory) (vec : Vector) (X : E → State → Prop).
Implicit Types (xs ys zs : list T).



Lemma block_of_raw xs c i :
  length xs ≤ i → i < c → block_of xs c !! i = Some None.
Proof.
  intros Hle Hlt. unfold block_of.
  rewrite lookup_app_r by (by rewrite length_fmap).
  rewrite length_fmap. apply lookup_replicate_2. lia.
Qed.

Lemma replicate_split {A} (x : A) n c :
  n < c → replicate c x = replicate n x ++ x :: replicate (c - S n) x.
Proof.
  intros Hlt. replace c with (n + S (c - S n)) at 1 by lia.
  by rewrite replicate_add.
Qed.

Lemma block_of_snoc xs x c :
  length xs < c →
  block_of (xs ++ [x]) c = (Some <$> xs) ++ Some x :: replicate (c - S (length xs)) None.
Proof.
  intros Hlt. unfold block_of. rewrite fmap_app, <- app_assoc, length_app. cbn.
  by rewrite Nat.add_1_r.
Qed.

Lemma block_of_split xs c :
  length xs < c →
  block_of xs c = (Some <$> xs) ++ None :: replicate (c - S (length xs)) None.
Proof.
  intros Hlt. unfold block_of.
  rewrite (replicate_split None 0 (c - length xs)) by lia. cbn.
  do 3 f_equal. lia.
Qed.

Lemma holds_unfold s buf c n xs :
  holds s (mkVector (mkRawMemory buf c) n) xs ↔
  n = length xs ∧ n ≤ c ∧
  match buf with
  | nullptr => c = 0
  | Ptr l off => off = 0 ∧ heap s !! l = Some (block_of xs c)
  end.
Proof. done. Qed.

(** The common end of the reallocating paths of [EmplaceBack] and [Reserve]:
    all the elements go to the new block, whose first slots are raw, the old
    ones are destroyed, the new block is adopted and the old one given back
    when the local object that now owns it goes out of scope. *)
Lemma wp_adopt `{!Faithful T Args E W} this k buf c xs l' c' dpost Q X h r v w :
  v !! this = Some (mkVector (mkRawMemory buf c) (length xs)) →
  length xs ≤ c →
  match buf with
  | nullptr => c = 0
  | Ptr l off => off = 0 ∧ h !! l = Some (block_of xs c)
  end →
  r !! k = Some (mkRawMemory (Ptr l' 0) c') →
  h !! l' = Some (replicate (length xs) None ++ dpost) →
  (∀ l off, buf = Ptr l off → l ≠ l') →
  (∀ w',
     Q tt (mkState (released buf (<[l' := (Some <$> xs) ++ dpost]> h)) (delete k r)
             (<[this := mkVector (mkRawMemory (Ptr l' 0) c') (length xs)]> v) w')) →
  (∀ w' e h', X e (mkState h' (delete k r) v w')) →
  wp (from ← GetAddress (data_of this);
      to ← GetAddress (raw_at k);
      (if is_nothrow_move_constructible || negb is_copy_constructible
       then uninitialized_move_n from (length xs) to
       else uninitialized_copy_n from (length xs) to);;
      destroy_n from (length xs);;
      RawMemory_Swap (data_of this) (raw_at k))
     (λ a, wp (RawMemory_dtor (raw_at k);; forget_raw k) (λ _, Q a) X)
     (λ e, wp (RawMemory_dtor (raw_at k);; forget_raw k) (λ _, X e) X)
     (mkState h r v w).
Proof.
  intros Hv Hle Hbuf Hk Hl' Hne HQ HX.
  apply wp_bind. eapply wp_GetAddress; [by apply deref_data_of|]. cbn [buffer_ data_].
  apply wp_bind. eapply wp_GetAddress; [by apply deref_raw_at|]. cbn [buffer_].
  destruct buf as [|l off].
  - (* no old block, hence no element *)
    subst c. assert (xs = []) as -> by (apply nil_length_inv; lia).
    cbn [length] in *. cbn [replicate app fmap list_fmap] in *.
    assert (wp (mret tt : M unit)
      (λ _, wp (destroy_n nullptr 0;; RawMemory_Swap (data_of this) (raw_at k))
          (λ a, wp (RawMemory_dtor (raw_at k);; forget_raw k) (λ _, Q a) X)
          (λ e, wp (RawMemory_dtor (raw_at k);; forget_raw k) (λ _, X e) X))
      (λ e, wp (RawMemory_dtor (raw_at k);; forget_raw k) (λ _, X e) X)
      (mkState h r v w)) as Hgo.
    { apply wp_ret, wp_bind, wp_ret.
      eapply wp_RawMemory_Swap_member_local; [done..|]. cbn [data_ size_].
      eapply wp_leave_RawMemory_null; [by apply lookup_insert_eq|].
      rewrite delete_insert_eq. specialize (HQ w). cbn in HQ.
      by rewrite insert_id in HQ. }
    apply wp_bind.
    by destruct (is_nothrow_move_constructible || negb is_copy_constructible).
  - destruct Hbuf as [-> Hl]. specialize (Hne l 0 eq_refl).
    assert (Hblock : block_of xs c = [] ++ (Some <$> xs) ++ replicate (c - length xs) None)
      by done.
    apply wp_bind.
    destruct (is_nothrow_move_constructible || negb is_copy_constructible).
    + eapply (wp_uninitialized_move_from l 0 l' 0 0 _ xs [] [] _ [] dpost);
        [done|by rewrite Hl, Hblock|done|done|done|done|done| |].
      * intros w1 zs ys Hzs ->%Forall2_moved. cbn [app].
        apply wp_bind.
        eapply (wp_destroy_n l 0 _ zs []);
          [by rewrite lookup_insert_ne, lookup_insert_eq|done|done|].
        intros w2.
        eapply wp_RawMemory_Swap_member_local; [done..|]. cbn [data_ size_].
        eapply wp_leave_RawMemory;
          [by apply lookup_insert_eq|by apply lookup_insert_eq|].
        same_state (HQ w2); cbn [released]; map_solve.
      * intros w1 zs e Hzs.
        eapply wp_leave_RawMemory; [done|by apply lookup_insert_eq|]. apply HX.
    + eapply (wp_uninitialized_copy_from l 0 l' 0 0 _ xs [] [] _ [] dpost);
        [done|by rewrite Hl, Hblock|done|done|done|done|done| |].
      * intros w1 ys ->%Forall2_copied. cbn [app].
        apply wp_bind.
        eapply (wp_destroy_n l 0 _ xs []);
          [by rewrite lookup_insert_ne, Hl, Hblock|done|done|].
        intros w2.
        eapply wp_RawMemory_Swap_member_local; [done..|]. cbn [data_ size_].
        eapply wp_leave_RawMemory;
          [by apply lookup_insert_eq|by apply lookup_insert_eq|].
        same_state (HQ w2); cbn [released]; map_solve.
      * intros w1 e.
        eapply wp_leave_RawMemory; [done|by apply lookup_insert_eq|]. apply HX.
Qed.

(** What [EmplaceBack] establishes when it returns, and that it has no
    undefined behaviour on a well-formed sequence. *)
Lemma wp_EmplaceBack `{!Faithful T Args E W} this vec xs args s :
  vectors s !! this = Some vec → holds s vec xs →
  wp (EmplaceBack this args)
     (λ p s', ∃ vec' x,
        vectors s' !! this = Some vec' ∧ holds s' vec' (xs ++ [x]) ∧
        constructed args x ∧
        size_ vec' = size_ vec + 1 ∧
        p = buffer_ (data_ vec') +ₚ size_ vec ∧
        if decide (size_ vec = capacity_ (data_ vec))
        then capacity_ (data_ vec') = 1 `max` (2 * size_ vec)
        else data_ vec' = data_ vec)
     (λ _ _, True) s.
Proof.
  destruct s as [h r v w], vec as [[buf c] n]. cbn [vectors].
  intros Hv (Hn & Hle & Hbuf)%holds_unfold.
  cbn [heap size_ data_ capacity_ buffer_] in *.
  subst n. unfold EmplaceBack, Capacity. apply wp_bind. eapply wp_load_size; [done|].
  cbn [size_ data_].
  apply wp_bind. eapply wp_RawMemory_Capacity; [by apply deref_data_of|].
  cbn [capacity_ data_]. apply wp_bind.
  case_bool_decide as Hfull.
  - (* reallocation *)
    subst c. set (c' := if bool_decide (length xs = 0) then 1 else length xs * 2).
    assert (Hc' : c' = 1 `max` (2 * length xs)) by (subst c'; case_bool_decide; lia).
    assert (Hlt : length xs < c') by lia. clearbody c'.
    apply wp_local_RawMemory; [lia|done|]. intros w1 l' k Ha Hl' Hk.
    apply wp_bind. eapply wp_RawMemory_plus;
      [by apply deref_raw_at, lookup_insert_eq|cbn; lia|]. cbn [buffer_ ptr_add].
    apply wp_bind. eapply wp_placement_new;
      [by apply lookup_insert_eq|by apply lookup_replicate_2| |].
    { intros w2 e He.
      eapply wp_leave_RawMemory; [by apply lookup_insert_eq..|done]. }
    intros w2 x Hx. rewrite insert_insert_eq.
    rewrite (replicate_split None (length xs)), seg_insert
      by (rewrite ?length_replicate; lia).
    eapply (wp_adopt this k buf (length xs) xs l' c');
      [done|done| |by apply lookup_insert_eq|by apply lookup_insert_eq| | |done].
    { destruct buf as [|l off]; [done|]. destruct Hbuf as [-> Hl].
      split; [done|]. rewrite lookup_insert_ne; [done|congruence]. }
    { intros l off ->. destruct Hbuf as [_ Hl]. congruence. }
    intros w3. rewrite insert_insert_eq, delete_insert_id by done.
    apply wp_bind. eapply wp_increment_size; [by apply lookup_insert_eq|].
    cbn [data_ size_]. rewrite insert_insert_eq.
    apply wp_bind. eapply wp_load_size; [by apply lookup_insert_eq|]. cbn [size_].
    apply wp_bind, wp_minus; [lia|].
    eapply wp_RawMemory_index; [by apply deref_data_of, lookup_insert_eq|cbn; lia|].
    cbn [vectors data_ buffer_ size_ capacity_].
    eexists _, x. rewrite lookup_insert_eq. split; [done|].
    split; [|split; [by eexists _, _|]].
    + apply holds_unfold. rewrite length_app. cbn [length heap].
      split; [done|]. split; [lia|]. split; [done|].
      rewrite block_of_snoc by done.
      destruct buf as [|l off]; cbn [released].
      * by rewrite lookup_insert_eq.
      * destruct Hbuf as [_ Hl].
        rewrite lookup_delete_ne, lookup_insert_eq; [done|congruence].
    + cbn [size_ data_ capacity_]. rewrite decide_True by done.
      split; [done|]. split; [|done]. f_equal. lia.
  - (* room left *)
    destruct buf as [|l off]; [lia|]. destruct Hbuf as [-> Hl].
    apply wp_bind. eapply wp_RawMemory_plus; [by apply deref_data_of|cbn; lia|].
    cbn [buffer_ data_ ptr_add].
    eapply wp_placement_new; [done|by apply block_of_raw; lia|done|].
    intros w1 x Hx.
    apply wp_bind. eapply wp_increment_size; [done|]. cbn [data_ size_].
    apply wp_bind. eapply wp_load_size; [by apply lookup_insert_eq|]. cbn [size_].
    apply wp_bind, wp_minus; [lia|].
    eapply wp_RawMemory_index; [by apply deref_data_of, lookup_insert_eq|cbn; lia|].
    cbn [vectors data_ buffer_ size_ capacity_].
    eexists _, x. rewrite lookup_insert_eq. split; [done|].
    split; [|split; [by eexists _, _|]].
    + apply holds_unfold. rewrite length_app. cbn [length heap].
      split; [done|]. split; [lia|]. split; [done|].
      rewrite lookup_insert_eq. f_equal.
      rewrite block_of_split, block_of_snoc by lia. by apply seg_insert; rewrite length_fmap.
    + cbn [size_ data_ capacity_]. rewrite decide_False by done.
      split; [done|]. split; [|done]. f_equal. lia.
Qed.
End Growth.

Section GrowthTheorems.
Context {T Args E W : Type} `{!Element T Args E W}.

#[local] Abbreviation State := (State T W).
#[local] Abbreviation M := (M T E W).

Implicit Types (h : gmap loc (list (option T))) (r : gmap obj RawMemory).
Implicit Types (v : gmap obj Vector) (w : W) (s : State) (b : list (option T)).
Implicit Types (m : RawMemory) (vec : Vector) (X : E → State → Prop).
Implicit Types (xs ys zs : list T).

(** Reading a [wp] fact on a given run. *)
Lemma wp_elim {A} (m : M A) Q X s s' out :
  wp m Q X s → m s = (s', out) →
  match out with
  | Normal a => Q a s'
  | Throw e => X e s'
  | Undefined => False
  end.
Proof. unfold wp. intros Hwp Hrun. by rewrite Hrun in Hwp. Qed.

Lemma wp_EmplaceBack_construction_fails this vec xs args s w1 w2 e :
  vectors s !! this = Some vec → holds s vec xs →
  size_ vec = capacity_ (data_ vec) →
  allocate (1 `max` (2 * size_ vec)) (world s) = (w1, None) →
  construct args w1 = (w2, inl e) →
  wp (EmplaceBack this args) (λ _ _, False)
     (λ e' s', e' = e ∧ s' = mkState (heap s) (raws s) (vectors s) w2) s.
Proof.
  destruct s as [h r v w], vec as [[buf c] n]. cbn [vectors heap raws world].
  intros Hv (Hn & Hle & Hbuf)%holds_unfold.
  cbn [heap size_ data_ capacity_ buffer_] in *. intros <- Ha Hc.
  unfold EmplaceBack, Capacity. apply wp_bind. eapply wp_load_size; [done|].
  cbn [size_ data_].
  apply wp_bind. eapply wp_RawMemory_Capacity; [by apply deref_data_of|].
  cbn [capacity_ data_]. apply wp_bind.
  rewrite bool_decide_true by done.
  replace (if bool_decide (n = 0) then 1 else n * 2) with (1 `max` (2 * n))
    by (case_bool_decide; lia).
  apply wp_local_RawMemory; [lia|congruence|]. intros w1' l' k Ha' Hl' Hk.
  assert (w1' = w1) as -> by congruence.
  apply wp_bind. eapply wp_RawMemory_plus;
    [by apply deref_raw_at, lookup_insert_eq|cbn; lia|]. cbn [buffer_ ptr_add].
  apply wp_bind. eapply wp_placement_new;
    [by apply lookup_insert_eq|apply lookup_replicate_2; lia| |congruence].
  intros w2' e' He'. assert (w2' = w2 ∧ e' = e) as [-> ->] by (split; congruence).
  eapply wp_leave_RawMemory; [by apply lookup_insert_eq..|].
  by rewrite !delete_insert_id.
Qed.


End GrowthTheorems.

(** ** Inserting and removing inside the sequence *)

Section Positional.
Context {T Args E W : Type} `{!Element T Args E W}.

#[local] Abbreviation State := (State T W).
#[local] Abbreviation M := (M T E W).

Implicit Types (h : gmap loc (list (option T))) (r : gmap obj RawMemory).
Implicit Types (v : gmap obj Vector) (w : W) (s : State) (b : list (option T)).
Implicit Types (m : RawMemory) (vec : Vector) (X : E → State → Prop).
Implicit Types (xs ys zs : list T).

Lemma split_last_at xs P :
  P < length xs →
  ∃ mid xl, xs = take P xs ++ mid ++ [xl] ∧ drop P xs = mid ++ [xl].
Proof.
  intros Hlt. destruct (drop P xs) as [|y ys _] eqn:Hd using rev_ind.
  - apply (f_equal length) in Hd. rewrite length_drop in Hd. cbn in Hd. lia.
  - exists ys, y. split; [|done]. by rewrite <- Hd, take_drop.
Qed.

Lemma split_first_at xs P :
  P < length xs →
  ∃ a rest, xs = take P xs ++ a :: rest ∧ drop P xs = a :: rest ∧
            drop (S P) xs = rest.
Proof.
  intros Hlt. destruct (drop P xs) as [|a rest] eqn:Hd.
  - apply (f_equal length) in Hd. rewrite length_drop in Hd. cbn in Hd. lia.
  - exists a, rest. split; [by rewrite <- Hd, take_drop|]. split; [done|].
    replace (S P) with (P + 1) by lia. by rewrite <- drop_drop, Hd.
Qed.

(** [Emplace] at a position inside a sequence that has room left. *)
Lemma wp_Emplace_in_place `{!Faithful T Args E W} this vec xs P args s :
  vectors s !! this = Some vec → holds s vec xs →
  P < size_ vec → size_ vec < capacity_ (data_ vec) →
  wp (Emplace this (buffer_ (data_ vec) +ₚ P) args)
     (λ p s', ∃ vec' x,
        vectors s' !! this = Some vec' ∧
        holds s' vec' (take P xs ++ x :: drop P xs) ∧
        constructed args x ∧
        size_ vec' = size_ vec + 1 ∧
        data_ vec' = data_ vec ∧
        p = buffer_ (data_ vec') +ₚ P)
     (λ _ _, True) s.
Proof.
  destruct s as [h r v w], vec as [[buf c] n]. cbn [vectors].
  intros Hv (Hn & Hle & Hbuf)%holds_unfold.
  cbn [heap size_ data_ capacity_ buffer_] in *. subst n. intros HP Hroom.
  destruct buf as [|l off]; [lia|]. destruct Hbuf as [-> Hl].
  destruct (split_last_at xs P HP) as (mid & xl & Hxs & Hdrop).
  assert (HlenP : length (take P xs) = P) by (rewrite length_take; lia).
  assert (Hlen : length xs = P + length mid + 1).
  { rewrite Hxs at 1. rewrite !length_app, HlenP. cbn. lia. }
  set (pre := take P xs) in *. clearbody pre.
  assert (Hblock : block_of xs c =
    (Some <$> pre) ++ (Some <$> mid) ++ Some xl :: None :: replicate (c - S (length xs)) None).
  { rewrite block_of_split by lia. rewrite Hxs at 1.
    rewrite !fmap_app, <- !app_assoc. done. }
  rewrite Hblock in Hl. clear Hblock.
  unfold Emplace, Vector_end, Vector_begin.
  do 2 apply wp_bind. eapply wp_load_size; [done|]. cbn [size_].
  eapply wp_RawMemory_plus; [by apply deref_data_of|cbn; lia|]. cbn [buffer_ data_ ptr_add Nat.add].
  apply wp_bind. eapply wp_load_size; [done|]. cbn [size_].
  apply wp_bind. eapply wp_RawMemory_Capacity; [by apply deref_data_of|].
  cbn [capacity_ data_].
  rewrite bool_decide_false by (intros [=]; lia).
  rewrite bool_decide_false by lia.
  unfold local_T. do 2 apply wp_bind. apply wp_effect. intros w1 [e|x] Hx;
    apply wp_value_or_raise; [done|].
  apply wp_bind, wp_stack_push. intros lt Hlt.
  assert (Hne : lt ≠ l) by congruence.
  apply wp_finally.
  (* the way out of the block, whatever the local has become *)
  assert (Hout : ∀ (Q : unit → State → Prop) x' h' v' w',
    h' !! lt = Some [Some x'] →
    (∀ w'', Q tt (mkState (delete lt h') r v' w'')) →
    wp (destroy_at (Ptr lt 0);; stack_pop (Ptr lt 0)) Q (λ _ _, True)
       (mkState h' r v' w')).
  { intros Q x' h' v' w' Hh' HQ. apply wp_bind.
    eapply wp_destroy_at; [done..|]. apply wp_stack_pop.
    rewrite delete_insert_eq. apply HQ. }
  assert (Hout' : ∀ x' h' v' w',
    h' !! lt = Some [Some x'] →
    wp (destroy_at (Ptr lt 0);; stack_pop (Ptr lt 0)) (λ _ _, True) (λ _ _, True)
       (mkState h' r v' w')).
  { intros x' h' v' w' Hh'. by eapply Hout. }
  apply wp_bind. eapply wp_RawMemory_plus; [by apply deref_data_of|cbn; lia|].
  cbn [buffer_ data_ ptr_add Nat.add].
  apply wp_bind, wp_minus; [lia|].
  apply wp_bind. eapply wp_RawMemory_index; [by apply deref_data_of|cbn; lia|].
  cbn [buffer_ data_ ptr_add Nat.add].
  apply wp_bind.
  eapply (wp_move_construct_within l _ None _ xl); [lia|by rewrite lookup_insert_ne| | | |].
  { rewrite !app_assoc. apply seg_lookup. rewrite !length_app, !length_fmap. lia. }
  { rewrite !app_assoc, <- (app_assoc _ _ (Some xl :: _)). 
    rewrite (app_assoc (Some <$> pre)). apply seg_lookup_next.
    rewrite !length_app, !length_fmap. lia. }
  { intros w2 x' e He. eapply (Hout' x).
    by rewrite lookup_insert_ne, lookup_insert_eq. }
  intros w2 xl' y Hy. rewrite (move_construct_value _ _ _ _ _ Hy). clear y Hy.
  rewrite (app_assoc (Some <$> pre)), seg_insert, seg_insert_next
    by (rewrite !length_app, !length_fmap; lia).
  rewrite <- app_assoc.
  apply wp_bind. eapply wp_GetAddress; [by apply deref_data_of|]. cbn [buffer_ data_].
  apply wp_bind. eapply wp_GetAddress; [by apply deref_data_of|]. cbn [buffer_ data_].
  apply wp_bind. unfold ptr_diff. rewrite bool_decide_true by (split; [done|lia]).
  apply wp_ret. rewrite Nat.sub_0_r. cbn [ptr_add Nat.add].
  do 2 apply wp_bind. eapply wp_load_size; [done|]. cbn [size_].
  eapply wp_RawMemory_plus; [by apply deref_data_of|cbn; lia|]. cbn [buffer_ data_ ptr_add Nat.add].
  apply wp_bind. unfold ptr_sub. rewrite bool_decide_true by lia. apply wp_ret.
  do 2 apply wp_bind. eapply wp_load_size; [done|]. cbn [size_].
  eapply wp_RawMemory_plus; [by apply deref_data_of|cbn; lia|]. cbn [buffer_ data_ ptr_add Nat.add].
  apply wp_bind. unfold std_move_backward. apply wp_bind.
  unfold ptr_diff. rewrite bool_decide_true by (split; [done|lia]). apply wp_ret.
  replace (Ptr l (length xs)) with (Ptr l (S (length xs - 1))) by (f_equal; lia).
  eapply (wp_move_backward_loop l _ _ xl' mid (Some <$> pre));
    [by rewrite lookup_insert_eq|rewrite length_fmap; lia|lia| |].
  2:{ intros w3 zs e Hzs. eapply (Hout' x).
      by rewrite lookup_insert_ne, lookup_insert_ne, lookup_insert_eq. }
  intros w3 ys z ->%Forall2_move_assigned. rewrite insert_insert_eq.
  apply wp_bind.
  eapply (wp_move_assign_at l _ z lt 0 x);
    [done|by rewrite lookup_insert_ne, lookup_insert_eq|done
    |by rewrite lookup_insert_eq|apply seg_lookup; by rewrite length_fmap| |].
  { intros w4 a' x' e He. eapply (Hout' x').
    by rewrite lookup_insert_ne, lookup_insert_eq. }
  intros w4 a' x' Ha'. rewrite (move_assign_value _ _ _ _ _ _ Ha'). clear a' Ha'.
  rewrite seg_insert by (by rewrite length_fmap).
  apply wp_bind. eapply wp_increment_size; [done|]. cbn [data_ size_].
  apply wp_ret.
  eapply (Hout _ x'); [by rewrite lookup_insert_ne, lookup_insert_eq|].
  intros w5. cbn [vectors]. eexists _, x. rewrite lookup_insert_eq. split; [done|].
  split; [|split; [by eexists _, _|done]].
  apply holds_unfold. cbn [heap]. rewrite Hdrop.
  split; [rewrite length_app; cbn; rewrite length_app; cbn; lia|].
  split; [lia|]. split; [done|].
  rewrite lookup_delete_ne, lookup_insert_eq by done. f_equal.
  replace (pre ++ x :: mid ++ [xl]) with ((pre ++ x :: mid) ++ [xl])
    by (by rewrite <- app_assoc).
  rewrite block_of_snoc by (rewrite length_app; cbn; lia).
  rewrite fmap_app, fmap_cons, <- app_assoc. cbn [app].
  do 5 f_equal. rewrite length_app. cbn. lia.
Qed.

(** [Erase] at a position inside the sequence. *)
Lemma wp_Erase `{!Faithful T Args E W} this vec xs P s :
  vectors s !! this = Some vec → holds s vec xs →
  P < size_ vec →
  wp (Erase this (buffer_ (data_ vec) +ₚ P))
     (λ p s', ∃ vec',
        vectors s' !! this = Some vec' ∧
        holds s' vec' (take P xs ++ drop (S P) xs) ∧
        size_ vec' = size_ vec - 1 ∧
        data_ vec' = data_ vec ∧
        p = buffer_ (data_ vec) +ₚ P)
     (λ _ _, True) s.
Proof.
  destruct s as [h r v w], vec as [[buf c] n]. cbn [vectors].
  intros Hv (Hn & Hle & Hbuf)%holds_unfold.
  cbn [heap size_ data_ capacity_ buffer_] in *. subst n. intros HP.
  destruct buf as [|l off]; [lia|]. destruct Hbuf as [-> Hl].
  destruct (split_first_at xs P HP) as (a & rest & Hxs & _ & Hdrop).
  assert (HlenP : length (take P xs) = P) by (rewrite length_take; lia).
  assert (Hlen : length xs = P + S (length rest)).
  { rewrite Hxs at 1. rewrite !length_app, HlenP. cbn. lia. }
  rewrite Hdrop. set (pre := take P xs) in *. clearbody pre.
  assert (Hblock : block_of xs c =
    (Some <$> pre) ++ Some a :: (Some <$> rest) ++ replicate (c - length xs) None).
  { unfold block_of. rewrite Hxs at 1. by rewrite fmap_app, <- app_assoc. }
  rewrite Hblock in Hl. clear Hblock.
  unfold Erase, Vector_end, Vector_begin.
  apply wp_bind. eapply wp_GetAddress; [by apply deref_data_of|]. cbn [buffer_ data_].
  apply wp_bind. eapply wp_GetAddress; [by apply deref_data_of|]. cbn [buffer_ data_].
  apply wp_bind. unfold ptr_diff. cbn [ptr_add Nat.add].
  rewrite bool_decide_true by (split; [done|lia]).
  apply wp_ret. rewrite Nat.sub_0_r. cbn [ptr_add Nat.add].
  do 2 apply wp_bind. eapply wp_load_size; [done|]. cbn [size_].
  eapply wp_RawMemory_plus; [by apply deref_data_of|cbn; lia|]. cbn [buffer_ data_ ptr_add Nat.add].
  apply wp_bind. unfold std_move. apply wp_bind.
  unfold ptr_diff. rewrite bool_decide_true by (split; [done|lia]). apply wp_ret.
  replace (P + 1) with (S P) by lia.
  eapply (wp_move_loop l P _ a rest (Some <$> pre));
    [done|by rewrite length_fmap|lia| |done].
  intros w1 ys z ->%Forall2_move_assigned.
  do 2 apply wp_bind. eapply wp_load_size; [done|]. cbn [size_].
  eapply wp_RawMemory_plus; [by apply deref_data_of|cbn; lia|]. cbn [buffer_ data_ ptr_add Nat.add].
  apply wp_bind. unfold ptr_sub. rewrite bool_decide_true by lia. apply wp_ret.
  apply wp_bind.
  eapply (wp_destroy_n l _ 1 [z] ((Some <$> pre) ++ (Some <$> rest)));
    [by rewrite lookup_insert_eq, <- app_assoc
    |rewrite length_app, !length_fmap; lia|done|].
  intros w2. rewrite insert_insert_eq.
  apply wp_bind. eapply wp_decrement_size; [done|cbn; lia|]. cbn [data_ size_].
  apply wp_ret. cbn [vectors]. eexists. rewrite lookup_insert_eq. split; [done|].
  split; [|done].
  apply holds_unfold. cbn [heap].
  split; [rewrite length_app; lia|]. split; [lia|]. split; [done|].
  rewrite lookup_insert_eq. f_equal.
  unfold block_of. rewrite fmap_app, <- !app_assoc. do 2 f_equal.
  cbn. rewrite length_app.
  replace (c - (length pre + length rest)) with (S (c - length xs)) by lia. done.
Qed.
End Positional.

(** ** Exchanging and assigning whole objects *)

Section Exchange.
Context {T Args E W : Type} `{!Element T Args E W}.

#[local] Abbreviation State := (State T W).
#[local] Abbreviation M := (M T E W).

Implicit Types (h : gmap loc (list (option T))) (r : gmap obj RawMemory).
Implicit Types (v : gmap obj Vector) (w : W) (s : State).
Implicit Types (m : RawMemory) (vec : Vector) (X : E → State → Prop).
Implicit Types (xs ys zs : list T).

(** [Swap] on two [RawMemory] objects, which may be one and the same. *)
Lemma wp_RawMemory_Swap_raws a b ma mb Q X h r v w :
  r !! a = Some ma → r !! b = Some mb →
  Q tt (mkState h (<[b := ma]> (<[a := mb]> r)) v w) →
  wp (RawMemory_Swap (raw_at a) (raw_at b)) Q X (mkState h r v w).
Proof.
  intros Ha Hb HQ. unfold RawMemory_Swap, std_swap.
  destruct ma as [pa ca], mb as [pb cb].
  destruct (decide (a = b)) as [->|Hne].
  - assert (pa = pb ∧ ca = cb) as [-> ->] by (split; congruence).
    repeat first
      [ apply wp_bind
      | eapply wp_load; [cbn; rewrite ?lookup_insert_eq, ?Ha; reflexivity|]
      | eapply wp_store; [cbn; rewrite ?lookup_insert_eq, ?Ha; reflexivity|];
        cbn; rewrite ?lookup_insert_eq, ?Ha; cbn; unfold set_raws; cbn ].
    rewrite !insert_insert_eq. by rewrite !insert_insert_eq in HQ.
  - repeat first
      [ apply wp_bind
      | eapply wp_load;
          [cbn; rewrite ?lookup_insert_eq, ?lookup_insert_ne, ?lookup_insert_eq, ?Ha, ?Hb by done;
           reflexivity|]
      | eapply wp_store;
          [cbn; rewrite ?lookup_insert_eq, ?lookup_insert_ne, ?lookup_insert_eq, ?Ha, ?Hb by done;
           reflexivity|];
        cbn; rewrite ?lookup_insert_eq, ?lookup_insert_ne, ?lookup_insert_eq, ?Ha, ?Hb by done;
        cbn; unfold set_raws; cbn ].
    same_state HQ. map_solve.
Qed.

(** [Swap] on two [Vector] objects, which may be one and the same. *)
Lemma wp_Vector_Swap a b va vb Q X h r v w :
  v !! a = Some va → v !! b = Some vb →
  Q tt (mkState h r (<[b := va]> (<[a := vb]> v)) w) →
  wp (Vector_Swap a b) Q X (mkState h r v w).
Proof.
  intros Ha Hb HQ. unfold Vector_Swap, RawMemory_Swap, std_swap.
  destruct va as [[pa ca] na], vb as [[pb cb] nb].
  destruct (decide (a = b)) as [->|Hne].
  - assert (pa = pb ∧ ca = cb ∧ na = nb) as (-> & -> & ->) by (repeat split; congruence).
    repeat first
      [ apply wp_bind
      | eapply wp_load; [cbn; rewrite ?lookup_insert_eq, ?Ha; reflexivity|]
      | eapply wp_store; [cbn; rewrite ?lookup_insert_eq, ?Ha; reflexivity|];
        cbn; rewrite ?lookup_insert_eq, ?Ha; cbn; unfold set_vectors; cbn ].
    rewrite !insert_insert_eq. by rewrite !insert_insert_eq in HQ.
  - repeat first
      [ apply wp_bind
      | eapply wp_load;
          [cbn; rewrite ?lookup_insert_eq, ?lookup_insert_ne, ?lookup_insert_eq, ?Ha, ?Hb by done;
           reflexivity|]
      | eapply wp_store;
          [cbn; rewrite ?lookup_insert_eq, ?lookup_insert_ne, ?lookup_insert_eq, ?Ha, ?Hb by done;
           reflexivity|];
        cbn; rewrite ?lookup_insert_eq, ?lookup_insert_ne, ?lookup_insert_eq, ?Ha, ?Hb by done;
        cbn; unfold set_vectors; cbn ].
    same_state HQ. map_solve.
Qed.

(** The copy constructor, from a sequence that is not empty. *)
Lemma wp_Vector_copy_ctor `{!Faithful T Args E W} rhs lb cb ys Q X h r v w :
  v !! rhs = Some (mkVector (mkRawMemory (Ptr lb 0) cb) (length ys)) →
  h !! lb = Some (block_of ys cb) → length ys ≠ 0 →
  (∀ w' e, X e (mkState h r v w')) →
  (∀ w' l' k, h !! l' = None → v !! k = None →
     Q k (mkState (<[l' := Some <$> ys]> h) r
            (<[k := mkVector (mkRawMemory (Ptr l' 0) (length ys)) (length ys)]> v) w')) →
  wp (Vector_copy_ctor rhs) Q X (mkState h r v w).
Proof.
  intros Hv Hlb Hlen HX HQ. unfold Vector_copy_ctor, RawMemory_ctor, Allocate.
  apply wp_bind. eapply wp_load_size; [done|]. cbn [size_].
  rewrite bool_decide_true by done.
  do 2 apply wp_bind. apply wp_operator_new; [by intros; apply HX|].
  intros w1 l' Ha Hl'. apply wp_ret, wp_bind, wp_declare_vector. intros k Hk.
  assert (rhs ≠ k) by congruence. assert (lb ≠ l') by congruence.
  apply wp_bind, wp_on_exception.
  apply wp_bind. eapply wp_GetAddress; [by apply deref_data_of; rewrite lookup_insert_ne|].
  apply wp_bind. eapply wp_GetAddress; [by apply deref_data_of, lookup_insert_eq|].
  cbn [buffer_ data_].
  eapply (wp_uninitialized_copy_from lb 0 l' 0 0 _ ys [] [] _ [] []);
    [done|by rewrite lookup_insert_ne|done
    |by rewrite lookup_insert_eq, app_nil_r|done|done|done| |].
  - intros w2 zs ->%Forall2_copied. rewrite insert_insert_eq. cbn [app].
    rewrite app_nil_r. by apply wp_ret, HQ.
  - intros w2 e. rewrite insert_insert_eq. unfold RawMemory_dtor.
    do 2 apply wp_bind.
    eapply wp_load; [by eapply deref_buffer_of, deref_data_of, lookup_insert_eq|].
    cbn [buffer_ data_].
    eapply wp_Deallocate_block; [by apply lookup_insert_eq|]. apply wp_forget_vector.
    by rewrite !delete_insert_id.
Qed.

(** The end of the life of a local sequence. *)
Lemma wp_leave_Vector k buf c xs Q X h r v w :
  v !! k = Some (mkVector (mkRawMemory buf c) (length xs)) →
  length xs ≤ c →
  match buf with
  | nullptr => c = 0
  | Ptr l off => off = 0 ∧ h !! l = Some (block_of xs c)
  end →
  (∀ w', Q tt (mkState (released buf h) r (delete k v) w')) →
  wp (Vector_dtor k;; forget_vector k) Q X (mkState h r v w).
Proof.
  intros Hv Hle Hbuf HQ. unfold Vector_dtor, RawMemory_dtor.
  do 2 apply wp_bind. eapply wp_GetAddress; [by apply deref_data_of|].
  apply wp_bind. eapply wp_load_size; [done|]. cbn [buffer_ data_ size_].
  apply wp_bind. destruct buf as [|l off].
  - assert (xs = []) as -> by (apply nil_length_inv; lia). apply wp_ret.
    apply wp_bind.
    eapply wp_load; [by eapply deref_buffer_of, deref_data_of|].
    by apply wp_Deallocate_null, wp_forget_vector.
  - destruct Hbuf as [-> Hl].
    eapply (wp_destroy_n l 0 _ xs []); [done..|]. intros w1.
    apply wp_bind.
    eapply wp_load; [by eapply deref_buffer_of, deref_data_of|]. cbn [buffer_ data_].
    eapply wp_Deallocate_block; [by apply lookup_insert_eq|]. apply wp_forget_vector.
    rewrite delete_insert_eq. apply HQ.
Qed.

Lemma block_of_nil_or_block s vec xs :
  holds s vec xs → xs ≠ [] →
  ∃ l, buffer_ (data_ vec) = Ptr l 0 ∧
       heap s !! l = Some (block_of xs (capacity_ (data_ vec))).
Proof.
  destruct vec as [[buf c] n]. intros (Hn & Hle & Hbuf)%holds_unfold Hxs.
  destruct buf as [|l off]; cbn in *.
  - destruct xs; [done|]. cbn in *. lia.
  - destruct Hbuf as [-> Hl]. eauto.
Qed.


(** Copy assignment between two different sequences. *)
Lemma wp_Vector_copy_assign `{!Faithful T Args E W} this rhs va vb xs ys s :
  this ≠ rhs →
  vectors s !! this = Some va → vectors s !! rhs = Some vb →
  holds s va xs → holds s vb ys → separate va vb →
  wp (Vector_copy_assign this rhs)
     (λ _ s', ∃ va',
        vectors s' !! this = Some va' ∧ holds s' va' ys ∧
        size_ va' = size_ vb ∧
        (size_ vb ≤ capacity_ (data_ va) → data_ va' = data_ va) ∧
        vectors s' !! rhs = Some vb ∧ holds s' vb ys)
     (λ _ _, True) s.
Proof.
  intros Hne Hva Hvb Ha Hb Hsep.
  destruct s as [h r v w]. cbn [vectors] in *.
  unfold Vector_copy_assign. rewrite bool_decide_true by done.
  apply wp_bind. eapply wp_load_size; [done|].
  apply wp_bind. eapply wp_RawMemory_Capacity; [by apply deref_data_of|].
  case_bool_decide as Hgrow.
  - (* copy and exchange *)
    assert (ys ≠ []) as Hys.
    { intros ->. destruct Hb as [Hb _]. rewrite Hb in Hgrow. cbn in Hgrow. lia. }
    destruct (block_of_nil_or_block _ _ _ Hb Hys) as (lb & Hbufb & Hlb).
    destruct vb as [[bufb cb] nb], va as [[bufa ca] na].
    apply holds_unfold in Ha as (Hna & Hlea & Hbufa).
    pose proof Hb as (Hnb & Hleb & _)%holds_unfold.
    cbn [heap size_ data_ capacity_ buffer_] in *. subst na nb bufb.
    unfold local_Vector. apply wp_bind.
    eapply wp_Vector_copy_ctor; [done|done| |done|].
    { destruct ys; [done|]. cbn. lia. }
    intros w1 l' k Hl' Hk. apply wp_finally.
    assert (this ≠ k ∧ rhs ≠ k) as [??] by (split; congruence).
    eapply wp_Vector_Swap; [by rewrite lookup_insert_ne|by apply lookup_insert_eq|].
    eapply (wp_leave_Vector k bufa ca xs); [by apply lookup_insert_eq|done| |].
    { destruct bufa as [|la off]; [done|]. destruct Hbufa as [-> Hla].
      split; [done|]. rewrite lookup_insert_ne; [done|congruence]. }
    intros w2.
    assert (Hla : ∀ la off, bufa = Ptr la off → la ≠ lb ∧ la ≠ l').
    { intros la off ->. destruct Hbufa as [_ Hla].
      split; [by eapply Hsep|congruence]. }
    cbn [vectors]. eexists. split.
    { rewrite lookup_delete_ne, lookup_insert_ne, lookup_insert_eq by done. done. }
    split; [|split; [done|split; [cbn; lia|split]]].
    + apply holds_unfold. cbn [heap]. split; [done|]. split; [done|]. split; [done|].
      unfold block_of. rewrite Nat.sub_diag, app_nil_r.
      destruct bufa as [|la off]; cbn [released].
      * by rewrite lookup_insert_eq.
      * destruct (Hla la off eq_refl). by rewrite lookup_delete_ne, lookup_insert_eq.
    + rewrite lookup_delete_ne, !lookup_insert_ne by done. done.
    + apply holds_unfold. cbn [heap]. split; [done|]. split; [done|]. split; [done|].
      assert (lb ≠ l') by congruence.
      destruct bufa as [|la off]; cbn [released].
      * by rewrite lookup_insert_ne.
      * destruct (Hla la off eq_refl). by rewrite lookup_delete_ne, lookup_insert_ne.
  - (* the capacity suffices *)
    destruct vb as [[bufb cb] nb], va as [[bufa ca] na].
    apply holds_unfold in Ha as (Hna & Hlea & Hbufa).
    pose proof Hb as (Hnb & Hleb & Hbufb)%holds_unfold.
    cbn [heap size_ data_ capacity_ buffer_] in *. subst na nb.
    assert (Hfit : length ys ≤ ca) by lia. clear Hgrow.
    apply wp_bind. eapply wp_load_size; [done|]. cbn [size_].
    apply wp_bind. eapply wp_GetAddress; [by apply deref_data_of|].
    apply wp_bind. eapply wp_GetAddress; [by apply deref_data_of|].
    cbn [buffer_ data_].
    (* what is left to do once the slots hold the new elements *)
    assert (Hdone : ∀ la h' w',
      bufa = Ptr la 0 →
      h' !! la = Some (block_of ys ca) →
      (∀ lb off, bufb = Ptr lb off → h' !! lb = h !! lb) →
      wp (store (size_of this) (length ys))
         (λ _ s', ∃ va',
            vectors s' !! this = Some va' ∧ holds s' va' ys ∧
            size_ va' = length ys ∧
            (length ys ≤ ca → data_ va' = mkRawMemory bufa ca) ∧
            vectors s' !! rhs = Some (mkVector (mkRawMemory bufb cb) (length ys)) ∧
            holds s' (mkVector (mkRawMemory bufb cb) (length ys)) ys)
         (λ (_ : E) (_ : State), True) (mkState h' r v w')).
    { intros la h' w' -> Hla' Hframe. eapply wp_store_size; [done|].
      cbn [vectors data_]. eexists. rewrite lookup_insert_eq. split; [done|].
      split; [by apply holds_unfold|]. split; [done|]. split; [done|].
      rewrite lookup_insert_ne by done. split; [done|].
      apply holds_unfold. cbn [heap]. split; [done|]. split; [done|].
      destruct bufb as [|lb off]; [done|]. destruct Hbufb as [-> Hlb].
      split; [done|]. by rewrite (Hframe lb 0). }
    destruct (decide (ys = [])) as [->|Hys].
    + (* nothing to copy *)
      cbn [length] in *. unfold CopyN. cbn [CopyN_from].
      case_bool_decide as Hshrink.
      * destruct bufa as [|la off]; [lia|]. destruct Hbufa as [-> Hla].
        apply wp_bind, wp_bind, wp_ret. cbn [ptr_add Nat.add].
        eapply (wp_destroy_n la 0 _ xs []); [done|done|lia|]. intros w1.
        eapply Hdone; [done| |].
        -- rewrite lookup_insert_eq. unfold block_of. cbn [app length fmap list_fmap].
           rewrite <- replicate_add. do 2 f_equal. lia.
        -- intros lb off ->. rewrite lookup_insert_ne; [done|].
           intros <-. by eapply (Hsep la 0 la off).
      * assert (xs = []) as -> by (apply nil_length_inv; lia).
        apply wp_bind, wp_bind, wp_ret. cbn [length Nat.sub].
        unfold uninitialized_copy_n. cbn [uninitialized_copy_from]. apply wp_ret.
        eapply wp_store_size; [done|].
        cbn [vectors data_]. eexists. rewrite lookup_insert_eq. split; [done|].
        split; [by apply holds_unfold|]. split; [done|]. split; [done|].
        rewrite lookup_insert_ne by done. split; [done|]. by apply holds_unfold.
    + destruct (block_of_nil_or_block _ _ _ Hb Hys) as (lb & Hb' & Hlb).
      cbn [heap size_ data_ capacity_ buffer_] in *. subst bufb.
      destruct bufa as [|la off]; [destruct ys; cbn in *; [done|lia]|].
      destruct Hbufa as [-> Hla].
      assert (lb ≠ la) by (intros <-; by eapply (Hsep lb 0 lb 0)).
      case_bool_decide as Hshrink.
      * (* overwrite, then destroy what is left over *)
        apply wp_bind, wp_bind. unfold CopyN.
        eapply (wp_CopyN_from lb 0 la 0 0 _ ys (take (length ys) xs) [] _ []
                  ((Some <$> drop (length ys) xs) ++ replicate (ca - length xs) None));
          [done|by rewrite Hlb|done| |done|done|rewrite length_take; lia| |done].
        { rewrite Hla. unfold block_of. cbn [app]. f_equal.
          rewrite app_assoc, <- fmap_app, take_drop. done. }
        intros w1 zs ->%Forall2_copy_assigned. cbn [app ptr_add Nat.add].
        eapply (wp_destroy_n la _ _ (drop (length ys) xs) (Some <$> ys));
          [by rewrite lookup_insert_eq|by rewrite length_fmap
          |by rewrite length_drop|].
        intros w2. rewrite insert_insert_eq.
        eapply Hdone; [done| |].
        -- rewrite lookup_insert_eq. unfold block_of.
           rewrite <- replicate_add. do 3 f_equal. lia.
        -- intros lb' off [= <- <-]. by rewrite lookup_insert_ne.
      * (* overwrite, then construct what is missing *)
        apply wp_bind, wp_bind. unfold CopyN.
        eapply (wp_CopyN_from lb 0 la 0 0 _ (take (length xs) ys) xs []
                  ((Some <$> drop (length xs) ys) ++ replicate (cb - length ys) None) []
                  (replicate (ca - length xs) None));
          [done| |done|by rewrite Hla|done|rewrite length_take; lia|done| |done].
        { rewrite Hlb. unfold block_of. cbn [app]. f_equal.
          by rewrite app_assoc, <- fmap_app, take_drop. }
        intros w1 zs ->%Forall2_copy_assigned. cbn [app ptr_add Nat.add].
        unfold uninitialized_copy_n.
        eapply (wp_uninitialized_copy_from lb _ la _ 0 _ (drop (length xs) ys) []
                  (Some <$> take (length xs) ys) (replicate (cb - length ys) None)
                  (Some <$> take (length xs) ys) (replicate (ca - length ys) None));
          [done| |rewrite length_fmap, length_take; lia| 
          |rewrite length_fmap, length_take; lia|done|by rewrite length_drop| |done].
        { rewrite lookup_insert_ne, Hlb by done. unfold block_of. f_equal.
          by rewrite app_assoc, <- fmap_app, take_drop. }
        { rewrite lookup_insert_eq. cbn [fmap list_fmap app]. do 2 f_equal.
          rewrite <- replicate_add. f_equal. lia. }
        intros w2 zs ->%Forall2_copied. rewrite insert_insert_eq. cbn [app].
        eapply Hdone; [done| |].
        -- rewrite lookup_insert_eq. unfold block_of. f_equal.
           by rewrite app_assoc, <- fmap_app, take_drop.
        -- intros lb' off [= <- <-]. by rewrite lookup_insert_ne.
Qed.
End Exchange.

#[global] Instance int_faithful : Faithful Z Z exception unit.
Proof. split; cbn; intros; congruence. Qed.

#[global] Instance fragile_faithful : Faithful Z Z exception (list exception).
Proof.
  split; cbn; intros; try congruence.
  destruct (x <? 0)%Z; congruence.
Qed.

Section Claims.
Context {T Args E W : Type} `{!Element T Args E W}.

#[local] Abbreviation State := (State T W).
#[local] Abbreviation M := (M T E W).

Implicit Types (s : State) (vec : Vector) (xs ys : list T).

(** C1, as amended. Move assignment exchanges the states of its two
    operands, for a [RawMemory] as for a [Vector], and touches no block: the
    target ends with the state of the source and the source with the state
    the target had, so the source ends in the empty state when the target was
    in the empty state before the assignment. *)
Theorem move_assign_exchanges s :
  (∀ a b ma mb,
     raws s !! a = Some ma → raws s !! b = Some mb →
     ∃ s', RawMemory_move_assign (E := E) (raw_at a) (raw_at b) s = (s', Normal tt) ∧
       raws s' !! a = Some mb ∧ raws s' !! b = Some ma ∧ heap s' = heap s ∧
       (empty_storage ma → ∃ m, raws s' !! b = Some m ∧ empty_storage m)) ∧
  (∀ this rhs va vb,
     vectors s !! this = Some va → vectors s !! rhs = Some vb →
     ∃ s', Vector_move_assign (E := E) this rhs s = (s', Normal tt) ∧
       vectors s' !! this = Some vb ∧ vectors s' !! rhs = Some va ∧ heap s' = heap s ∧
       (empty_sequence va → ∃ v', vectors s' !! rhs = Some v' ∧ empty_sequence v')).
Proof.
  destruct s as [h r v w]. cbn [raws vectors heap]. split.
  - intros a b ma mb Ha Hb.
    assert (Hwp : wp (RawMemory_move_assign (E := E) (raw_at a) (raw_at b))
      (λ _ s', s' = mkState h (<[b := ma]> (<[a := mb]> r)) v w) (λ _ _, False)
      (mkState h r v w)) by (by eapply wp_RawMemory_Swap_raws).
    apply wp_run in Hwp as (s' & [[]|e|] & Hrun & Hs'); [subst s'|done..].
    eexists. split; [done|]. cbn [raws heap]. rewrite lookup_insert_eq.
    assert (<[b:=ma]> (<[a:=mb]> r) !! a = Some mb) as ->.
    { destruct (decide (b = a)) as [->|].
      - rewrite lookup_insert_eq. congruence.
      - by rewrite lookup_insert_ne, lookup_insert_eq. }
    repeat split; eauto.
  - intros this rhs va vb Hthis Hrhs.
    assert (Hwp : wp (Vector_move_assign (E := E) this rhs)
      (λ _ s', s' = mkState h r (<[rhs := va]> (<[this := vb]> v)) w) (λ _ _, False)
      (mkState h r v w)) by (by eapply wp_Vector_Swap).
    apply wp_run in Hwp as (s' & [[]|e|] & Hrun & Hs'); [subst s'|done..].
    eexists. split; [done|]. cbn [vectors heap]. rewrite lookup_insert_eq.
    assert (<[rhs:=va]> (<[this:=vb]> v) !! this = Some vb) as ->.
    { destruct (decide (rhs = this)) as [->|].
      - rewrite lookup_insert_eq. congruence.
      - by rewrite lookup_insert_ne, lookup_insert_eq. }
    repeat split; eauto.
Qed.

(** C4. When [size == capacity], the new storage has been allocated and the
    construction of the new element in it fails, [EmplaceBack] throws that
    failure and leaves the sequence as it was: the same object (size,
    capacity, block) and a heap in which every block is what it was, so that
    the sequence still holds the same elements. *)
Theorem EmplaceBack_strong_guarantee s s' this vec xs args w1 w2 e out :
  vectors s !! this = Some vec → holds s vec xs →
  size_ vec = capacity_ (data_ vec) →
  allocate (1 `max` (2 * size_ vec)) (world s) = (w1, None) →
  construct args w1 = (w2, inl e) →
  EmplaceBack this args s = (s', out) →
  out = Throw e ∧ vectors s' = vectors s ∧ heap s' = heap s ∧ holds s' vec xs.
Proof.
  intros Hv Hh Hfull Ha Hc Hrun.
  pose proof (wp_EmplaceBack_construction_fails _ _ _ _ _ _ _ _ Hv Hh Hfull Ha Hc) as Hwp.
  apply (wp_elim _ _ _ _ _ _ Hwp) in Hrun.
  destruct out as [p|e'|]; [done| |done]. destruct Hrun as [-> ->].
  cbn [vectors heap]. do 3 (split; [done|]). exact Hh.
Qed.

(** C5. Copy assignment between two different sequences follows the
    three-case rule of the specification, has no undefined behaviour, and
    when it returns the target holds the elements of [rhs] with the size of
    [rhs], [rhs] is what it was, and the storage of the target (so its
    capacity) is unchanged whenever [rhs.size] fits in it. *)
Theorem copy_assign_copies `{!Faithful T Args E W} s s' this rhs va vb xs ys out :
  this ≠ rhs →
  vectors s !! this = Some va → vectors s !! rhs = Some vb →
  holds s va xs → holds s vb ys → separate va vb →
  Vector_copy_assign this rhs s = (s', out) →
  Vector_copy_assign this rhs s = copy_assign_by_cases this rhs s ∧
  out ≠ Undefined ∧
  (out = Normal tt →
   ∃ va', vectors s' !! this = Some va' ∧ holds s' va' ys ∧
          size_ va' = size_ vb ∧
          (size_ vb ≤ capacity_ (data_ va) → data_ va' = data_ va) ∧
          vectors s' !! rhs = Some vb ∧ holds s' vb ys).
Proof.
  intros Hne Hva Hvb Ha Hb Hsep Hrun. split.
  - clear Hrun. unfold Vector_copy_assign, copy_assign_by_cases.
    rewrite bool_decide_true by done. unfold mbind, M_bind, bind.
    destruct (load (size_of rhs) s) as [s1 [rhs_size| |]]; [|done..].
    destruct (RawMemory_Capacity (data_of this) s1) as [s2 [capacity| |]]; [|done..].
    case_bool_decide; [done|].
    destruct (load (size_of this) s2) as [s3 [size| |]]; [|done..].
    destruct (GetAddress (data_of rhs) s3) as [s4 [from| |]]; [|done..].
    destruct (GetAddress (data_of this) s4) as [s5 [to| |]]; [|done..].
    do 2 case_bool_decide; try done; try lia.
    assert (rhs_size = size) as -> by lia. by rewrite Nat.sub_diag.
  - pose proof (wp_Vector_copy_assign _ _ _ _ _ _ _ Hne Hva Hvb Ha Hb Hsep) as Hwp.
    apply (wp_elim _ _ _ _ _ _ Hwp) in Hrun.
    destruct out as [[]|e|]; [|done..]. split; [done|]. by intros _.
Qed.

(** C6. [EmplaceBack] has no undefined behaviour on a well-formed sequence,
    and when it returns the sequence holds its former elements followed by
    the new one, which sits in slot [size]; the size has grown by one; the
    storage is the same when there was room ([size < capacity]) and has
    capacity [max(1, 2*size)] when there was none. *)
Theorem EmplaceBack_appends `{!Faithful T Args E W} s s' this vec xs args out :
  vectors s !! this = Some vec → holds s vec xs →
  EmplaceBack this args s = (s', out) →
  out ≠ Undefined ∧
  ∀ p, out = Normal p →
    ∃ vec' x,
      vectors s' !! this = Some vec' ∧ holds s' vec' (xs ++ [x]) ∧
      constructed args x ∧
      size_ vec' = size_ vec + 1 ∧
      p = buffer_ (data_ vec') +ₚ size_ vec ∧
      (size_ vec < capacity_ (data_ vec) → data_ vec' = data_ vec) ∧
      (size_ vec = capacity_ (data_ vec) →
       capacity_ (data_ vec') = 1 `max` (2 * size_ vec)).
Proof.
  intros Hv Hh Hrun.
  apply (wp_elim _ _ _ _ _ _ (wp_EmplaceBack _ _ _ args _ Hv Hh)) in Hrun.
  destruct out as [p|e|]; [|done..]. split; [done|]. intros ? [= <-].
  destruct Hrun as (vec' & x & ? & ? & ? & ? & ? & Hcap).
  exists vec', x. do 5 (split; [done|]). split.
  - intros ?. by rewrite decide_False in Hcap by lia.
  - intros ?. by rewrite decide_True in Hcap by done.
Qed.


(** C8. Inserting at an interior position [P < size] of a sequence with
    [size < capacity] has no undefined behaviour, and when it returns the new
    value is at position [P], the former elements of [P, size) follow it in
    order, the elements before [P] are untouched, the size has grown by one,
    the storage (so the capacity) is the same, and the result is the
    position of the inserted element. *)
Theorem Emplace_inside `{!Faithful T Args E W} s s' this vec xs P args out :
  vectors s !! this = Some vec → holds s vec xs →
  P < size_ vec → size_ vec < capacity_ (data_ vec) →
  Emplace this (buffer_ (data_ vec) +ₚ P) args s = (s', out) →
  out ≠ Undefined ∧
  ∀ p, out = Normal p →
    ∃ vec' x,
      vectors s' !! this = Some vec' ∧
      holds s' vec' (take P xs ++ x :: drop P xs) ∧
      constructed args x ∧
      size_ vec' = size_ vec + 1 ∧
      data_ vec' = data_ vec ∧
      p = buffer_ (data_ vec') +ₚ P.
Proof.
  intros Hv Hh HP Hroom Hrun.
  apply (wp_elim _ _ _ _ _ _ (wp_Emplace_in_place _ _ _ _ args _ Hv Hh HP Hroom)) in Hrun.
  destruct out as [p|e|]; [|done..]. split; [done|]. by intros ? [= <-].
Qed.

(** C9. Removing the element at a position [P < size] has no undefined
    behaviour, and when it returns the elements after [P] have moved one
    position down in order, those before [P] are untouched, the size has
    shrunk by one, the storage (so the capacity) is the same, and the result
    is the position given, where the element that followed the removed one
    now is. *)
Theorem Erase_inside `{!Faithful T Args E W} s s' this vec xs P out :
  vectors s !! this = Some vec → holds s vec xs →
  P < size_ vec →
  Erase this (buffer_ (data_ vec) +ₚ P) s = (s', out) →
  out ≠ Undefined ∧
  ∀ p, out = Normal p →
    ∃ vec',
      vectors s' !! this = Some vec' ∧
      holds s' vec' (take P xs ++ drop (S P) xs) ∧
      size_ vec' = size_ vec - 1 ∧
      data_ vec' = data_ vec ∧
      p = buffer_ (data_ vec) +ₚ P ∧
      (take P xs ++ drop (S P) xs) !! P = xs !! S P.
Proof.
  intros Hv Hh HP Hrun.
  apply (wp_elim _ _ _ _ _ _ (wp_Erase _ _ _ _ _ Hv Hh HP)) in Hrun.
  destruct out as [p|e|]; [|done..]. split; [done|]. intros ? [= <-].
  destruct Hrun as (vec' & ? & ? & ? & ? & ?). exists vec'.
  do 5 (split; [done|]).
  destruct Hh as (Hn & _). rewrite Hn in HP.
  rewrite lookup_app_r by (rewrite length_take; lia).
  rewrite length_take, lookup_drop. f_equal. lia.
Qed.

(** C10. Copy-assigning a sequence to itself does nothing: the state after
    the call is the state before it. *)
Theorem copy_assign_self s this :
  Vector_copy_assign this this s = (s, Normal tt).
Proof.
  unfold Vector_copy_assign. by rewrite bool_decide_false by (by intros ?).
Qed.
End Claims.

(** ** The claims on concrete sequences *)




(** C1, refuted as stated: after [A = std::move(B)] with a target that was
    not empty, the source is not empty; it holds what the target held. *)
Lemma move_assign_source_not_empty :
  (∃ s' m,
     RawMemory_move_assign (E := exception) (raw_at 1) (raw_at 3) exchange_state
       = (s', Normal tt) ∧
     raws s' !! 3%positive = Some m ∧ ¬ empty_storage m) ∧
  (∃ s' v,
     Vector_move_assign (E := exception) 1 2 exchange_state = (s', Normal tt) ∧
     vectors s' !! 2%positive = Some v ∧ ¬ empty_sequence v).
Proof.
  split.
  - eexists _, _. split; [vm_compute; reflexivity|].
    split; [vm_compute; reflexivity|]. by intros [? _].
  - eexists _, _. split; [vm_compute; reflexivity|].
    split; [vm_compute; reflexivity|]. by intros [? _].
Qed.

(** Assigning to an empty target leaves the source empty. *)
Lemma move_assign_exchanges_witness :
  (∃ s',
     RawMemory_move_assign (E := exception) (raw_at 2) (raw_at 1) exchange_state
       = (s', Normal tt) ∧
     raws s' !! 2%positive = Some (mkRawMemory (Ptr 7 0) 2) ∧
     raws s' !! 1%positive = Some (mkRawMemory nullptr 0) ∧
     heap s' = heap exchange_state ∧
     (empty_storage (mkRawMemory nullptr 0) →
      ∃ m, raws s' !! 1%positive = Some m ∧ empty_storage m)) ∧
  (∃ s',
     Vector_move_assign (E := exception) 3 1 exchange_state = (s', Normal tt) ∧
     vectors s' !! 3%positive = Some (mkVector (mkRawMemory (Ptr 2 0) 2) 2) ∧
     vectors s' !! 1%positive = Some Vector_default ∧
     heap s' = heap exchange_state ∧
     (empty_sequence Vector_default →
      ∃ v', vectors s' !! 1%positive = Some v' ∧ empty_sequence v')).
Proof.
  split.
  - apply (proj1 (move_assign_exchanges (E := exception) exchange_state)
             2%positive 1%positive); vm_compute; reflexivity.
  - apply (proj2 (move_assign_exchanges (E := exception) exchange_state)
             3%positive 1%positive); vm_compute; reflexivity.
Defined.

(** C2, on a failing input: the copy of [-2] throws while [Emplace] moves
    the elements into the new storage, and [Emplace] returns normally. *)
Theorem Emplace_swallows_copy_failure :
  (PushBack 1 1%Z;; PushBack 1 (-2)%Z) fragile_empty = (fragile_full, Normal tt) ∧
  Emplace 1 (Ptr 2 1) 99%Z fragile_full = (fragile_broken, Normal (Ptr 3 1)) ∧
  world fragile_full = [] ∧
  world fragile_broken = [copy_failed (-2)].
Proof. concrete. Qed.

(** C3, on the same input: the sequence is well formed before the call and
    is not after it (its size is 3 and no slot of its block is live). *)
Theorem Emplace_breaks_invariant :
  well_formed fragile_full 1 ∧
  Emplace 1 (Ptr 2 1) 99%Z fragile_full = (fragile_broken, Normal (Ptr 3 1)) ∧
  ¬ well_formed fragile_broken 1.
Proof.
  split; [|split; [vm_compute; reflexivity|]].
  - eexists _, [1; -2]%Z. split; [vm_compute; reflexivity|]. concrete.
  - intros (v & xs & Hv & Hn & _ & Hb). vm_compute in Hv.
    injection Hv as <-. cbn in Hn, Hb. destruct Hb as [_ Hb].
    destruct xs as [|x xs]; [done|]. vm_compute in Hb. discriminate.
Qed.

Lemma EmplaceBack_strong_guarantee_witness :
  EmplaceBack 1 0%Z fragile_full
    = (set_world [construction_failed] fragile_full, Throw construction_failed) ∧
  vectors (set_world [construction_failed] fragile_full) = vectors fragile_full ∧
  heap (set_world [construction_failed] fragile_full) = heap fragile_full ∧
  holds (set_world [construction_failed] fragile_full)
        (mkVector (mkRawMemory (Ptr 2 0) 2) 2) [1; -2]%Z.
Proof.
  split; [vm_compute; reflexivity|].
  apply (EmplaceBack_strong_guarantee fragile_full
           (set_world [construction_failed] fragile_full) 1
           (mkVector (mkRawMemory (Ptr 2 0) 2) 2) [1; -2]%Z 0%Z []
           [construction_failed] construction_failed (Throw construction_failed)).
  all: concrete.
Defined.

Lemma copy_assign_copies_witness :
  Vector_copy_assign 1 2 two_sequences = (copied_into, Normal tt) ∧
  Vector_copy_assign 1 2 two_sequences = copy_assign_by_cases 1 2 two_sequences ∧
  ∃ va',
    vectors copied_into !! 1%positive = Some va' ∧
    holds copied_into va' [9; 9; 9]%Z ∧ size_ va' = 3 ∧
    vectors copied_into !! 2%positive = Some (mkVector (mkRawMemory (Ptr 5 0) 4) 3).
Proof.
  assert (Hrun : Vector_copy_assign 1 2 two_sequences = (copied_into, Normal tt))
    by (vm_compute; reflexivity).
  split; [exact Hrun|].
  destruct (copy_assign_copies two_sequences copied_into 1 2
              (mkVector (mkRawMemory (Ptr 2 0) 2) 2)
              (mkVector (mkRawMemory (Ptr 5 0) 4) 3)
              [1; 2]%Z [9; 9; 9]%Z (Normal tt)) as (Hcases & _ & Hpost).
  - done.
  - vm_compute; reflexivity.
  - vm_compute; reflexivity.
  - concrete.
  - concrete.
  - intros l off l' off'. cbn. congruence.
  - exact Hrun.
  - split; [exact Hcases|].
    destruct (Hpost eq_refl) as (va' & Hv & Hh & Hsz & _ & Hv2 & _).
    exists va'. split; [exact Hv|]. split; [exact Hh|]. split; [exact Hsz|exact Hv2].
Defined.

(** Appending [3] to the full sequence [[1,2]] of capacity 2 gives
    [[1,2,3]] of capacity 4. *)
Lemma EmplaceBack_appends_witness :
  EmplaceBack 1 3%Z two_sequences = (three_appended, Normal (Ptr 6 2)) ∧
  ∃ vec',
    vectors three_appended !! 1%positive = Some vec' ∧
    holds three_appended vec' [1; 2; 3]%Z ∧
    size_ vec' = 3 ∧ capacity_ (data_ vec') = 4.
Proof.
  assert (Hrun : EmplaceBack 1 3%Z two_sequences = (three_appended, Normal (Ptr 6 2)))
    by (vm_compute; reflexivity).
  split; [exact Hrun|].
  destruct (EmplaceBack_appends two_sequences three_appended 1
              (mkVector (mkRawMemory (Ptr 2 0) 2) 2) [1; 2]%Z 3%Z
              (Normal (Ptr 6 2))) as [_ Hpost].
  - vm_compute; reflexivity.
  - concrete.
  - exact Hrun.
  - destruct (Hpost _ eq_refl)
      as (vec' & x & Hv & Hh & (w & w' & Hx) & Hsz & _ & _ & Hcap).
    exists vec'. cbn in Hx. injection Hx as _ <-.
    split; [exact Hv|]. split; [exact Hh|]. split; [exact Hsz|]. exact (Hcap eq_refl).
Defined.


(** Inserting [99] at position 2 of [[1,2,3,4,5]] gives [[1,2,99,3,4,5]] of
    size 6. *)
Lemma Emplace_inside_witness :
  Emplace 1 (Ptr 4 2) 99%Z one_to_five = (with_99, Normal (Ptr 4 2)) ∧
  ∃ vec',
    vectors with_99 !! 1%positive = Some vec' ∧
    holds with_99 vec' [1; 2; 99; 3; 4; 5]%Z ∧
    size_ vec' = 6 ∧ capacity_ (data_ vec') = 8.
Proof.
  assert (Hrun : Emplace 1 (Ptr 4 2) 99%Z one_to_five = (with_99, Normal (Ptr 4 2)))
    by (vm_compute; reflexivity).
  split; [exact Hrun|].
  destruct (Emplace_inside one_to_five with_99 1
              (mkVector (mkRawMemory (Ptr 4 0) 8) 5) [1; 2; 3; 4; 5]%Z 2 99%Z
              (Normal (Ptr 4 2))) as [_ Hpost].
  - vm_compute; reflexivity.
  - concrete.
  - cbn; lia.
  - cbn; lia.
  - exact Hrun.
  - destruct (Hpost _ eq_refl) as (vec' & x & Hv & Hh & (w & w' & Hx) & Hsz & Hd & _).
    exists vec'. cbn in Hx. injection Hx as _ <-.
    split; [exact Hv|]. split; [exact Hh|]. split; [exact Hsz|]. by rewrite Hd.
Defined.

(** Erasing position 2 of [[1,2,99,3,4,5]] gives [[1,2,3,4,5]] of size 5, and
    the position returned refers to [3]. *)
Lemma Erase_inside_witness :
  Erase 1 (Ptr 4 2) with_99 = (one_to_five, Normal (Ptr 4 2)) ∧
  ∃ vec',
    vectors one_to_five !! 1%positive = Some vec' ∧
    holds one_to_five vec' [1; 2; 3; 4; 5]%Z ∧
    size_ vec' = 5 ∧ capacity_ (data_ vec') = 8 ∧
    [1; 2; 3; 4; 5]%Z !! 2 = Some 3%Z.
Proof.
  assert (Hrun : Erase 1 (Ptr 4 2) with_99 = (one_to_five, Normal (Ptr 4 2)))
    by (vm_compute; reflexivity).
  split; [exact Hrun|].
  destruct (Erase_inside with_99 one_to_five 1
              (mkVector (mkRawMemory (Ptr 4 0) 8) 6) [1; 2; 99; 3; 4; 5]%Z 2
              (Normal (Ptr 4 2))) as [_ Hpost].
  - vm_compute; reflexivity.
  - concrete.
  - cbn; lia.
  - exact Hrun.
  - destruct (Hpost _ eq_refl) as (vec' & Hv & Hh & Hsz & Hd & _ & Hnext).
    exists vec'.
    split; [exact Hv|]. split; [exact Hh|]. split; [exact Hsz|].
    split; [by rewrite Hd|exact Hnext].
Defined.

(** * Further properties of the operations *)

Section Removal.
Context {T Args E W : Type} `{!Element T Args E W}.

#[local] Abbreviation State := (State T W).
#[local] Abbreviation M := (M T E W).

Implicit Types (h : gmap loc (list (option T))) (r : gmap obj RawMemory).
Implicit Types (v : gmap obj Vector) (w : W) (s : State).
Implicit Types (vec : Vector) (X : E → State → Prop) (xs ys zs : list T).

(** [std::destroy_n] with the effect of the destructors on the outside
    world: they run on the elements in order. *)
Lemma wp_destroy_n_world l off n xs pre post Q X h r v w :
  h !! l = Some (pre ++ (Some <$> xs) ++ post) →
  off = length pre → n = length xs →
  Q tt (mkState (<[l := pre ++ replicate n None ++ post]> h) r v
          (foldl (λ w' x, destroy x w') w xs)) →
  wp (destroy_n (Ptr l off) n) Q X (mkState h r v w).
Proof.
  revert off n pre h w.
  induction xs as [|x xs IH]; intros off n pre h w Hl -> -> HQ.
  - apply wp_ret. by rewrite insert_id in HQ.
  - cbn [length destroy_n]. apply wp_bind.
    eapply wp_destroy_at; [exact Hl|by apply seg_lookup|].
    rewrite fmap_cons. cbn [app]. rewrite seg_insert by done.
    eapply (IH _ _ (pre ++ [None])).
    + rewrite lookup_insert_eq. by rewrite <- app_assoc.
    + rewrite length_app. cbn. lia.
    + done.
    + rewrite insert_insert_eq, <- app_assoc. apply HQ.
Qed.

Lemma block_of_last xs x c :
  length xs < c →
  block_of (xs ++ [x]) c = (Some <$> xs) ++ (Some <$> [x]) ++ replicate (c - S (length xs)) None.
Proof. intros. by rewrite block_of_snoc. Qed.

(** [PopBack] on a sequence that is not empty. *)
Lemma wp_PopBack this vec xs x s :
  vectors s !! this = Some vec → holds s vec (xs ++ [x]) →
  wp (PopBack this)
     (λ _ s', ∃ vec',
        vectors s' !! this = Some vec' ∧ holds s' vec' xs ∧
        size_ vec' = size_ vec - 1 ∧ data_ vec' = data_ vec ∧
        world s' = destroy x (world s))
     (λ _ _, False) s.
Proof.
  destruct s as [h r v w], vec as [[buf c] n]. cbn [vectors world].
  intros Hv (Hn & Hle & Hbuf)%holds_unfold.
  cbn [heap size_ data_ capacity_ buffer_] in *.
  rewrite length_app in Hn. cbn in Hn. subst n.
  destruct buf as [|l off]; [lia|]. destruct Hbuf as [-> Hl].
  rewrite block_of_last in Hl by lia.
  unfold PopBack. apply wp_bind. eapply wp_load_size; [done|]. cbn [size_].
  apply wp_bind. eapply wp_RawMemory_plus; [by apply deref_data_of|cbn; lia|].
  cbn [buffer_ data_ ptr_add Nat.add].
  apply wp_bind. unfold ptr_sub. rewrite bool_decide_true by lia. apply wp_ret.
  apply wp_bind.
  eapply (wp_destroy_n_world l _ 1 [x] (Some <$> xs));
    [done|rewrite length_fmap; lia|done|]. cbn [foldl].
  eapply wp_decrement_size; [done|cbn; lia|]. cbn [data_ size_ vectors world].
  eexists. rewrite lookup_insert_eq. split; [done|].
  split; [|done]. apply holds_unfold. cbn [heap].
  split; [lia|]. split; [lia|]. split; [done|].
  rewrite lookup_insert_eq. f_equal. rewrite block_of_split by lia.
  do 3 f_equal.
Qed.

(** X1. [PopBack] on a sequence that is not empty destroys the last
    element, once, and nothing else: the other elements, the buffer and the
    capacity are kept, the size goes down by one, and nothing is thrown. *)
Theorem PopBack_removes_last s s' this vec xs x out :
  vectors s !! this = Some vec → holds s vec (xs ++ [x]) →
  PopBack this s = (s', out) →
  out = Normal tt ∧
  ∃ vec', vectors s' !! this = Some vec' ∧ holds s' vec' xs ∧
          size_ vec' = size_ vec - 1 ∧ data_ vec' = data_ vec ∧
          world s' = destroy x (world s).
Proof.
  intros Hv Hh Hrun.
  apply (wp_elim _ _ _ _ _ _ (wp_PopBack _ _ _ _ _ Hv Hh)) in Hrun.
  by destruct out as [[]|e|].
Qed.

Lemma run_bind_Normal {A B} (m : M A) (f : A → M B) s s' a :
  m s = (s', Normal a) → (m ≫= f) s = f a s'.
Proof. intros Hm. unfold mbind, M_bind, bind. by rewrite Hm. Qed.

Lemma run_bind_Undefined {A B} (m : M A) (f : A → M B) s s' :
  m s = (s', Undefined) → (m ≫= f) s = (s', Undefined).
Proof. intros Hm. unfold mbind, M_bind, bind. by rewrite Hm. Qed.

Lemma run_load {Y} (p : ref T W Y) x s :
  deref p s = Some x → load (E := E) p s = (s, Normal x).
Proof. intros Hp. unfold load. by rewrite Hp. Qed.

(** X2. [PopBack] on an empty sequence is undefined behaviour: the
    source computes [data_ + size_ - 1] and [--size_] without a check. *)
Theorem PopBack_empty_undefined s this vec :
  vectors s !! this = Some vec → holds s vec [] →
  PopBack this s = (s, Undefined).
Proof.
  destruct s as [h r v w], vec as [[buf c] n]. cbn [vectors].
  intros Hv (Hn & Hle & Hbuf)%holds_unfold.
  cbn [heap size_ data_ capacity_ buffer_ length] in *. subst n.
  unfold PopBack.
  erewrite run_bind_Normal by (by apply run_load, deref_size_of). cbn [size_].
  erewrite run_bind_Normal; [|unfold RawMemory_plus;
    erewrite run_bind_Normal by (by apply run_load, deref_data_of);
    cbn [data_ capacity_ buffer_]; rewrite bool_decide_true by lia; reflexivity].
  apply run_bind_Undefined. destruct buf as [|l off]; [done|].
  by destruct Hbuf as [-> _].
Qed.
End Removal.

Section Access.
Context {T Args E W : Type} `{!Element T Args E W}.

#[local] Abbreviation State := (State T W).
#[local] Abbreviation M := (M T E W).

Implicit Types (h : gmap loc (list (option T))) (r : gmap obj RawMemory).
Implicit Types (v : gmap obj Vector) (w : W) (s : State).
Implicit Types (vec : Vector) (X : E → State → Prop) (xs ys zs : list T).

Lemma block_of_live xs c i x :
  xs !! i = Some x → block_of xs c !! i = Some (Some x).
Proof.
  intros Hi. unfold block_of. rewrite lookup_app_l.
  - by rewrite list_lookup_fmap, Hi.
  - rewrite length_fmap. by eapply lookup_lt_Some.
Qed.

Lemma run_Vector_index_in_range s this vec xs i x :
  vectors s !! this = Some vec → holds s vec xs →
  xs !! i = Some x →
  (p ← Vector_index this i; read (E := E) p) s = (s, Normal x) ∧
  Vector_index (E := E) this i s = (s, Normal (buffer_ (data_ vec) +ₚ i)).
Proof.
  destruct s as [h r v w], vec as [[buf c] n]. cbn [vectors].
  intros Hv (Hn & Hle & Hbuf)%holds_unfold Hi.
  cbn [heap size_ data_ capacity_ buffer_ length] in *. subst n.
  pose proof (lookup_lt_Some _ _ _ Hi) as Hlt.
  assert (Hrun : Vector_index (E := E) this i (mkState h r v w)
                 = (mkState h r v w, Normal (buf +ₚ i))).
  { unfold Vector_index.
    erewrite run_bind_Normal by (by apply run_load, deref_size_of). cbn [size_].
    rewrite bool_decide_true by done. unfold assert.
    erewrite run_bind_Normal by reflexivity.
    unfold RawMemory_index.
    erewrite run_bind_Normal by (by apply run_load, deref_data_of).
    cbn [data_ capacity_ buffer_]. rewrite bool_decide_true by lia. done. }
  split; [|done]. erewrite run_bind_Normal by exact Hrun.
  destruct buf as [|l off]; [lia|]. destruct Hbuf as [-> Hl].
  unfold read, slot. cbn. rewrite Hl. cbn.
  by rewrite (block_of_live _ _ _ _ Hi).
Qed.

Lemma run_Vector_index_out_of_range s this vec i :
  vectors s !! this = Some vec → size_ vec ≤ i →
  Vector_index (E := E) this i s = (s, Undefined).
Proof.
  destruct s as [h r v w]. cbn [vectors]. intros Hv Hle.
  unfold Vector_index.
  erewrite run_bind_Normal by (by apply run_load, deref_size_of).
  rewrite bool_decide_false by lia. done.
Qed.

(** X3. [operator[]] is defined for the indices below [size] only, also
    when the capacity is larger: there it gives the address [begin() + index],
    where the element of that index lives, and leaves the state untouched;
    any other index trips the assertion. *)
Theorem Vector_index_checked s this vec xs i :
  vectors s !! this = Some vec → holds s vec xs →
  Vector_index (E := E) this i s =
    (s, if decide (i < size_ vec)
        then Normal (buffer_ (data_ vec) +ₚ i) else Undefined) ∧
  ∀ x, xs !! i = Some x →
    (p ← Vector_index this i; read (E := E) p) s = (s, Normal x).
Proof.
  intros Hv Hh. split.
  - case_decide as Hi.
    + destruct Hh as [Hn ?]. rewrite Hn in Hi.
      destruct (lookup_lt_is_Some_2 xs i Hi) as [x Hx].
      by destruct (run_Vector_index_in_range s this vec xs i x).
    + apply (run_Vector_index_out_of_range s this vec i); [done|lia].
  - intros x Hx. by destruct (run_Vector_index_in_range s this vec xs i x).
Qed.

(** X4. The move constructor builds a new object that takes over the state
    of its source and leaves the source in the empty state; no block and no
    other object is touched. *)
Theorem Vector_move_ctor_takes_over s other vec :
  vectors s !! other = Some vec →
  ∃ s' k,
    Vector_move_ctor (E := E) other s = (s', Normal k) ∧
    vectors s !! k = None ∧
    vectors s' !! k = Some vec ∧
    vectors s' !! other = Some Vector_default ∧
    (∀ o, o ≠ k → o ≠ other → vectors s' !! o = vectors s !! o) ∧
    heap s' = heap s ∧ world s' = world s.
Proof.
  destruct s as [h r v w]. cbn [vectors heap world]. intros Hv.
  assert (Hwp : wp (Vector_move_ctor (E := E) other)
    (λ k s', v !! k = None ∧
       s' = mkState h r (<[k := vec]> (<[other := Vector_default]> v)) w)
    (λ _ _, False) (mkState h r v w)).
  { unfold Vector_move_ctor. apply wp_bind, wp_declare_vector. intros k Hk.
    assert (other ≠ k) by congruence.
    apply wp_bind.
    eapply wp_Vector_Swap; [by apply lookup_insert_eq|by rewrite lookup_insert_ne|].
    apply wp_ret. split; [done|]. f_equal. map_solve. }
  apply wp_run in Hwp as (s' & [k|e|] & Hrun & Hs'); [|done..].
  destruct Hs' as [Hk Hs']. subst s'. assert (other ≠ k) by congruence.
  eexists _, k. split; [exact Hrun|]. split; [done|]. cbn [vectors heap world].
  rewrite lookup_insert_eq, lookup_insert_ne, lookup_insert_eq by done.
  do 2 (split; [done|]). split; [|done].
  intros o ??. by rewrite !lookup_insert_ne.
Qed.

(** X5. [Swap] exchanges two sequences without touching a block, the order
    of its operands does not matter, and a second [Swap] undoes the first. *)
Theorem Vector_Swap_involutive s a b va vb :
  vectors s !! a = Some va → vectors s !! b = Some vb →
  ∃ s',
    Vector_Swap (E := E) a b s = (s', Normal tt) ∧
    Vector_Swap (E := E) b a s = (s', Normal tt) ∧
    vectors s' !! a = Some vb ∧ vectors s' !! b = Some va ∧
    heap s' = heap s ∧
    Vector_Swap (E := E) a b s' = (s, Normal tt).
Proof.
  destruct s as [h r v w]. cbn [vectors heap]. intros Ha Hb.
  set (v' := <[b := va]> (<[a := vb]> v)).
  assert (Hva : v' !! a = Some vb).
  { subst v'. destruct (decide (b = a)) as [->|].
    - rewrite lookup_insert_eq. congruence.
    - by rewrite lookup_insert_ne, lookup_insert_eq. }
  assert (Hvb : v' !! b = Some va) by (subst v'; by rewrite lookup_insert_eq).
  assert (H1 : wp (Vector_Swap (E := E) a b) (λ _ s', s' = mkState h r v' w)
                  (λ _ _, False) (mkState h r v w))
    by (by eapply wp_Vector_Swap).
  assert (H2 : wp (Vector_Swap (E := E) b a) (λ _ s', s' = mkState h r v' w)
                  (λ _ _, False) (mkState h r v w)).
  { eapply wp_Vector_Swap; [done..|]. f_equal. subst v'.
    apply map_eq. intros o. repeat (rewrite lookup_insert).
    repeat case_decide; simplify_eq; congruence. }
  assert (H3 : wp (Vector_Swap (E := E) a b) (λ _ s', s' = mkState h r v w)
                  (λ _ _, False) (mkState h r v' w)).
  { eapply wp_Vector_Swap; [done..|]. f_equal. subst v'.
    apply map_eq. intros o. repeat (rewrite lookup_insert).
    repeat case_decide; simplify_eq; congruence. }
  apply wp_run in H1 as (s1 & [[]|e|] & Hrun1 & Hs1); [subst s1|done..].
  apply wp_run in H2 as (s2 & [[]|e|] & Hrun2 & Hs2); [subst s2|done..].
  apply wp_run in H3 as (s3 & [[]|e|] & Hrun3 & Hs3); [subst s3|done..].
  by eexists.
Qed.

(** X6. [Emplace] at [end()] is [EmplaceBack]. *)
Theorem Emplace_at_end s this vec xs args :
  vectors s !! this = Some vec → holds s vec xs →
  Emplace this (buffer_ (data_ vec) +ₚ size_ vec) args s = EmplaceBack this args s.
Proof.
  destruct s as [h r v w], vec as [[buf c] n]. cbn [vectors].
  intros Hv (Hn & Hle & Hbuf)%holds_unfold.
  cbn [heap size_ data_ capacity_ buffer_ length] in *.
  unfold Emplace.
  erewrite run_bind_Normal; [|unfold Vector_end;
    erewrite run_bind_Normal by (by apply run_load, deref_size_of);
    unfold RawMemory_plus;
    erewrite run_bind_Normal by (by apply run_load, deref_data_of);
    cbn [size_ data_ capacity_ buffer_]; rewrite bool_decide_true by lia;
    reflexivity].
  erewrite run_bind_Normal by (by apply run_load, deref_size_of).
  erewrite run_bind_Normal
    by (by unfold RawMemory_Capacity; apply run_load, deref_capacity_of, deref_data_of).
  by rewrite bool_decide_true.
Qed.

(** X7. The destructor destroys the elements in order, first to last, and
    gives the block back; the object itself is untouched. *)
Theorem Vector_dtor_destroys_all s this vec xs :
  vectors s !! this = Some vec → holds s vec xs →
  Vector_dtor (E := E) this s =
    (mkState (released (buffer_ (data_ vec)) (heap s)) (raws s) (vectors s)
             (foldl (λ w x, destroy x w) (world s) xs), Normal tt).
Proof.
  destruct s as [h r v w], vec as [[buf c] n]. cbn [vectors heap raws world].
  intros Hv (Hn & Hle & Hbuf)%holds_unfold.
  cbn [heap size_ data_ capacity_ buffer_ length] in *. subst n.
  assert (Hwp : wp (Vector_dtor (E := E) this)
    (λ _ s', s' = mkState (released buf h) r v (foldl (λ w x, destroy x w) w xs))
    (λ _ _, False) (mkState h r v w)).
  { unfold Vector_dtor, RawMemory_dtor.
    apply wp_bind. eapply wp_GetAddress; [by apply deref_data_of|].
    apply wp_bind. eapply wp_load_size; [done|]. cbn [buffer_ data_ size_].
    apply wp_bind. destruct buf as [|l off].
    - assert (xs = []) as -> by (apply nil_length_inv; lia). apply wp_ret.
      apply wp_bind.
      eapply wp_load; [by eapply deref_buffer_of, deref_data_of|].
      by apply wp_Deallocate_null.
    - destruct Hbuf as [-> Hl].
      eapply (wp_destroy_n_world l 0 _ xs []); [done..|].
      apply wp_bind.
      eapply wp_load; [by eapply deref_buffer_of, deref_data_of|]. cbn [buffer_ data_].
      eapply wp_Deallocate_block; [by apply lookup_insert_eq|].
      cbn [released]. by rewrite delete_insert_eq. }
  apply wp_run in Hwp as (s' & [[]|e|] & Hrun & Hs'); [subst s'|done..]. done.
Qed.
End Access.

Section Construction.
Context {T Args E W : Type} `{!Element T Args E W}.

#[local] Abbreviation State := (State T W).
#[local] Abbreviation M := (M T E W).

Implicit Types (h : gmap loc (list (option T))) (r : gmap obj RawMemory).
Implicit Types (v : gmap obj Vector) (w : W) (s : State).
Implicit Types (vec : Vector) (X : E → State → Prop) (xs ys zs : list T).




(** The copy constructor, from any well-formed sequence. *)
Lemma wp_Vector_copy_ctor_any `{!Faithful T Args E W} other vo ys s :
  vectors s !! other = Some vo → holds s vo ys →
  wp (Vector_copy_ctor other)
     (λ k s', vectors s !! k = None ∧ raws s' = raws s ∧
        ∃ vk,
          vectors s' = <[k := vk]> (vectors s) ∧ holds s' vk ys ∧
          size_ vk = size_ vo ∧ capacity_ (data_ vk) = size_ vo ∧
          holds s' vo ys ∧ separate vk vo ∧
          (∀ l, is_Some (heap s !! l) → heap s' !! l = heap s !! l))
     (λ _ s', heap s' = heap s ∧ vectors s' = vectors s ∧ raws s' = raws s) s.
Proof.
  destruct s as [h r v w]. cbn [vectors heap raws]. intros Hv Hh.
  destruct (decide (ys = [])) as [->|Hys].
  - destruct vo as [[buf c] n]. apply holds_unfold in Hh as (Hn & Hle & Hbuf).
    cbn [heap size_ data_ capacity_ buffer_ length] in *. subst n.
    unfold Vector_copy_ctor, RawMemory_ctor, Allocate.
    apply wp_bind. eapply wp_load_size; [done|]. cbn [size_].
    rewrite bool_decide_false by lia.
    apply wp_bind, wp_bind, wp_ret, wp_ret, wp_bind, wp_declare_vector. intros k Hk.
    assert (other ≠ k) by congruence.
    apply wp_bind, wp_on_exception.
    apply wp_bind. eapply wp_GetAddress; [by apply deref_data_of; rewrite lookup_insert_ne|].
    apply wp_bind. eapply wp_GetAddress; [by apply deref_data_of, lookup_insert_eq|].
    apply wp_ret, wp_ret. cbn [vectors heap raws].
    do 2 (split; [done|]). eexists. split; [done|].
    split; [by apply holds_unfold|]. do 2 (split; [done|]).
    split; [by apply holds_unfold|]. split; [|done].
    intros ????. by cbn.
  - destruct (block_of_nil_or_block _ _ _ Hh Hys) as (lb & Hb & Hlb).
    destruct vo as [[buf c] n]. pose proof Hh as (Hn & Hle & _)%holds_unfold.
    cbn [heap size_ data_ capacity_ buffer_] in *. subst n buf.
    eapply wp_Vector_copy_ctor; [done|done| |done|].
    { destruct ys; [done|]. cbn. lia. }
    intros w1 l' k Hl' Hk. cbn [vectors heap raws].
    assert (lb ≠ l') by congruence.
    do 2 (split; [done|]). eexists. split; [done|]. split.
    { apply holds_unfold. cbn [heap]. do 2 (split; [done|]). split; [done|].
      rewrite lookup_insert_eq. unfold block_of. by rewrite Nat.sub_diag, app_nil_r. }
    do 2 (split; [done|]). split.
    { apply holds_unfold. cbn [heap]. do 2 (split; [done|]). split; [done|].
      by rewrite lookup_insert_ne. }
    split.
    { intros ???? [= <- <-] [= <- <-]. done. }
    intros l [b Hl]. rewrite lookup_insert_ne; [done|congruence].
Qed.

(** X9. The copy constructor builds a new sequence with the elements of
    its source, whatever the capacity of the source: the capacity of the copy
    is the size of the source, it owns a block of its own, and the source is
    what it was.  When it throws, the heap and the objects are what they
    were. *)
Theorem Vector_copy_ctor_copies `{!Faithful T Args E W} s s' other vo ys out :
  vectors s !! other = Some vo → holds s vo ys →
  Vector_copy_ctor other s = (s', out) →
  match out with
  | Normal k =>
      vectors s !! k = None ∧
      ∃ vk,
        vectors s' !! k = Some vk ∧ holds s' vk ys ∧
        size_ vk = size_ vo ∧ capacity_ (data_ vk) = size_ vo ∧
        vectors s' !! other = Some vo ∧ holds s' vo ys ∧ separate vk vo
  | Throw e => heap s' = heap s ∧ vectors s' = vectors s
  | Undefined => False
  end.
Proof.
  intros Hv Hh Hrun.
  apply (wp_elim _ _ _ _ _ _ (wp_Vector_copy_ctor_any _ _ _ _ Hv Hh)) in Hrun.
  destruct out as [k|e|]; [|by destruct Hrun as (? & ? & _)|done].
  destruct Hrun as (Hk & _ & vk & Hvs & ? & ? & ? & ? & ? & _).
  split; [done|]. exists vk. rewrite Hvs, lookup_insert_eq.
  rewrite lookup_insert_ne by congruence. done.
Qed.
End Construction.

Section Resizing.
Context {T Args E W : Type} `{!Element T Args E W}.

#[local] Abbreviation State := (State T W).
#[local] Abbreviation M := (M T E W).

Implicit Types (h : gmap loc (list (option T))) (r : gmap obj RawMemory).
Implicit Types (v : gmap obj Vector) (w : W) (s : State).
Implicit Types (vec : Vector) (X : E → State → Prop) (xs ys zs : list T).

Lemma block_of_take_drop xs c n :
  n ≤ length xs → length xs ≤ c →
  block_of xs c = (Some <$> take n xs) ++ (Some <$> drop n xs) ++ replicate (c - length xs) None ∧
  block_of (take n xs) c =
    (Some <$> take n xs) ++ replicate (length xs - n) None ++ replicate (c - length xs) None.
Proof.
  intros Hn Hc. unfold block_of. split.
  - by rewrite app_assoc, <- fmap_app, take_drop.
  - rewrite length_take, Nat.min_l by done. rewrite <- replicate_add.
    do 2 f_equal. lia.
Qed.

Lemma wp_Resize_shrink this vec xs n s :
  vectors s !! this = Some vec → holds s vec xs → n ≤ size_ vec →
  wp (Resize this n)
     (λ _ s', ∃ vec',
        vectors s' !! this = Some vec' ∧ holds s' vec' (take n xs) ∧
        size_ vec' = n ∧ data_ vec' = data_ vec ∧
        world s' = foldl (λ w x, destroy x w) (world s) (drop n xs))
     (λ (_ : E) _, False) s.
Proof.
  destruct s as [h r v w], vec as [[buf c] sz]. cbn [vectors world].
  intros Hv (Hsz & Hle & Hbuf)%holds_unfold Hn.
  cbn [heap size_ data_ capacity_ buffer_] in *. subst sz.
  unfold Resize. apply wp_bind. eapply wp_load_size; [done|]. cbn [size_].
  case_bool_decide as Hgt.
  - apply wp_bind, wp_bind.
    eapply wp_GetAddress; [by apply deref_data_of|]. cbn [data_ buffer_].
    destruct buf as [|l off]; [lia|]. destruct Hbuf as [-> Hl].
    destruct (block_of_take_drop xs c n) as [Hb Hb']; [lia..|].
    cbn [ptr_add Nat.add].
    eapply wp_destroy_n_world;
      [by rewrite Hl, Hb|by rewrite length_fmap, length_take; lia
      |by rewrite length_drop|].
    eapply wp_store_size; [done|]. cbn [data_].
    eexists. cbn [vectors world]. rewrite lookup_insert_eq. split; [done|].
    split; [|done]. apply holds_unfold. cbn [heap].
    split; [rewrite length_take; lia|]. split; [lia|]. split; [done|].
    by rewrite lookup_insert_eq, Hb'.
  - assert (n = length xs) as -> by lia.
    rewrite bool_decide_false by lia. apply wp_bind, wp_ret.
    eapply wp_store_size; [done|]. cbn [data_].
    eexists. cbn [vectors world]. rewrite lookup_insert_eq. split; [done|].
    rewrite take_ge, drop_ge by done. split; [|done].
    by apply holds_unfold.
Qed.

(** X10. [Resize] to a size that is not larger destroys the elements
    from the new size on, each one once, keeps the first ones and the
    storage, and never throws. *)
Theorem Resize_shrinks s s' this vec xs n out :
  vectors s !! this = Some vec → holds s vec xs → n ≤ size_ vec →
  Resize this n s = (s', out) →
  out = Normal tt ∧
  ∃ vec', vectors s' !! this = Some vec' ∧ holds s' vec' (take n xs) ∧
          size_ vec' = n ∧ data_ vec' = data_ vec ∧
          world s' = foldl (λ w x, destroy x w) (world s) (drop n xs).
Proof.
  intros Hv Hh Hn Hrun.
  apply (wp_elim _ _ _ _ _ _ (wp_Resize_shrink _ _ _ _ _ Hv Hh Hn)) in Hrun.
  by destruct out as [[]|e|].
Qed.



End Resizing.

Section Migration.
Context {T Args E W : Type} `{!Element T Args E W}.

#[local] Abbreviation State := (State T W).
#[local] Abbreviation M := (M T E W).

Implicit Types (h : gmap loc (list (option T))) (r : gmap obj RawMemory).
Implicit Types (v : gmap obj Vector) (w : W) (s : State).
Implicit Types (vec : Vector) (X : E → State → Prop) (xs ys zs : list T).

(** The migration of [EmplaceBack] and [Reserve] for an element type that is
    copied: a failure leaves the old block as it was and gives the new one
    back. *)
Lemma wp_adopt_copying this k buf c xs l' c' dpost Q X h r v w :
  is_nothrow_move_constructible || negb is_copy_constructible = false →
  v !! this = Some (mkVector (mkRawMemory buf c) (length xs)) →
  length xs ≤ c →
  match buf with
  | nullptr => c = 0
  | Ptr l off => off = 0 ∧ h !! l = Some (block_of xs c)
  end →
  r !! k = Some (mkRawMemory (Ptr l' 0) c') →
  h !! l' = Some (replicate (length xs) None ++ dpost) →
  (∀ l off, buf = Ptr l off → l ≠ l') →
  (∀ w' h',
     Q tt (mkState h' (delete k r)
             (<[this := mkVector (mkRawMemory (Ptr l' 0) c') (length xs)]> v) w')) →
  (∀ w' e, X e (mkState (delete l' h) (delete k r) v w')) →
  wp (from ← GetAddress (data_of this);
      to ← GetAddress (raw_at k);
      (if is_nothrow_move_constructible || negb is_copy_constructible
       then uninitialized_move_n from (length xs) to
       else uninitialized_copy_n from (length xs) to);;
      destroy_n from (length xs);;
      RawMemory_Swap (data_of this) (raw_at k))
     (λ a, wp (RawMemory_dtor (raw_at k);; forget_raw k) (λ _, Q a) X)
     (λ e, wp (RawMemory_dtor (raw_at k);; forget_raw k) (λ _, X e) X)
     (mkState h r v w).
Proof.
  intros -> Hv Hle Hbuf Hk Hl' Hne HQ HX.
  apply wp_bind. eapply wp_GetAddress; [by apply deref_data_of|]. cbn [buffer_ data_].
  apply wp_bind. eapply wp_GetAddress; [by apply deref_raw_at|]. cbn [buffer_].
  destruct buf as [|l off].
  - subst c. assert (xs = []) as -> by (apply nil_length_inv; lia).
    cbn [length] in *. cbn [replicate app fmap list_fmap] in *.
    apply wp_bind, wp_ret, wp_bind, wp_ret.
    eapply wp_RawMemory_Swap_member_local; [done..|]. cbn [data_ size_].
    eapply wp_leave_RawMemory_null; [by apply lookup_insert_eq|].
    rewrite delete_insert_eq. apply HQ.
  - destruct Hbuf as [-> Hl]. specialize (Hne l 0 eq_refl).
    assert (Hblock : block_of xs c = [] ++ (Some <$> xs) ++ replicate (c - length xs) None)
      by done.
    apply wp_bind.
    eapply (wp_uninitialized_copy_from l 0 l' 0 0 _ xs [] [] _ [] dpost);
      [done|by rewrite Hl, Hblock|done|done|done|done|done| |].
    + intros w1 ys _. cbn [app].
      apply wp_bind.
      eapply (wp_destroy_n l 0 _ xs []);
        [by rewrite lookup_insert_ne, Hl, Hblock|done|done|].
      intros w2.
      eapply wp_RawMemory_Swap_member_local; [done..|]. cbn [data_ size_].
      eapply wp_leave_RawMemory;
        [by apply lookup_insert_eq|by apply lookup_insert_eq|].
      rewrite !delete_insert_eq. apply HQ.
    + intros w1 e.
      eapply wp_leave_RawMemory; [done|by apply lookup_insert_eq|].
      rewrite delete_insert_eq. apply HX.
Qed.

Lemma wp_EmplaceBack_copying this vec xs args s :
  is_nothrow_move_constructible || negb is_copy_constructible = false →
  vectors s !! this = Some vec → holds s vec xs →
  wp (EmplaceBack this args) (λ _ _, True)
     (λ _ s', heap s' = heap s ∧ raws s' = raws s ∧ vectors s' = vectors s) s.
Proof.
  destruct s as [h r v w], vec as [[buf c] n]. cbn [vectors heap raws].
  intros Hmode Hv (Hn & Hle & Hbuf)%holds_unfold.
  cbn [heap size_ data_ capacity_ buffer_] in *.
  subst n. unfold EmplaceBack, Capacity. apply wp_bind. eapply wp_load_size; [done|].
  cbn [size_ data_].
  apply wp_bind. eapply wp_RawMemory_Capacity; [by apply deref_data_of|].
  cbn [capacity_ data_]. apply wp_bind.
  case_bool_decide as Hfull.
  - subst c. set (c' := if bool_decide (length xs = 0) then 1 else length xs * 2).
    assert (Hlt : length xs < c') by (subst c'; case_bool_decide; lia).
    clearbody c'.
    apply wp_local_RawMemory; [lia|done|]. intros w1 l' k Ha Hl' Hk.
    apply wp_bind. eapply wp_RawMemory_plus;
      [by apply deref_raw_at, lookup_insert_eq|cbn; lia|]. cbn [buffer_ ptr_add].
    apply wp_bind. eapply wp_placement_new;
      [by apply lookup_insert_eq|by apply lookup_replicate_2| |].
    { intros w2 e He.
      eapply wp_leave_RawMemory; [by apply lookup_insert_eq..|].
      cbn [heap raws vectors]. by rewrite !delete_insert_id. }
    intros w2 x Hx. rewrite insert_insert_eq.
    rewrite (replicate_split None (length xs)), seg_insert
      by (rewrite ?length_replicate; lia).
    eapply (wp_adopt_copying this k buf (length xs) xs l' c');
      [done|done|done| |by apply lookup_insert_eq|by apply lookup_insert_eq| | |].
    { destruct buf as [|l off]; [done|]. destruct Hbuf as [-> Hl].
      split; [done|]. rewrite lookup_insert_ne; [done|congruence]. }
    { intros l off ->. destruct Hbuf as [_ Hl]. congruence. }
    { intros w3 h3.
      apply wp_bind. eapply wp_increment_size; [by apply lookup_insert_eq|].
      cbn [data_ size_]. rewrite insert_insert_eq.
      apply wp_bind. eapply wp_load_size; [by apply lookup_insert_eq|]. cbn [size_].
      apply wp_bind, wp_minus; [lia|].
      by eapply wp_RawMemory_index;
        [by apply deref_data_of, lookup_insert_eq|cbn; lia|]. }
    intros w3 e. cbn [heap raws vectors]. by rewrite !delete_insert_id.
  - destruct buf as [|l off]; [lia|]. destruct Hbuf as [-> Hl].
    apply wp_bind. eapply wp_RawMemory_plus; [by apply deref_data_of|cbn; lia|].
    cbn [buffer_ data_ ptr_add].
    eapply wp_placement_new; [done|by apply block_of_raw; lia|done|].
    intros w1 x Hx.
    apply wp_bind. eapply wp_increment_size; [done|]. cbn [data_ size_].
    apply wp_bind. eapply wp_load_size; [by apply lookup_insert_eq|]. cbn [size_].
    apply wp_bind, wp_minus; [lia|].
    by eapply wp_RawMemory_index; [by apply deref_data_of, lookup_insert_eq|cbn; lia|].
Qed.

(** X12. For an element type that is copied during a reallocation,
    [EmplaceBack] gives the strong guarantee on every path: whatever throws
    (the allocation, the construction of the new element or a copy), the
    heap and the objects are what they were before the call. *)
Theorem EmplaceBack_copying_strong s s' this vec xs args e :
  is_nothrow_move_constructible || negb is_copy_constructible = false →
  vectors s !! this = Some vec → holds s vec xs →
  EmplaceBack this args s = (s', Throw e) →
  heap s' = heap s ∧ raws s' = raws s ∧ vectors s' = vectors s.
Proof.
  intros Hmode Hv Hh Hrun.
  exact (wp_elim _ _ _ _ _ _ (wp_EmplaceBack_copying _ _ _ args _ Hmode Hv Hh) Hrun).
Qed.

Lemma wp_Reserve_copying this vec xs c s :
  is_nothrow_move_constructible || negb is_copy_constructible = false →
  vectors s !! this = Some vec → holds s vec xs →
  wp (Reserve this c) (λ _ _, True)
     (λ _ s', heap s' = heap s ∧ raws s' = raws s ∧ vectors s' = vectors s) s.
Proof.
  destruct s as [h r v w], vec as [[buf c0] n]. cbn [vectors heap raws].
  intros Hmode Hv (Hn & Hle & Hbuf)%holds_unfold.
  cbn [heap size_ data_ capacity_ buffer_] in *. subst n.
  unfold Reserve. apply wp_bind.
  eapply wp_RawMemory_Capacity; [by apply deref_data_of|]. cbn [capacity_ data_].
  case_bool_decide as Hc; [by apply wp_ret|].
  apply wp_local_RawMemory; [lia|done|]. intros w1 l' k Ha Hl' Hk.
  apply wp_bind. eapply wp_load_size; [done|]. cbn [size_].
  eapply (wp_adopt_copying this k buf c0 xs l' c (replicate (c - length xs) None));
    [done|done|done| |by apply lookup_insert_eq| | |done|].
  - destruct buf as [|l off]; [done|]. destruct Hbuf as [-> Hl].
    split; [done|]. rewrite lookup_insert_ne; [done|congruence].
  - rewrite lookup_insert_eq, <- replicate_add. do 2 f_equal. lia.
  - intros l off ->. destruct Hbuf as [_ Hl]. congruence.
  - intros w2 e. cbn [heap raws vectors]. by rewrite !delete_insert_id.
Qed.

(** X13. For an element type that is copied during a reallocation,
    [Reserve] gives the strong guarantee: when the allocation or a copy
    throws, the heap and the objects are what they were before the call. *)
Theorem Reserve_copying_strong s s' this vec xs c e :
  is_nothrow_move_constructible || negb is_copy_constructible = false →
  vectors s !! this = Some vec → holds s vec xs →
  Reserve this c s = (s', Throw e) →
  heap s' = heap s ∧ raws s' = raws s ∧ vectors s' = vectors s.
Proof.
  intros Hmode Hv Hh Hrun.
  exact (wp_elim _ _ _ _ _ _ (wp_Reserve_copying _ _ _ c _ Hmode Hv Hh) Hrun).
Qed.
End Migration.

Section Relocation.
Context {T Args E W : Type} `{!Element T Args E W}.

#[local] Abbreviation State := (State T W).
#[local] Abbreviation M := (M T E W).

Implicit Types (h : gmap loc (list (option T))) (r : gmap obj RawMemory).
Implicit Types (v : gmap obj Vector) (w : W) (s : State).
Implicit Types (vec : Vector) (X : E → State → Prop) (xs ys zs : list T).

Lemma insert_insert_over h (l1 l2 : loc) (b1 b2 b2' : list (option T)) :
  l1 ≠ l2 →
  <[l2 := b2']> (<[l1 := b1]> (<[l2 := b2]> h)) = <[l2 := b2']> (<[l1 := b1]> h).
Proof. intros Hne. map_solve. Qed.

(** [std::uninitialized_copy_n] on elements whose copies do not throw. *)
Lemma wp_uninitialized_copy_from_reliable ls so ld do i n xs done spre spost dpre dpost
    Q X h r v w :
  Forall copyable xs →
  ls ≠ ld →
  h !! ls = Some (spre ++ (Some <$> xs) ++ spost) → length spre = so + i →
  h !! ld = Some (dpre ++ (Some <$> done) ++ replicate n None ++ dpost) →
  length dpre = do → length done = i → length xs = n →
  (∀ w' ys, Forall2 copied xs ys →
     Q tt (mkState (<[ld := dpre ++ (Some <$> done ++ ys) ++ dpost]> h) r v w')) →
  wp (uninitialized_copy_from (Ptr ls so) (Ptr ld do) i n) Q X (mkState h r v w).
Proof.
  intros Hok Hne. revert i n done spre h w.
  induction Hok as [|x xs Hx Hok IH];
    intros i n done spre h w Hs Hspre Hd Hdpre Hdone Hn HQ.
  - subst n. cbn [length uninitialized_copy_from]. apply wp_ret. cbn in Hd.
    specialize (HQ w [] ltac:(constructor)). rewrite app_nil_r in HQ.
    by rewrite insert_id in HQ.
  - cbn in Hn. subst n. cbn [uninitialized_copy_from]. apply wp_bind, wp_on_exception.
    cbn [ptr_add].
    eapply wp_copy_construct_at; [exact Hs|by apply seg_lookup|exact Hd| | |].
    + rewrite app_assoc. apply seg_lookup. rewrite length_app, length_fmap. lia.
    + intros w' e Hc. by destruct (Hx _ _ _ Hc).
    + intros w' y Hc. cbn [replicate app]. rewrite (app_assoc dpre), seg_insert
        by (rewrite length_app, length_fmap; lia).
      eapply (IH (S i) _ (done ++ [y]) (spre ++ [Some x])).
      * rewrite lookup_insert_ne by done. rewrite Hs. by rewrite <- app_assoc.
      * rewrite length_app. cbn. lia.
      * rewrite lookup_insert_eq. by rewrite fmap_app, <- !app_assoc.
      * done.
      * rewrite length_app. cbn. lia.
      * done.
      * intros w'' ys Hys. rewrite insert_insert_eq, <- app_assoc.
        apply HQ. constructor; [by eexists _, _|done].
Qed.

(** The transfer of a range to raw slots of another block, as [Emplace]
    does it: by moves, or by copies in a [try] block whose handler does not
    throw again.  When the copies do not throw, the handler does not run. *)
Lemma wp_transfer `{!Faithful T Args E W} (by_move : bool) handler
    ls so ld do n xs spre spost dpre dpost Q X h r v w :
  (by_move = false → Forall copyable xs) →
  ls ≠ ld →
  h !! ls = Some (spre ++ (Some <$> xs) ++ spost) → length spre = so →
  h !! ld = Some (dpre ++ replicate n None ++ dpost) →
  length dpre = do → length xs = n →
  (∀ w' zs, length zs = n →
     Q tt (mkState (<[ld := dpre ++ (Some <$> xs) ++ dpost]>
                     (<[ls := spre ++ (Some <$> zs) ++ spost]> h)) r v w')) →
  (∀ w' zs e, length zs = n →
     X e (mkState (<[ld := dpre ++ replicate n None ++ dpost]>
                    (<[ls := spre ++ (Some <$> zs) ++ spost]> h)) r v w')) →
  wp (if by_move then uninitialized_move_n (Ptr ls so) n (Ptr ld do)
      else try_catch (uninitialized_copy_n (Ptr ls so) n (Ptr ld do)) handler)
     Q X (mkState h r v w).
Proof.
  intros Hok Hne Hs Hspre Hd Hdpre Hn HQ HX. destruct by_move.
  - unfold uninitialized_move_n.
    eapply (wp_uninitialized_move_from ls so ld do 0 n xs [] spre spost dpre dpost);
      [done|done|lia|done|done|done|done| |].
    + intros w' zs ys Hzs ->%Forall2_moved. by apply HQ.
    + intros w' zs e Hzs. by apply HX.
  - apply wp_try_catch. unfold uninitialized_copy_n.
    eapply (wp_uninitialized_copy_from_reliable ls so ld do 0 n xs [] spre spost dpre dpost);
      [by apply Hok|done|done|lia|done|done|done|done|].
    intros w' ys ->%Forall2_copied. cbn [app].
    specialize (HQ w' xs Hn). by rewrite (insert_id h ls) in HQ.
Qed.

Lemma wp_Emplace_full `{!Faithful T Args E W} this vec xs P args s :
  (is_nothrow_move_constructible || negb is_copy_constructible = false →
   Forall copyable xs) →
  vectors s !! this = Some vec → holds s vec xs →
  P < size_ vec → size_ vec = capacity_ (data_ vec) →
  wp (Emplace this (buffer_ (data_ vec) +ₚ P) args)
     (λ p s', ∃ vec' x,
        vectors s' !! this = Some vec' ∧
        holds s' vec' (take P xs ++ x :: drop P xs) ∧
        constructed args x ∧
        size_ vec' = size_ vec + 1 ∧
        capacity_ (data_ vec') = 2 * size_ vec ∧
        p = buffer_ (data_ vec') +ₚ P ∧
        separate vec' vec)
     (λ _ s', vectors s' = vectors s) s.
Proof.
  destruct s as [h r v w], vec as [[buf c] n]. cbn [vectors].
  intros Hmode Hv (Hn & Hle & Hbuf)%holds_unfold.
  cbn [heap size_ data_ capacity_ buffer_] in *. subst n. intros HP <-.
  destruct buf as [|l off]; [lia|]. destruct Hbuf as [-> Hl].
  assert (HlenP : length (take P xs) = P) by (rewrite length_take; lia).
  assert (HlenD : length (drop P xs) = length xs - P) by apply length_drop.
  assert (Hblock : block_of xs (length xs) =
            [] ++ (Some <$> take P xs) ++ (Some <$> drop P xs)).
  { unfold block_of. rewrite Nat.sub_diag, app_nil_r. cbn [app].
    by rewrite <- fmap_app, take_drop. }
  rewrite Hblock in Hl. clear Hblock.
  unfold Emplace, Vector_end, Vector_begin.
  do 2 apply wp_bind. eapply wp_load_size; [done|]. cbn [size_].
  eapply wp_RawMemory_plus; [by apply deref_data_of|cbn; lia|].
  cbn [buffer_ data_ ptr_add Nat.add].
  apply wp_bind. eapply wp_load_size; [done|]. cbn [size_].
  apply wp_bind. eapply wp_RawMemory_Capacity; [by apply deref_data_of|].
  cbn [capacity_ data_].
  rewrite bool_decide_false by (intros [=]; lia).
  rewrite bool_decide_true by done.
  rewrite (bool_decide_false (length xs = 0)) by lia.
  apply wp_local_RawMemory; [lia|done|]. intros w1 l' k Ha Hl' Hk.
  assert (Hne : l ≠ l') by congruence.
  apply wp_bind. eapply wp_GetAddress; [by apply deref_data_of|].
  cbn [buffer_ data_]. apply wp_bind.
  unfold ptr_diff. rewrite bool_decide_true by (split; [done|lia]).
  apply wp_ret. rewrite Nat.sub_0_r.
  apply wp_bind. eapply wp_RawMemory_plus;
    [by apply deref_raw_at, lookup_insert_eq|cbn; lia|]. cbn [buffer_ ptr_add Nat.add].
  apply wp_bind. eapply wp_placement_new;
    [by apply lookup_insert_eq|apply lookup_replicate_2; lia| |].
  { intros w2 e He.
    eapply wp_leave_RawMemory; [by apply lookup_insert_eq..|done]. }
  intros w2 x Hx. rewrite insert_insert_eq.
  rewrite (replicate_split None P (length xs * 2)), seg_insert
    by (rewrite ?length_replicate; lia).
  apply wp_bind. eapply wp_GetAddress;
    [by apply deref_data_of|]. cbn [buffer_ data_].
  apply wp_bind. eapply wp_GetAddress;
    [by apply deref_raw_at, lookup_insert_eq|]. cbn [buffer_].
  apply wp_bind.
  eapply (wp_transfer _ _ l 0 l' 0 P (take P xs) [] _ []);
    [by intros; apply Forall_take, Hmode|done|by rewrite lookup_insert_ne|done
    |by apply lookup_insert_eq|done|done| |].
  2:{ intros w3 zs e Hzs.
      eapply wp_leave_RawMemory;
        [by apply lookup_insert_eq|by apply lookup_insert_eq|done]. }
  intros w3 zs1 Hzs1. cbn [app].
  rewrite insert_insert_over by done.
  apply wp_bind, wp_minus; [lia|].
  apply wp_bind. cbn [ptr_add Nat.add].
  replace (length xs * 2 - S P) with
    ((length xs - P) + (length xs - 1)) by lia.
  rewrite replicate_add.
  eapply (wp_transfer _ _ l P l' (P + 1) (length xs - P)
            (drop P xs) (Some <$> zs1) [] ((Some <$> take P xs) ++ [Some x]));
    [by intros; apply Forall_drop, Hmode|done
    |by rewrite lookup_insert_ne, lookup_insert_eq, app_nil_r
    |by rewrite length_fmap
    |by rewrite lookup_insert_eq, <- app_assoc
    |by rewrite length_app, length_fmap; cbn; lia|done| |].
  2:{ intros w4 zs e Hzs.
      eapply wp_leave_RawMemory;
        [by apply lookup_insert_eq|by apply lookup_insert_eq|done]. }
  intros w4 zs2 Hzs2. cbn [app].
  rewrite insert_insert_2 by done.
  apply wp_bind.
  eapply (wp_destroy_n l 0 (length xs) (zs1 ++ zs2) [] []);
    [by rewrite lookup_insert_ne, lookup_insert_eq, !app_nil_r, fmap_app
    |done|by rewrite length_app; lia|].
  intros w5. rewrite insert_insert_over by done.
  apply wp_bind.
  eapply wp_RawMemory_Swap_member_local; [done|by apply lookup_insert_eq|].
  cbn [data_ size_]. rewrite insert_insert_eq.
  apply wp_bind. eapply wp_GetAddress; [by apply deref_data_of, lookup_insert_eq|].
  cbn [buffer_ data_].
  apply wp_bind. eapply wp_increment_size; [by apply lookup_insert_eq|].
  cbn [data_ size_]. rewrite insert_insert_eq. apply wp_ret.
  eapply wp_leave_RawMemory;
    [by apply lookup_insert_eq|by apply lookup_insert_eq|].
  rewrite delete_insert_eq. cbn [vectors]. eexists _, x. rewrite lookup_insert_eq. split; [done|].
  split.
  { apply holds_unfold. cbn [heap]. rewrite length_app. cbn [length].
    split; [lia|]. split; [lia|]. split; [done|].
    rewrite lookup_delete_ne, lookup_insert_eq by done. f_equal.
    unfold block_of. rewrite !fmap_app, fmap_cons, <- !app_assoc. cbn [app].
    do 3 f_equal. rewrite length_app. cbn [length]. f_equal. lia. }
  split; [by eexists _, _|]. cbn [size_ data_ capacity_ buffer_ ptr_add Nat.add].
  split; [done|]. split; [lia|]. split; [done|].
  by intros ???? [= <- <-] [= <- <-].
Qed.

(** X14. [Emplace] inside a full sequence moves to a new block of twice
    the capacity: the new element stands at the position, the former elements
    keep their order around it, and the iterator returned points to it.  This
    holds for an element type that is moved during a reallocation, and for
    one that is copied when the copies of the elements do not throw. *)
Theorem Emplace_inside_full `{!Faithful T Args E W} s s' this vec xs P args p :
  (is_nothrow_move_constructible || negb is_copy_constructible = false →
   Forall copyable xs) →
  vectors s !! this = Some vec → holds s vec xs →
  P < size_ vec → size_ vec = capacity_ (data_ vec) →
  Emplace this (buffer_ (data_ vec) +ₚ P) args s = (s', Normal p) →
  ∃ vec' x,
    vectors s' !! this = Some vec' ∧
    holds s' vec' (take P xs ++ x :: drop P xs) ∧
    constructed args x ∧
    size_ vec' = size_ vec + 1 ∧
    capacity_ (data_ vec') = 2 * size_ vec ∧
    p = buffer_ (data_ vec') +ₚ P ∧
    separate vec' vec.
Proof.
  intros Hmode Hv Hh HP Hfull Hrun.
  exact (wp_elim _ _ _ _ _ _
           (wp_Emplace_full _ _ _ _ args _ Hmode Hv Hh HP Hfull) Hrun).
Qed.
End Relocation.

Section Composition.
Context {T Args E W : Type} `{!Element T Args E W} `{!Faithful T Args E W}.

#[local] Abbreviation State := (State T W).
#[local] Abbreviation M := (M T E W).

Implicit Types (h : gmap loc (list (option T))) (r : gmap obj RawMemory).
Implicit Types (v : gmap obj Vector) (w : W) (s : State).
Implicit Types (vec : Vector) (X : E → State → Prop) (xs ys zs : list T).

Lemma wp_Emplace_Erase this vec xs P args s :
  vectors s !! this = Some vec → holds s vec xs →
  P < size_ vec → size_ vec < capacity_ (data_ vec) →
  wp (p ← Emplace this (buffer_ (data_ vec) +ₚ P) args; Erase this p)
     (λ p s', p = buffer_ (data_ vec) +ₚ P ∧
              vectors s' !! this = Some vec ∧ holds s' vec xs)
     (λ _ _, True) s.
Proof.
  intros Hv Hh HP Hroom. apply wp_bind.
  eapply wp_mono; [by apply wp_Emplace_in_place| |done].
  intros p s1 (vec1 & x & Hv1 & Hh1 & _ & Hsz & Hd & ->).
  eapply wp_mono; [eapply wp_Erase; [done|done|lia]| |done].
  intros p s2 (vec2 & Hv2 & Hh2 & Hsz2 & Hd2 & ->).
  assert (length (take P xs) = P) as HlenP.
  { destruct Hh as [Hn _]. rewrite length_take. lia. }
  assert (vec2 = vec) as ->.
  { destruct vec2, vec. cbn in *. f_equal; [congruence|lia]. }
  split; [by rewrite Hd|]. split; [done|].
  rewrite take_app_length' in Hh2 by done.
  rewrite cons_middle, app_assoc, drop_app_length' in Hh2
    by (rewrite length_app; cbn; lia).
  by rewrite take_drop in Hh2.
Qed.

(** X15. Inside a sequence with room left, [Emplace] at a position
    followed by [Erase] at the iterator it returned gives back the sequence:
    same elements, same size, same storage; the iterator returned by [Erase]
    is the position. *)
Theorem Emplace_then_Erase s s' this vec xs P args p :
  vectors s !! this = Some vec → holds s vec xs →
  P < size_ vec → size_ vec < capacity_ (data_ vec) →
  (p ← Emplace this (buffer_ (data_ vec) +ₚ P) args; Erase this p) s
    = (s', Normal p) →
  p = buffer_ (data_ vec) +ₚ P ∧ vectors s' !! this = Some vec ∧ holds s' vec xs.
Proof.
  intros Hv Hh HP Hroom Hrun.
  exact (wp_elim _ _ _ _ _ _ (wp_Emplace_Erase _ _ _ _ args _ Hv Hh HP Hroom) Hrun).
Qed.

Lemma wp_PushBack this vec xs value s :
  vectors s !! this = Some vec → holds s vec xs →
  wp (PushBack this value)
     (λ _ s', ∃ vec' x,
        vectors s' !! this = Some vec' ∧ holds s' vec' (xs ++ [x]) ∧
        constructed value x ∧
        size_ vec' = size_ vec + 1 ∧
        if decide (size_ vec = capacity_ (data_ vec))
        then capacity_ (data_ vec') = 1 `max` (2 * size_ vec)
        else data_ vec' = data_ vec)
     (λ _ _, True) s.
Proof.
  intros Hv Hh. unfold PushBack. apply wp_bind.
  eapply wp_mono; [by apply wp_EmplaceBack| |done].
  intros p s' (vec' & x & ? & ? & ? & ? & _ & ?). apply wp_ret. by exists vec', x.
Qed.

Lemma wp_PushBack_PopBack this vec xs value s :
  vectors s !! this = Some vec → holds s vec xs →
  wp (PushBack this value;; PopBack this)
     (λ _ s', ∃ vec',
        vectors s' !! this = Some vec' ∧ holds s' vec' xs ∧
        size_ vec' = size_ vec ∧
        if decide (size_ vec = capacity_ (data_ vec))
        then capacity_ (data_ vec') = 1 `max` (2 * size_ vec)
        else data_ vec' = data_ vec)
     (λ _ _, True) s.
Proof.
  intros Hv Hh. apply wp_bind.
  eapply wp_mono; [by apply wp_PushBack| |done].
  intros [] s1 (vec1 & x & Hv1 & Hh1 & _ & Hsz & Hc).
  eapply wp_mono; [by eapply wp_PopBack| |done].
  intros [] s2 (vec2 & Hv2 & Hh2 & Hsz2 & Hd2 & _).
  exists vec2. do 2 (split; [done|]). split; [lia|].
  rewrite Hd2. done.
Qed.

(** X16. [PushBack] followed by [PopBack] gives back the elements and
    the size; the capacity is the one the append left: doubled (one for an
    empty sequence) when the sequence was full, the same storage otherwise. *)
Theorem PushBack_then_PopBack s s' this vec xs value :
  vectors s !! this = Some vec → holds s vec xs →
  (PushBack this value;; PopBack this) s = (s', Normal tt) →
  ∃ vec',
    vectors s' !! this = Some vec' ∧ holds s' vec' xs ∧
    size_ vec' = size_ vec ∧
    if decide (size_ vec = capacity_ (data_ vec))
    then capacity_ (data_ vec') = 1 `max` (2 * size_ vec)
    else data_ vec' = data_ vec.
Proof.
  intros Hv Hh Hrun.
  exact (wp_elim _ _ _ _ _ _ (wp_PushBack_PopBack _ _ _ value _ Hv Hh) Hrun).
Qed.

Lemma doubled_step n c c' :
  n ≤ c → doubled n c →
  (if decide (n = c) then c' = 1 `max` (2 * n) else c' = c) →
  doubled (n + 1) c'.
Proof.
  intros Hle [[-> ->]|(k & -> & Hk & Hlt)] Hc'.
  - rewrite decide_True in Hc' by done. subst c'. right. exists 0. cbn. lia.
  - right. destruct (decide (n = 2 ^ k)) as [->|Hne]; subst c'.
    + exists (S k). rewrite Nat.pow_succ_r'. lia.
    + exists k. lia.
Qed.

Lemma wp_PushBack_each this values : ∀ vec xs s,
  vectors s !! this = Some vec → holds s vec xs →
  wp (PushBack_each this values)
     (λ _ s', ∃ vec' ys,
        vectors s' !! this = Some vec' ∧ holds s' vec' (xs ++ ys) ∧
        Forall2 constructed values ys ∧
        (size_ vec + length values ≤ capacity_ (data_ vec) →
         data_ vec' = data_ vec) ∧
        (doubled (size_ vec) (capacity_ (data_ vec)) →
         doubled (size_ vec') (capacity_ (data_ vec'))))
     (λ _ _, True) s.
Proof.
  induction values as [|a rest IH]; intros vec xs s Hv Hh.
  - apply wp_ret. exists vec, []. rewrite app_nil_r.
    do 2 (split; [done|]). split; [constructor|]. split; [done|tauto].
  - cbn [PushBack_each]. apply wp_bind.
    eapply wp_mono; [by apply wp_PushBack| |done].
    intros [] s1 (vec1 & x & Hv1 & Hh1 & Hx & Hsz & Hc).
    eapply wp_mono; [by eapply IH| |done].
    intros [] s2 (vec2 & ys & Hv2 & Hh2 & Hys & Hkeep & Hdbl).
    exists vec2, (x :: ys). split; [done|].
    split; [by rewrite <- app_assoc in Hh2|].
    split; [by constructor|].
    assert (size_ vec ≤ capacity_ (data_ vec)) as Hle.
    { destruct vec as [[??]?]. by apply holds_unfold in Hh as (_ & ? & _). }
    cbn [length]. split.
    + intros Hfit. rewrite decide_False in Hc by lia.
      rewrite Hkeep; [done|]. rewrite Hc. lia.
    + intros Hd. apply Hdbl. rewrite Hsz.
      eapply doubled_step; [done..|].
      destruct (decide (size_ vec = capacity_ (data_ vec))); [done|by rewrite Hc].
Qed.

(** X17. Appends that fit in the capacity never reallocate: after
    pushing the values one after the other, the storage (buffer and capacity)
    is the one before, and the sequence holds the old elements followed by
    the new ones. *)
Theorem PushBack_each_keeps_storage s s' this vec xs values :
  vectors s !! this = Some vec → holds s vec xs →
  size_ vec + length values ≤ capacity_ (data_ vec) →
  PushBack_each this values s = (s', Normal tt) →
  ∃ vec' ys,
    vectors s' !! this = Some vec' ∧ holds s' vec' (xs ++ ys) ∧
    Forall2 constructed values ys ∧ data_ vec' = data_ vec.
Proof.
  intros Hv Hh Hfit Hrun.
  apply (wp_elim _ _ _ _ _ _ (wp_PushBack_each _ values _ _ _ Hv Hh)) in Hrun.
  destruct Hrun as (vec' & ys & ? & ? & ? & Hkeep & _).
  exists vec', ys. auto.
Qed.

(** X18. A sequence filled by appends from an empty one without
    storage has a capacity that is a power of two, at least its size and
    less than twice its size. *)
Theorem PushBack_each_from_empty s s' this vec values :
  vectors s !! this = Some vec → holds s vec [] →
  capacity_ (data_ vec) = 0 → values ≠ [] →
  PushBack_each this values s = (s', Normal tt) →
  ∃ vec' ys k,
    vectors s' !! this = Some vec' ∧ holds s' vec' ys ∧
    Forall2 constructed values ys ∧
    size_ vec' = length values ∧
    capacity_ (data_ vec') = 2 ^ k ∧
    length values ≤ 2 ^ k ∧ 2 ^ k < 2 * length values.
Proof.
  intros Hv Hh Hc Hne Hrun.
  apply (wp_elim _ _ _ _ _ _ (wp_PushBack_each _ values _ _ _ Hv Hh)) in Hrun.
  destruct Hrun as (vec' & ys & Hv' & Hh' & Hys & _ & Hdbl).
  cbn [app] in Hh'. pose proof (Forall2_length _ _ _ Hys) as Hlen.
  assert (size_ vec' = length values) as Hsz.
  { destruct Hh' as [-> _]. done. }
  assert (doubled (size_ vec) (capacity_ (data_ vec))) as Hd0.
  { left. by destruct Hh as [-> _]. }
  destruct (Hdbl Hd0) as [[Hz _]|(k & Hk & ? & ?)].
  - destruct values; [done|]. cbn in *. lia.
  - exists vec', ys, k. rewrite <- Hsz, <- Hk. done.
Qed.
End Composition.

Section Edges.
Context {T Args E W : Type} `{!Element T Args E W}.

#[local] Abbreviation State := (State T W).
#[local] Abbreviation M := (M T E W).

Implicit Types (h : gmap loc (list (option T))) (r : gmap obj RawMemory).
Implicit Types (v : gmap obj Vector) (w : W) (s : State).
Implicit Types (vec : Vector) (X : E → State → Prop) (xs ys zs : list T).

(** X19. Move assignment of a sequence to itself changes nothing. *)
Theorem Vector_move_assign_self s this vec :
  vectors s !! this = Some vec →
  Vector_move_assign (E := E) this this s = (s, Normal tt).
Proof.
  destruct s as [h r v w]. cbn [vectors]. intros Hv.
  assert (wp (Vector_move_assign (E := E) this this)
            (λ _ s', s' = mkState h r v w) (λ _ _, False) (mkState h r v w)) as Hwp.
  { unfold Vector_move_assign. eapply wp_Vector_Swap; [done..|].
    by rewrite insert_insert_eq, insert_id. }
  apply wp_run in Hwp as (s' & [[]|e|] & Hrun & Hs'); [|done..].
  by rewrite Hrun, Hs'.
Qed.

(** X20. The move constructor of a storage takes the buffer and the
    capacity of its source over and leaves the source without a buffer;
    nothing is allocated or given back. *)
Theorem RawMemory_move_ctor_takes_over s other m :
  raws s !! other = Some m →
  ∃ s' k,
    RawMemory_move_ctor (E := E) (raw_at other) s = (s', Normal k) ∧
    raws s !! k = None ∧
    raws s' !! k = Some m ∧
    raws s' !! other = Some RawMemory_default ∧
    (∀ o, o ≠ k → o ≠ other → raws s' !! o = raws s !! o) ∧
    heap s' = heap s ∧ vectors s' = vectors s ∧ world s' = world s.
Proof.
  destruct s as [h r v w]. cbn [raws heap vectors world]. intros Hr.
  assert (wp (RawMemory_move_ctor (E := E) (raw_at other))
            (λ k s', r !! k = None ∧
               s' = mkState h (<[other := RawMemory_default]> (<[k := m]> r)) v w)
            (λ _ _, False) (mkState h r v w)) as Hwp.
  { unfold RawMemory_move_ctor. apply wp_bind, wp_declare_raw. intros k Hk.
    assert (other ≠ k) by congruence.
    apply wp_bind.
    eapply wp_RawMemory_Swap_raws;
      [by apply lookup_insert_eq|by rewrite lookup_insert_ne|].
    apply wp_ret. split; [done|]. by rewrite insert_insert_eq. }
  apply wp_run in Hwp as (s' & [k|e|] & Hrun & Hs'); [|done..].
  destruct Hs' as [Hk Hs']. subst s'. assert (other ≠ k) by congruence.
  eexists _, k. split; [exact Hrun|]. cbn [raws heap vectors world].
  split; [done|]. split; [by rewrite lookup_insert_ne, lookup_insert_eq|].
  split; [by rewrite lookup_insert_eq|]. split; [|done].
  intros o ??. by rewrite !lookup_insert_ne.
Qed.


(** X22. [Erase] at [end()] is undefined behaviour, for an empty
    sequence as for any other; the sequence is not touched. *)
Theorem Erase_at_end_undefined s this vec xs :
  vectors s !! this = Some vec → holds s vec xs →
  Erase this (buffer_ (data_ vec) +ₚ size_ vec) s = (s, Undefined).
Proof.
  destruct s as [h r v w], vec as [[buf c] n]. cbn [vectors].
  intros Hv (Hn & Hle & Hbuf)%holds_unfold.
  cbn [heap size_ data_ capacity_ buffer_ length] in *. subst n.
  assert (Hend : Vector_end (E := E) this (mkState h r v w) =
                 (mkState h r v w, Normal (buf +ₚ length xs))).
  { unfold Vector_end.
    erewrite run_bind_Normal by (by apply run_load, deref_size_of). cbn [size_].
    unfold RawMemory_plus.
    erewrite run_bind_Normal by (by apply run_load, deref_data_of).
    cbn [data_ capacity_ buffer_]. by rewrite bool_decide_true by lia. }
  unfold Erase, Vector_begin, GetAddress.
  erewrite !run_bind_Normal
    by (by apply run_load, deref_buffer_of, deref_data_of).
  cbn [data_ buffer_].
  destruct buf as [|l off].
  - subst c. assert (xs = []) as -> by (apply nil_length_inv; lia).
    cbn [ptr_add ptr_diff length] in *.
    erewrite run_bind_Normal by reflexivity.
    erewrite run_bind_Normal by exact Hend.
    erewrite run_bind_Normal by reflexivity.
    erewrite run_bind_Normal by exact Hend.
    by apply run_bind_Undefined.
  - destruct Hbuf as [-> Hl]. cbn [ptr_add ptr_diff Nat.add] in *.
    rewrite bool_decide_true by (split; [done|lia]).
    erewrite run_bind_Normal by reflexivity. rewrite Nat.sub_0_r.
    erewrite run_bind_Normal by exact Hend.
    apply run_bind_Undefined. unfold std_move. apply run_bind_Undefined.
    cbn [ptr_diff ptr_add Nat.add]. rewrite bool_decide_false; [done|]. lia.
Qed.

Lemma wp_Emplace_never_constructs this vec xs P args s :
  never_constructs args →
  vectors s !! this = Some vec → holds s vec xs → P ≤ size_ vec →
  wp (Emplace this (buffer_ (data_ vec) +ₚ P) args) (λ _ _, False)
     (λ _ s', heap s' = heap s ∧ raws s' = raws s ∧ vectors s' = vectors s) s.
Proof.
  destruct s as [h r v w], vec as [[buf c] n]. cbn [vectors heap raws].
  intros Hargs Hv (Hn & Hle & Hbuf)%holds_unfold.
  cbn [heap size_ data_ capacity_ buffer_] in *. subst n. intros HP.
  assert (Hnew : ∀ l i (o : option T) (b : list (option T))
                    (Q : unit → State → Prop) X h' r' w',
    h' !! l = Some b → b !! i = Some o →
    (∀ w'' e, X e (mkState h' r' v w'')) →
    wp (placement_new (Ptr l i) args) Q X (mkState h' r' v w')).
  { intros l i o b Q X h' r' w' Hb Hi HX.
    eapply wp_placement_new; [done|done|by intros; apply HX|].
    intros w'' x Hx. destruct (Hargs w') as (? & ? & ?). congruence. }
  assert (Hback : wp (EmplaceBack this args) (λ _ _, False)
     (λ _ s', heap s' = h ∧ raws s' = r ∧ vectors s' = v) (mkState h r v w)).
  { unfold EmplaceBack, Capacity. apply wp_bind. eapply wp_load_size; [done|].
    cbn [size_ data_].
    apply wp_bind. eapply wp_RawMemory_Capacity; [by apply deref_data_of|].
    cbn [capacity_ data_]. apply wp_bind.
    case_bool_decide as Hfull.
    - apply wp_local_RawMemory; [case_bool_decide; lia|done|].
      intros w1 l' k Ha Hl' Hk.
      apply wp_bind. eapply wp_RawMemory_plus;
        [by apply deref_raw_at, lookup_insert_eq|cbn; case_bool_decide; lia|].
      cbn [buffer_ ptr_add]. apply wp_bind.
      eapply Hnew; [by apply lookup_insert_eq
                   |apply lookup_replicate_2; case_bool_decide; lia|].
      intros w2 e.
      eapply wp_leave_RawMemory; [by apply lookup_insert_eq..|].
      cbn [heap raws vectors]. by rewrite !delete_insert_id.
    - destruct buf as [|l off]; [lia|]. destruct Hbuf as [-> Hl].
      apply wp_bind. eapply wp_RawMemory_plus; [by apply deref_data_of|cbn; lia|].
      cbn [buffer_ data_ ptr_add].
      eapply Hnew; [done|by apply block_of_raw; lia|done]. }
  unfold Emplace, Vector_end, Vector_begin.
  do 2 apply wp_bind. eapply wp_load_size; [done|]. cbn [size_].
  eapply wp_RawMemory_plus; [by apply deref_data_of|cbn; lia|].
  cbn [buffer_ data_].
  apply wp_bind. eapply wp_load_size; [done|]. cbn [size_].
  apply wp_bind. eapply wp_RawMemory_Capacity; [by apply deref_data_of|].
  cbn [capacity_ data_].
  case_bool_decide as Hend; [done|].
  destruct buf as [|l off]; [done|]. destruct Hbuf as [-> Hl].
  cbn [ptr_add Nat.add] in *.
  case_bool_decide as Hfull.
  - apply wp_local_RawMemory; [case_bool_decide; lia|done|].
    intros w1 l' k Ha Hl' Hk.
    apply wp_bind. eapply wp_GetAddress; [by apply deref_data_of|].
    cbn [buffer_ data_]. apply wp_bind.
    unfold ptr_diff. rewrite bool_decide_true by (split; [done|lia]).
    apply wp_ret. rewrite Nat.sub_0_r.
    apply wp_bind. eapply wp_RawMemory_plus;
      [by apply deref_raw_at, lookup_insert_eq|cbn; case_bool_decide; lia|].
    cbn [buffer_ ptr_add Nat.add]. apply wp_bind.
    eapply Hnew; [by apply lookup_insert_eq
                 |apply lookup_replicate_2; case_bool_decide; lia|].
    intros w2 e.
    eapply wp_leave_RawMemory; [by apply lookup_insert_eq..|].
    cbn [heap raws vectors]. by rewrite !delete_insert_id.
  - unfold local_T. do 2 apply wp_bind. apply wp_effect. intros w1 [e|x] Hx;
      apply wp_value_or_raise; [done|].
    destruct (Hargs w) as (? & ? & ?). congruence.
Qed.

(** X23. When the constructor of the new element throws, [Emplace]
    throws and leaves the heap and the objects as they were, at any position
    and on each of its three paths. *)
Theorem Emplace_construction_fails s s' this vec xs P args out :
  never_constructs args →
  vectors s !! this = Some vec → holds s vec xs → P ≤ size_ vec →
  Emplace this (buffer_ (data_ vec) +ₚ P) args s = (s', out) →
  (∃ e, out = Throw e) ∧
  heap s' = heap s ∧ raws s' = raws s ∧ vectors s' = vectors s.
Proof.
  intros Hargs Hv Hh HP Hrun.
  apply (wp_elim _ _ _ _ _ _
           (wp_Emplace_never_constructs _ _ _ _ _ _ Hargs Hv Hh HP)) in Hrun.
  destruct out as [p|e|]; [done| |done]. split; [by exists e|done].
Qed.
End Edges.

Section Assignment.
Context {T Args E W : Type} `{!Element T Args E W} `{!Faithful T Args E W}.

#[local] Abbreviation State := (State T W).
#[local] Abbreviation M := (M T E W).

Implicit Types (h : gmap loc (list (option T))) (r : gmap obj RawMemory).
Implicit Types (v : gmap obj Vector) (w : W) (s : State).
Implicit Types (vec : Vector) (X : E → State → Prop) (xs ys zs : list T).

Lemma wp_Vector_copy_assign_throws this rhs va vb xs ys s :
  this ≠ rhs →
  vectors s !! this = Some va → vectors s !! rhs = Some vb →
  holds s va xs → holds s vb ys → separate va vb →
  wp (Vector_copy_assign this rhs) (λ _ _, True)
     (λ _ s',
        vectors s' = vectors s ∧ raws s' = raws s ∧ holds s' vb ys ∧
        (∃ zs, holds s' va zs) ∧
        (size_ vb > capacity_ (data_ va) → heap s' = heap s)) s.
Proof.
  intros Hne Hva Hvb Ha Hb Hsep.
  destruct s as [h r v w]. cbn [vectors raws heap] in *.
  unfold Vector_copy_assign. rewrite bool_decide_true by done.
  apply wp_bind. eapply wp_load_size; [done|].
  apply wp_bind. eapply wp_RawMemory_Capacity; [by apply deref_data_of|].
  case_bool_decide as Hgrow.
  - (* copy and exchange *)
    assert (ys ≠ []) as Hys.
    { intros ->. destruct Hb as [Hb _]. rewrite Hb in Hgrow. cbn in Hgrow. lia. }
    destruct (block_of_nil_or_block _ _ _ Hb Hys) as (lb & Hbufb & Hlb).
    destruct vb as [[bufb cb] nb], va as [[bufa ca] na].
    pose proof Ha as (Hna & Hlea & Hbufa)%holds_unfold.
    pose proof Hb as (Hnb & Hleb & _)%holds_unfold.
    cbn [heap size_ data_ capacity_ buffer_] in *. subst na nb bufb.
    unfold local_Vector. apply wp_bind.
    eapply wp_Vector_copy_ctor; [done|done| |by intros; eauto 10|].
    { destruct ys; [done|]. cbn. lia. }
    intros w1 l' k Hl' Hk. apply wp_finally.
    assert (this ≠ k ∧ rhs ≠ k) as [??] by (split; congruence).
    eapply wp_Vector_Swap; [by rewrite lookup_insert_ne|by apply lookup_insert_eq|].
    eapply (wp_leave_Vector k bufa ca xs); [by apply lookup_insert_eq|done| |done].
    destruct bufa as [|la off]; [done|]. destruct Hbufa as [-> Hla].
    split; [done|]. rewrite lookup_insert_ne; [done|congruence].
  - (* the capacity suffices *)
    destruct vb as [[bufb cb] nb], va as [[bufa ca] na].
    apply holds_unfold in Ha as (Hna & Hlea & Hbufa).
    pose proof Hb as (Hnb & Hleb & Hbufb)%holds_unfold.
    cbn [heap size_ data_ capacity_ buffer_] in *. subst na nb.
    assert (Hfit : length ys ≤ ca) by lia. clear Hgrow.
    apply wp_bind. eapply wp_load_size; [done|]. cbn [size_].
    apply wp_bind. eapply wp_GetAddress; [by apply deref_data_of|].
    apply wp_bind. eapply wp_GetAddress; [by apply deref_data_of|].
    cbn [buffer_ data_].
    (* the state a failure leaves: the block of [this] holds as many
       elements as before, the one of [rhs] is untouched *)
    assert (Hfail : ∀ la lb zs h' w',
      bufa = Ptr la 0 → bufb = Ptr lb 0 → la ≠ lb →
      length zs = length xs →
      h' = <[la := block_of zs ca]> h →
      vectors (mkState h' r v w') = v ∧ raws (mkState h' r v w') = r ∧
      holds (mkState h' r v w') (mkVector (mkRawMemory bufb cb) (length ys)) ys ∧
      (∃ zs, holds (mkState h' r v w')
               (mkVector (mkRawMemory bufa ca) (length xs)) zs) ∧
      (length ys > ca → heap (mkState h' r v w') = h)).
    { intros la lb zs h' w' -> -> Hlab Hzs ->. cbn [vectors raws heap].
      do 2 (split; [done|]). split; [|split; [|lia]].
      - apply holds_unfold. cbn [heap]. do 2 (split; [done|]).
        destruct Hbufb as [_ Hlb]. by rewrite lookup_insert_ne.
      - exists zs. apply holds_unfold. cbn [heap]. split; [done|].
        split; [lia|]. by rewrite lookup_insert_eq. }
    destruct (decide (ys = [])) as [->|Hys].
    + (* nothing to copy *)
      cbn [length] in *. unfold CopyN. cbn [CopyN_from].
      case_bool_decide as Hshrink.
      * destruct bufa as [|la off]; [lia|]. destruct Hbufa as [-> Hla].
        apply wp_bind, wp_bind, wp_ret. cbn [ptr_add Nat.add].
        eapply (wp_destroy_n la 0 _ xs []); [done|done|lia|]. intros w1.
        by eapply wp_store_size.
      * assert (xs = []) as -> by (apply nil_length_inv; lia).
        apply wp_bind, wp_bind, wp_ret. cbn [length Nat.sub].
        unfold uninitialized_copy_n. cbn [uninitialized_copy_from]. apply wp_ret.
        by eapply wp_store_size.
    + destruct (block_of_nil_or_block _ _ _ Hb Hys) as (lb & Hb' & Hlb).
      cbn [heap size_ data_ capacity_ buffer_] in *. subst bufb.
      destruct bufa as [|la off]; [destruct ys; cbn in *; [done|lia]|].
      destruct Hbufa as [-> Hla].
      assert (lb ≠ la) by (intros <-; by eapply (Hsep lb 0 lb 0)).
      case_bool_decide as Hshrink.
      * (* overwrite, then destroy what is left over *)
        apply wp_bind, wp_bind. unfold CopyN.
        eapply (wp_CopyN_from lb 0 la 0 0 _ ys (take (length ys) xs) [] _ []
                  ((Some <$> drop (length ys) xs) ++ replicate (ca - length xs) None));
          [done|by rewrite Hlb|done| |done|done|rewrite length_take; lia| |].
        { rewrite Hla. unfold block_of. cbn [app]. f_equal.
          rewrite app_assoc, <- fmap_app, take_drop. done. }
        -- intros w1 zs Hzs%Forall2_length. cbn [app ptr_add Nat.add].
           eapply (wp_destroy_n la _ _ (drop (length ys) xs) (Some <$> zs));
             [by rewrite lookup_insert_eq|by rewrite length_fmap
             |by rewrite length_drop|].
           intros w2. by eapply wp_store_size.
        -- intros w1 zs e Hzs.
           eapply (Hfail la lb (zs ++ drop (length ys) xs)); [done|done|done| |].
           { rewrite length_app, length_drop. lia. }
           cbn [heap app]. f_equal. unfold block_of.
           rewrite fmap_app, <- app_assoc, length_app, length_drop.
           do 3 f_equal. lia.
      * (* overwrite, then construct what is missing *)
        apply wp_bind, wp_bind. unfold CopyN.
        eapply (wp_CopyN_from lb 0 la 0 0 _ (take (length xs) ys) xs []
                  ((Some <$> drop (length xs) ys) ++ replicate (cb - length ys) None) []
                  (replicate (ca - length xs) None));
          [done| |done|by rewrite Hla|done|rewrite length_take; lia|done| |].
        { rewrite Hlb. unfold block_of. cbn [app]. f_equal.
          by rewrite app_assoc, <- fmap_app, take_drop. }
        -- intros w1 zs Hzs%Forall2_length. cbn [app ptr_add Nat.add].
           rewrite length_take in Hzs.
           unfold uninitialized_copy_n.
           eapply (wp_uninitialized_copy_from lb _ la _ 0 _ (drop (length xs) ys) []
                     (Some <$> take (length xs) ys) (replicate (cb - length ys) None)
                     (Some <$> zs) (replicate (ca - length ys) None));
             [done| |rewrite length_fmap, length_take; lia|
             |rewrite length_fmap; lia|done|by rewrite length_drop| |].
           { rewrite lookup_insert_ne, Hlb by done. unfold block_of. f_equal.
             by rewrite app_assoc, <- fmap_app, take_drop. }
           { rewrite lookup_insert_eq. cbn [fmap list_fmap app]. do 2 f_equal.
             rewrite <- replicate_add. f_equal. lia. }
           ++ intros w2 zs' _. by eapply wp_store_size.
           ++ intros w2 e. rewrite insert_insert_eq.
              eapply (Hfail la lb zs); [done|done|done|lia|].
              cbn [heap app]. f_equal. unfold block_of. rewrite <- replicate_add.
              do 2 f_equal. lia.
        -- intros w1 zs e Hzs.
           eapply (Hfail la lb zs); [done|done|done|done|].
           cbn [heap app]. f_equal. unfold block_of. by rewrite Hzs.
Qed.

(** X24. When copy assignment from another sequence throws, the objects
    are what they were (size, buffer and capacity of both), the source holds
    its elements, and the target is well formed with as many elements as
    before.  When the source did not fit in the capacity of the target, the
    heap is what it was too: the target holds its old elements. *)
Theorem copy_assign_failure s s' this rhs va vb xs ys e :
  this ≠ rhs →
  vectors s !! this = Some va → vectors s !! rhs = Some vb →
  holds s va xs → holds s vb ys → separate va vb →
  Vector_copy_assign this rhs s = (s', Throw e) →
  vectors s' = vectors s ∧ raws s' = raws s ∧ holds s' vb ys ∧
  (∃ zs, holds s' va zs) ∧
  (size_ vb > capacity_ (data_ va) → heap s' = heap s).
Proof.
  intros Hne Hva Hvb Ha Hb Hsep Hrun.
  exact (wp_elim _ _ _ _ _ _
           (wp_Vector_copy_assign_throws _ _ _ _ _ _ _ Hne Hva Hvb Ha Hb Hsep) Hrun).
Qed.
End Assignment.

(** ** The further properties on concrete sequences *)

Lemma PopBack_removes_last_witness :
  ∃ s', PopBack 1 one_to_five = (s', Normal tt) ∧
    ∃ vec',
      vectors s' !! 1%positive = Some vec' ∧ holds s' vec' [1; 2; 3; 4]%Z ∧
      size_ vec' = 4 ∧ data_ vec' = mkRawMemory (Ptr 4 0) 8.
Proof.
  exists (PopBack 1 one_to_five).1.
  assert (Hrun : PopBack 1 one_to_five = ((PopBack 1 one_to_five).1, Normal tt))
    by (vm_compute; reflexivity).
  split; [exact Hrun|].
  destruct (PopBack_removes_last one_to_five
              (PopBack 1 one_to_five).1 1
              (mkVector (mkRawMemory (Ptr 4 0) 8) 5) [1; 2; 3; 4]%Z 5%Z (Normal tt))
    as (_ & vec' & Hv & Hh & Hsz & Hd & _).
  - vm_compute; reflexivity.
  - concrete.
  - exact Hrun.
  - exists vec'. split; [exact Hv|]. split; [exact Hh|].
    split; [exact Hsz|exact Hd].
Defined.

Lemma PopBack_empty_undefined_witness :
  PopBack 1 fragile_empty = (fragile_empty, Undefined).
Proof.
  apply (PopBack_empty_undefined fragile_empty 1 Vector_default).
  - vm_compute; reflexivity.
  - vm_compute. repeat split; lia.
Defined.

Lemma Vector_index_checked_witness :
  Vector_index (E := exception) 1 2 one_to_five = (one_to_five, Normal (Ptr 4 2)) ∧
  (p ← Vector_index 1 2; read (E := exception) p) one_to_five
    = (one_to_five, Normal 3%Z) ∧
  Vector_index (E := exception) 1 5 one_to_five = (one_to_five, Undefined).
Proof.
  assert (Hv : vectors one_to_five !! 1%positive
               = Some (mkVector (mkRawMemory (Ptr 4 0) 8) 5))
    by (vm_compute; reflexivity).
  assert (Hh : holds one_to_five (mkVector (mkRawMemory (Ptr 4 0) 8) 5)
                 [1; 2; 3; 4; 5]%Z) by concrete.
  destruct (Vector_index_checked (E := exception) one_to_five 1 _ _ 2 Hv Hh)
    as [Hin Hread].
  destruct (Vector_index_checked (E := exception) one_to_five 1 _ _ 5 Hv Hh)
    as [Hout _].
  split; [exact Hin|]. split; [exact (Hread 3%Z eq_refl)|exact Hout].
Defined.

Lemma Vector_move_ctor_takes_over_witness :
  ∃ s' k,
    Vector_move_ctor (E := exception) 1 two_sequences = (s', Normal k) ∧
    vectors s' !! k = Some (mkVector (mkRawMemory (Ptr 2 0) 2) 2) ∧
    vectors s' !! 1%positive = Some Vector_default ∧
    heap s' = heap two_sequences.
Proof.
  destruct (Vector_move_ctor_takes_over (E := exception) two_sequences 1
              (mkVector (mkRawMemory (Ptr 2 0) 2) 2))
    as (s' & k & Hrun & _ & Hk & Hother & _ & Hh & _).
  - vm_compute; reflexivity.
  - exists s', k. split; [exact Hrun|]. split; [exact Hk|].
    split; [exact Hother|exact Hh].
Defined.

Lemma Vector_Swap_involutive_witness :
  ∃ s',
    Vector_Swap (E := exception) 1 2 two_sequences = (s', Normal tt) ∧
    Vector_Swap (E := exception) 2 1 two_sequences = (s', Normal tt) ∧
    vectors s' !! 1%positive = Some (mkVector (mkRawMemory (Ptr 5 0) 4) 3) ∧
    vectors s' !! 2%positive = Some (mkVector (mkRawMemory (Ptr 2 0) 2) 2) ∧
    heap s' = heap two_sequences ∧
    Vector_Swap (E := exception) 1 2 s' = (two_sequences, Normal tt).
Proof.
  apply (Vector_Swap_involutive (E := exception) two_sequences 1 2
           (mkVector (mkRawMemory (Ptr 2 0) 2) 2)
           (mkVector (mkRawMemory (Ptr 5 0) 4) 3)).
  - vm_compute; reflexivity.
  - vm_compute; reflexivity.
Defined.

Lemma Emplace_at_end_witness :
  Emplace 1 (Ptr 4 5) 6%Z one_to_five = EmplaceBack 1 6%Z one_to_five.
Proof.
  apply (Emplace_at_end one_to_five 1
           (mkVector (mkRawMemory (Ptr 4 0) 8) 5) [1; 2; 3; 4; 5]%Z 6%Z).
  - vm_compute; reflexivity.
  - concrete.
Defined.

Lemma Vector_dtor_destroys_all_witness :
  Vector_dtor (E := exception) 1 two_sequences =
    (mkState (delete 2%positive (heap two_sequences)) (raws two_sequences)
             (vectors two_sequences) tt, Normal tt).
Proof.
  assert (Hv : vectors two_sequences !! 1%positive
               = Some (mkVector (mkRawMemory (Ptr 2 0) 2) 2))
    by (vm_compute; reflexivity).
  assert (Hh : holds two_sequences (mkVector (mkRawMemory (Ptr 2 0) 2) 2) [1; 2]%Z)
    by concrete.
  exact (Vector_dtor_destroys_all (E := exception) two_sequences 1 _ _ Hv Hh).
Defined.


Lemma Vector_copy_ctor_copies_witness :
  ∃ s', Vector_copy_ctor 2 two_sequences = (s', Normal 3%positive) ∧
    ∃ vk,
      vectors s' !! 3%positive = Some vk ∧ holds s' vk [9; 9; 9]%Z ∧
      size_ vk = 3 ∧ capacity_ (data_ vk) = 3 ∧
      vectors s' !! 2%positive = Some (mkVector (mkRawMemory (Ptr 5 0) 4) 3) ∧
      holds s' (mkVector (mkRawMemory (Ptr 5 0) 4) 3) [9; 9; 9]%Z.
Proof.
  exists (Vector_copy_ctor 2 two_sequences).1.
  assert (Hrun : Vector_copy_ctor 2 two_sequences
                 = ((Vector_copy_ctor 2 two_sequences).1, Normal 3%positive))
    by (vm_compute; reflexivity).
  split; [exact Hrun|].
  assert (Hv : vectors two_sequences !! 2%positive
               = Some (mkVector (mkRawMemory (Ptr 5 0) 4) 3))
    by (vm_compute; reflexivity).
  assert (Hh : holds two_sequences (mkVector (mkRawMemory (Ptr 5 0) 4) 3)
                 [9; 9; 9]%Z) by concrete.
  pose proof (Vector_copy_ctor_copies two_sequences
                (Vector_copy_ctor 2 two_sequences).1 2 _ _ _ Hv Hh Hrun) as Hpost.
  cbn beta iota in Hpost.
  destruct Hpost as (_ & vk & Hk & Hhk & Hsz & Hc & Hv2 & Hh2 & _).
  exists vk. split; [exact Hk|]. split; [exact Hhk|]. split; [exact Hsz|].
  split; [exact Hc|]. split; [exact Hv2|exact Hh2].
Defined.

Lemma Resize_shrinks_witness :
  ∃ s', Resize 1 2 one_to_five = (s', Normal tt) ∧
    ∃ vec',
      vectors s' !! 1%positive = Some vec' ∧ holds s' vec' [1; 2]%Z ∧
      size_ vec' = 2 ∧ data_ vec' = mkRawMemory (Ptr 4 0) 8.
Proof.
  exists (Resize 1 2 one_to_five).1.
  assert (Hrun : Resize 1 2 one_to_five = ((Resize 1 2 one_to_five).1, Normal tt))
    by (vm_compute; reflexivity).
  split; [exact Hrun|].
  destruct (Resize_shrinks one_to_five
              (Resize 1 2 one_to_five).1 1
              (mkVector (mkRawMemory (Ptr 4 0) 8) 5) [1; 2; 3; 4; 5]%Z 2 (Normal tt))
    as (_ & vec' & Hv & Hh & Hsz & Hd & _).
  - vm_compute; reflexivity.
  - concrete.
  - cbn; lia.
  - exact Hrun.
  - exists vec'. split; [exact Hv|]. split; [exact Hh|].
    split; [exact Hsz|exact Hd].
Defined.


Lemma EmplaceBack_copying_strong_witness :
  ∃ s', EmplaceBack 1 5%Z fragile_full = (s', Throw (copy_failed (-2))) ∧
    heap s' = heap fragile_full ∧ raws s' = raws fragile_full ∧
    vectors s' = vectors fragile_full.
Proof.
  exists (EmplaceBack 1 5%Z fragile_full).1.
  assert (Hrun : EmplaceBack 1 5%Z fragile_full
                 = ((EmplaceBack 1 5%Z fragile_full).1, Throw (copy_failed (-2))))
    by (vm_compute; reflexivity).
  split; [exact Hrun|].
  apply (EmplaceBack_copying_strong fragile_full
              (EmplaceBack 1 5%Z fragile_full).1 1
           (mkVector (mkRawMemory (Ptr 2 0) 2) 2) [1; -2]%Z 5%Z (copy_failed (-2))).
  - reflexivity.
  - vm_compute; reflexivity.
  - concrete.
  - exact Hrun.
Defined.

Lemma Reserve_copying_strong_witness :
  ∃ s', Reserve 1 5 fragile_full = (s', Throw (copy_failed (-2))) ∧
    heap s' = heap fragile_full ∧ raws s' = raws fragile_full ∧
    vectors s' = vectors fragile_full.
Proof.
  exists (Reserve 1 5 fragile_full).1.
  assert (Hrun : Reserve 1 5 fragile_full
                 = ((Reserve 1 5 fragile_full).1, Throw (copy_failed (-2))))
    by (vm_compute; reflexivity).
  split; [exact Hrun|].
  apply (Reserve_copying_strong fragile_full
              (Reserve 1 5 fragile_full).1 1
           (mkVector (mkRawMemory (Ptr 2 0) 2) 2) [1; -2]%Z 5 (copy_failed (-2))).
  - reflexivity.
  - vm_compute; reflexivity.
  - concrete.
  - exact Hrun.
Defined.

Lemma Emplace_inside_full_witness :
  ∃ s', Emplace 1 (Ptr 2 1) 7%Z fragile_fine = (s', Normal (Ptr 3 1)) ∧
    ∃ vec',
      vectors s' !! 1%positive = Some vec' ∧ holds s' vec' [1; 7; 2]%Z ∧
      size_ vec' = 3 ∧ capacity_ (data_ vec') = 4 ∧
      Ptr 3 1 = buffer_ (data_ vec') +ₚ 1.
Proof.
  exists (Emplace 1 (Ptr 2 1) 7%Z fragile_fine).1.
  assert (Hrun : Emplace 1 (Ptr 2 1) 7%Z fragile_fine
                 = ((Emplace 1 (Ptr 2 1) 7%Z fragile_fine).1, Normal (Ptr 3 1)))
    by (vm_compute; reflexivity).
  split; [exact Hrun|].
  destruct (Emplace_inside_full fragile_fine
              (Emplace 1 (Ptr 2 1) 7%Z fragile_fine).1 1
              (mkVector (mkRawMemory (Ptr 2 0) 2) 2) [1; 2]%Z 1 7%Z (Ptr 3 1))
    as (vec' & x & Hv & Hh & (w & w' & [= _ <-]) & Hsz & Hc & Hp & _).
  - intros _. repeat constructor; intros w w' e; cbn; discriminate.
  - vm_compute; reflexivity.
  - concrete.
  - cbn; lia.
  - reflexivity.
  - exact Hrun.
  - exists vec'. split; [exact Hv|]. split; [exact Hh|].
    split; [exact Hsz|]. split; [exact Hc|exact Hp].
Defined.

Lemma Emplace_then_Erase_witness :
  ∃ s', (p ← Emplace 1 (Ptr 4 2) 99%Z; Erase 1 p) one_to_five
          = (s', Normal (Ptr 4 2)) ∧
    vectors s' !! 1%positive = Some (mkVector (mkRawMemory (Ptr 4 0) 8) 5) ∧
    holds s' (mkVector (mkRawMemory (Ptr 4 0) 8) 5) [1; 2; 3; 4; 5]%Z.
Proof.
  exists ((p ← Emplace 1 (Ptr 4 2) 99%Z; Erase 1 p) one_to_five).1.
  assert (Hrun : (p ← Emplace 1 (Ptr 4 2) 99%Z; Erase 1 p) one_to_five
                 = (((p ← Emplace 1 (Ptr 4 2) 99%Z; Erase 1 p) one_to_five).1,
                    Normal (Ptr 4 2)))
    by (vm_compute; reflexivity).
  split; [exact Hrun|].
  apply (Emplace_then_Erase one_to_five
              ((p ← Emplace 1 (Ptr 4 2) 99%Z; Erase 1 p) one_to_five).1 1
           (mkVector (mkRawMemory (Ptr 4 0) 8) 5) [1; 2; 3; 4; 5]%Z 2 99%Z (Ptr 4 2)).
  - vm_compute; reflexivity.
  - concrete.
  - cbn; lia.
  - cbn; lia.
  - exact Hrun.
Defined.

Lemma PushBack_then_PopBack_witness :
  ∃ s', (PushBack 1 3%Z;; PopBack 1) two_sequences = (s', Normal tt) ∧
    ∃ vec',
      vectors s' !! 1%positive = Some vec' ∧ holds s' vec' [1; 2]%Z ∧
      size_ vec' = 2 ∧ capacity_ (data_ vec') = 4.
Proof.
  exists ((PushBack 1 3%Z;; PopBack 1) two_sequences).1.
  assert (Hrun : (PushBack 1 3%Z;; PopBack 1) two_sequences
                 = (((PushBack 1 3%Z;; PopBack 1) two_sequences).1, Normal tt))
    by (vm_compute; reflexivity).
  split; [exact Hrun|].
  destruct (PushBack_then_PopBack two_sequences
              ((PushBack 1 3%Z;; PopBack 1) two_sequences).1 1
              (mkVector (mkRawMemory (Ptr 2 0) 2) 2) [1; 2]%Z 3%Z)
    as (vec' & Hv & Hh & Hsz & Hc).
  - vm_compute; reflexivity.
  - concrete.
  - exact Hrun.
  - exists vec'. split; [exact Hv|]. split; [exact Hh|].
    split; [exact Hsz|exact Hc].
Defined.

Lemma PushBack_each_keeps_storage_witness :
  ∃ s', PushBack_each 1 [6; 7; 8]%Z one_to_five = (s', Normal tt) ∧
    ∃ vec',
      vectors s' !! 1%positive = Some vec' ∧
      holds s' vec' [1; 2; 3; 4; 5; 6; 7; 8]%Z ∧
      data_ vec' = mkRawMemory (Ptr 4 0) 8.
Proof.
  exists (PushBack_each 1 [6; 7; 8]%Z one_to_five).1.
  assert (Hrun : PushBack_each 1 [6; 7; 8]%Z one_to_five
                 = ((PushBack_each 1 [6; 7; 8]%Z one_to_five).1, Normal tt))
    by (vm_compute; reflexivity).
  split; [exact Hrun|].
  destruct (PushBack_each_keeps_storage one_to_five
              (PushBack_each 1 [6; 7; 8]%Z one_to_five).1 1
              (mkVector (mkRawMemory (Ptr 4 0) 8) 5) [1; 2; 3; 4; 5]%Z [6; 7; 8]%Z)
    as (vec' & ys & Hv & Hh & Hys & Hd).
  - vm_compute; reflexivity.
  - concrete.
  - cbn; lia.
  - exact Hrun.
  - exists vec'. split; [exact Hv|]. split; [|exact Hd].
    apply Forall2_cons_inv_l in Hys as (y1 & ys1 & (? & ? & [= _ <-]) & Hys & ->).
    apply Forall2_cons_inv_l in Hys as (y2 & ys2 & (? & ? & [= _ <-]) & Hys & ->).
    apply Forall2_cons_inv_l in Hys as (y3 & ys3 & (? & ? & [= _ <-]) & Hys & ->).
    apply Forall2_nil_inv_l in Hys as ->. exact Hh.
Defined.

Lemma PushBack_each_from_empty_witness :
  ∃ s', PushBack_each 1 [1; 2; 3]%Z fragile_empty = (s', Normal tt) ∧
    ∃ vec' ys k,
      vectors s' !! 1%positive = Some vec' ∧ holds s' vec' ys ∧
      size_ vec' = 3 ∧ capacity_ (data_ vec') = 2 ^ k ∧ 3 ≤ 2 ^ k ∧ 2 ^ k < 6.
Proof.
  exists (PushBack_each 1 [1; 2; 3]%Z fragile_empty).1.
  assert (Hrun : PushBack_each 1 [1; 2; 3]%Z fragile_empty
                 = ((PushBack_each 1 [1; 2; 3]%Z fragile_empty).1, Normal tt))
    by (vm_compute; reflexivity).
  split; [exact Hrun|].
  destruct (PushBack_each_from_empty fragile_empty
              (PushBack_each 1 [1; 2; 3]%Z fragile_empty).1 1 Vector_default [1; 2; 3]%Z)
    as (vec' & ys & k & Hv & Hh & _ & Hsz & Hc & Hle & Hlt).
  - vm_compute; reflexivity.
  - vm_compute. repeat split; lia.
  - reflexivity.
  - discriminate.
  - exact Hrun.
  - exists vec', ys, k. split; [exact Hv|]. split; [exact Hh|].
    split; [exact Hsz|]. split; [exact Hc|]. split; [exact Hle|exact Hlt].
Defined.

Lemma Vector_move_assign_self_witness :
  Vector_move_assign (E := exception) 1 1 two_sequences = (two_sequences, Normal tt).
Proof.
  apply (Vector_move_assign_self (E := exception) two_sequences 1
           (mkVector (mkRawMemory (Ptr 2 0) 2) 2)).
  vm_compute; reflexivity.
Defined.

Lemma RawMemory_move_ctor_takes_over_witness :
  ∃ s' k,
    RawMemory_move_ctor (E := exception) (raw_at 1) two_storages = (s', Normal k) ∧
    raws s' !! k = Some (mkRawMemory (Ptr 2 0) 2) ∧
    raws s' !! 1%positive = Some RawMemory_default ∧
    heap s' = heap two_storages.
Proof.
  destruct (RawMemory_move_ctor_takes_over (E := exception) two_storages 1
              (mkRawMemory (Ptr 2 0) 2))
    as (s' & k & Hrun & _ & Hk & Hother & _ & Hh & _).
  - vm_compute; reflexivity.
  - exists s', k. split; [exact Hrun|]. split; [exact Hk|].
    split; [exact Hother|exact Hh].
Defined.


Lemma Erase_at_end_undefined_witness :
  Erase 1 (Ptr 4 5) one_to_five = (one_to_five, Undefined).
Proof.
  apply (Erase_at_end_undefined one_to_five 1
           (mkVector (mkRawMemory (Ptr 4 0) 8) 5) [1; 2; 3; 4; 5]%Z).
  - vm_compute; reflexivity.
  - concrete.
Defined.

Lemma Emplace_construction_fails_witness :
  ∃ s', Emplace 1 (Ptr 2 1) 0%Z fragile_full = (s', Throw construction_failed) ∧
    heap s' = heap fragile_full ∧ raws s' = raws fragile_full ∧
    vectors s' = vectors fragile_full.
Proof.
  exists (Emplace 1 (Ptr 2 1) 0%Z fragile_full).1.
  assert (Hrun : Emplace 1 (Ptr 2 1) 0%Z fragile_full
                 = ((Emplace 1 (Ptr 2 1) 0%Z fragile_full).1,
                    Throw construction_failed))
    by (vm_compute; reflexivity).
  split; [exact Hrun|].
  apply (Emplace_construction_fails fragile_full
              (Emplace 1 (Ptr 2 1) 0%Z fragile_full).1 1
           (mkVector (mkRawMemory (Ptr 2 0) 2) 2) [1; -2]%Z 1 0%Z
           (Throw construction_failed)).
  - intros w. exists (construction_failed :: w), construction_failed. reflexivity.
  - vm_compute; reflexivity.
  - concrete.
  - cbn; lia.
  - exact Hrun.
Defined.

Lemma copy_assign_failure_witness :
  ∃ s', Vector_copy_assign 2 1 fragile_pair = (s', Throw (copy_failed (-2))) ∧
    vectors s' = vectors fragile_pair ∧
    holds s' (mkVector (mkRawMemory (Ptr 2 0) 2) 2) [1; -2]%Z ∧
    heap s' = heap fragile_pair.
Proof.
  exists (Vector_copy_assign 2 1 fragile_pair).1.
  assert (Hrun : Vector_copy_assign 2 1 fragile_pair
                 = ((Vector_copy_assign 2 1 fragile_pair).1, Throw (copy_failed (-2))))
    by (vm_compute; reflexivity).
  split; [exact Hrun|].
  destruct (copy_assign_failure fragile_pair
              (Vector_copy_assign 2 1 fragile_pair).1 2 1 Vector_default
              (mkVector (mkRawMemory (Ptr 2 0) 2) 2) [] [1; -2]%Z (copy_failed (-2)))
    as (Hv & _ & Hh & _ & Hheap).
  - done.
  - vm_compute; reflexivity.
  - vm_compute; reflexivity.
  - vm_compute. repeat split; lia.
  - concrete.
  - intros l off l' off'. cbn. congruence.
  - exact Hrun.
  - split; [exact Hv|]. split; [exact Hh|]. apply Hheap. cbn; lia.
Defined.
